(** * CloudLabs personalizer: document store, dieline geometry, face
    textures and text layout

    A shallow embedding of [src/lib/store.ts], of the helpers gathered in
    [src/lib/dieline.ts] (containment, preview store, text metrics) and of
    the face-texture synchronisation callback of the canvas component;
    then of the geometry helpers of the canvas stage
    ([src/unnamed/part_003]), of the placing of the selection toolbar
    ([src/unnamed/part_001]) and of the texture effect of the 3D panel
    ([src/components/RightPanel3DClient.tsx]).

    Conventions.
    - A JavaScript [number] is a value of [JsNum.number]: [NaN], the two
      infinities, or a finite value carried as a rational.  The special
      values follow ECMAScript; rounding of finite doubles and the sign of
      zero are not modelled.
    - Arrays are lists in array order, plain objects used as records are
      [gmap]s from property names, a zustand updater [set(fn)] is a function
      from the state to the next state, and an updater that returns [state]
      itself returns its argument.
    - Trigonometry needs real numbers: the curved text layout is embedded
      over [R] in [CurvedText]. *)

From Stdlib Require Import QArith Qround Qabs Reals Lra Lia Ascii.
From Stdlib Require Lqa.
From stdpp Require Import gmap strings list.

(** ** JavaScript numbers *)

Module JsNum.

Local Open Scope Q_scope.

Inductive number : Type :=
| NaN
| PInf
| NInf
| Fin (q : Q).

Definition zero : number := Fin 0.

Definition isFinite (n : number) : bool :=
  match n with Fin _ => true | _ => false end.

(** [a === b] on numbers: [NaN] differs from everything, itself included. *)
Definition strict_eq (a b : number) : bool :=
  match a, b with
  | Fin x, Fin y => Qeq_bool x y
  | PInf, PInf | NInf, NInf => true
  | _, _ => false
  end.

(** [a <= b]; every comparison with [NaN] is false. *)
Definition le (a b : number) : bool :=
  match a, b with
  | NaN, _ | _, NaN => false
  | NInf, _ | _, PInf => true
  | Fin x, Fin y => Qle_bool x y
  | _, _ => false
  end.

Definition ge (a b : number) : bool := le b a.

(** [a < b] *)
Definition lt (a b : number) : bool :=
  match a, b with
  | NaN, _ | _, NaN => false
  | Fin x, Fin y => negb (Qle_bool y x)
  | NInf, NInf | PInf, PInf => false
  | NInf, _ | _, PInf => true
  | _, _ => false
  end.

Definition gt (a b : number) : bool := lt b a.

Definition neg (a : number) : number :=
  match a with
  | NaN => NaN
  | PInf => NInf
  | NInf => PInf
  | Fin x => Fin (- x)
  end.

Definition add (a b : number) : number :=
  match a, b with
  | NaN, _ | _, NaN => NaN
  | PInf, NInf | NInf, PInf => NaN
  | PInf, _ | _, PInf => PInf
  | NInf, _ | _, NInf => NInf
  | Fin x, Fin y => Fin (x + y)
  end.

Definition sub (a b : number) : number := add a (neg b).

(** An infinity scaled by a finite factor: the sign decides, zero gives
    [NaN]. *)
Definition signed_inf (positive : bool) (q : Q) : number :=
  match (q ?= 0)%Q with
  | Eq => NaN
  | Gt => if positive then PInf else NInf
  | Lt => if positive then NInf else PInf
  end.

Definition mul (a b : number) : number :=
  match a, b with
  | NaN, _ | _, NaN => NaN
  | PInf, PInf | NInf, NInf => PInf
  | PInf, NInf | NInf, PInf => NInf
  | PInf, Fin y => signed_inf true y
  | NInf, Fin y => signed_inf false y
  | Fin x, PInf => signed_inf true x
  | Fin x, NInf => signed_inf false x
  | Fin x, Fin y => Fin (x * y)
  end.

Definition div (a b : number) : number :=
  match a, b with
  | NaN, _ | _, NaN => NaN
  | Fin x, Fin y => if Qeq_bool y 0 then signed_inf true x else Fin (x / y)
  | Fin _, _ => Fin 0
  | PInf, Fin y => if Qle_bool 0 y then PInf else NInf
  | NInf, Fin y => if Qle_bool 0 y then NInf else PInf
  | _, _ => NaN
  end.

(** [Math.round]: the nearest integer, halves rounded up. *)
Definition round (a : number) : number :=
  match a with
  | Fin x => Fin (inject_Z (Qfloor (x + (1 # 2))))
  | _ => a
  end.

(** [Math.min] and [Math.max] answer [NaN] as soon as one argument is. *)
Definition min (a b : number) : number :=
  match a, b with
  | NaN, _ | _, NaN => NaN
  | _, _ => if le a b then a else b
  end.

Definition max (a b : number) : number :=
  match a, b with
  | NaN, _ | _, NaN => NaN
  | _, _ => if le a b then b else a
  end.

Definition Qtrunc (q : Q) : Z :=
  if Qle_bool 0 q then Qfloor q else Qceiling q.

(** [a % b]: the remainder has the sign of the dividend. *)
Definition rem (a b : number) : number :=
  match a, b with
  | Fin x, Fin y =>
      if Qeq_bool y 0 then NaN else Fin (x - y * inject_Z (Qtrunc (x / y)))
  | Fin x, (PInf | NInf) => Fin x
  | _, _ => NaN
  end.

(** Truthiness of a number: [0] and [NaN] are falsy. *)
Definition truthy (a : number) : bool :=
  match a with
  | NaN => false
  | Fin x => negb (Qeq_bool x 0)
  | _ => true
  end.

(** [a || b] on numbers *)
Definition or_else (a b : number) : number := if truthy a then a else b.

(** The finite value [q] lies in the closed interval [lo, hi]. *)
Definition within (lo hi : Q) (n : number) : Prop :=
  match n with
  | Fin q => (lo <= q)%Q /\ (q <= hi)%Q
  | _ => False
  end.

(** [n] is a whole number of hundredths. *)
Definition two_decimals (n : number) : Prop :=
  match n with
  | Fin q => exists k : Z, (q == inject_Z k / 100)%Q
  | _ => False
  end.

(** [n] is a finite integer multiple of [m]. *)
Definition multiple_of (m : Q) (n : number) : Prop :=
  match n with
  | Fin q => exists k : Z, (q == m * inject_Z k)%Q
  | _ => False
  end.

End JsNum.

(** ** The document store ([src/lib/store.ts]) *)

Module Store.

Import JsNum.

Definition MIN_ZOOM : number := Fin 0.5.
Definition MAX_ZOOM : number := Fin 2.5.
Definition ZOOM_STEP : number := Fin 0.1.

Inductive PanelKey : Type :=
| PanelPdf | PanelAddImage | PanelShapes | PanelAddText
| PanelBlocks | PanelProject | PanelMore | PanelZoomReset.

Record ImageAsset : Type :=
  { image_id : string; image_name : string; image_url : string }.

Record PdfAsset : Type :=
  { pdf_id : string; pdf_name : string; pdf_url : string }.

(** The values a node's [data] record holds: the typed variants (image, pdf,
    shape, text) only have primitive fields. *)
Inductive jsval : Type :=
| VUndefined
| VNull
| VBool (b : bool)
| VNum (n : number)
| VStr (s : string).

(** [a === b] on primitives *)
Definition val_strict_eq (a b : jsval) : bool :=
  match a, b with
  | VUndefined, VUndefined | VNull, VNull => true
  | VBool x, VBool y => Bool.eqb x y
  | VNum x, VNum y => strict_eq x y
  | VStr x, VStr y => String.eqb x y
  | _, _ => false
  end.

(** [record[key]]: a missing property reads as [undefined]. *)
Definition prop (record : gmap string jsval) (key : string) : jsval :=
  default VUndefined (record !! key).

(** [DocumentNode]: the variants share [id], [type] and [data]; only the
    open variant may lack [data]. *)
Record DocumentNode : Type :=
  { node_id : string;
    node_type : string;
    node_data : option (gmap string jsval) }.

Inductive PendingPlacement : Type :=
| PlaceImage (assetId : string)
| PlacePdf (assetId : string) (pageNumber : number) (imageUrl : string)
    (width height : number).

Record DocumentState : Type :=
  { openPanel : option PanelKey;
    zoom : number;
    rotation : number;
    nodes : list DocumentNode;
    selection : list string;
    isPropertiesPanelOpen : bool;
    showBoundingBox : bool;
    showTransparencyGrid : bool;
    isPrintPreview : bool;
    assets_images : list ImageAsset;
    assets_pdfs : list PdfAsset;
    past : list (list DocumentNode);
    future : list (list DocumentNode);
    pendingPlacement : option PendingPlacement }.

(** [cloneNode] copies the node and, one level down, its data record. *)
Definition cloneNode (node : DocumentNode) : DocumentNode :=
  {| node_id := node_id node;
     node_type := node_type node;
     node_data :=
       match node_data node with
       | Some d => Some d
       | None => None
       end |}.

Definition cloneNodes (ns : list DocumentNode) : list DocumentNode :=
  map cloneNode ns.

Definition normalizeZoom (value : number) : number :=
  let rounded := div (round (mul value (Fin 100))) (Fin 100) in
  min MAX_ZOOM (max MIN_ZOOM rounded).

(** [hasShallowChanges prev next].  [same] tells that [next] is the very
    object [prev] (the first test, [prev === next]); two [undefined] are
    equal too. *)
Definition hasShallowChanges (same : bool)
    (prev next : option (gmap string jsval)) : bool :=
  if same then false
  else
    match prev, next with
    | None, None => false
    | Some prevRecord, Some nextRecord =>
        existsb
          (fun key => negb (val_strict_eq (prop prevRecord key) (prop nextRecord key)))
          (elements (dom prevRecord ∪ dom nextRecord))
    | _, _ => true
    end.

(** The initial state of [useDocumentStore]. *)
Definition initialState : DocumentState :=
  {| openPanel := None;
     zoom := Fin 1;
     rotation := Fin 0;
     nodes := [];
     selection := [];
     isPropertiesPanelOpen := false;
     showBoundingBox := true;
     showTransparencyGrid := false;
     isPrintPreview := false;
     assets_images := [];
     assets_pdfs := [];
     past := [];
     future := [];
     pendingPlacement := None |}.

(** *** Partial updates merged by [set] *)

Definition with_zoom (z : number) (s : DocumentState) : DocumentState :=
  {| openPanel := openPanel s; zoom := z; rotation := rotation s;
     nodes := nodes s; selection := selection s;
     isPropertiesPanelOpen := isPropertiesPanelOpen s;
     showBoundingBox := showBoundingBox s;
     showTransparencyGrid := showTransparencyGrid s;
     isPrintPreview := isPrintPreview s;
     assets_images := assets_images s; assets_pdfs := assets_pdfs s;
     past := past s; future := future s;
     pendingPlacement := pendingPlacement s |}.

Definition with_rotation (r : number) (s : DocumentState) : DocumentState :=
  {| openPanel := openPanel s; zoom := zoom s; rotation := r;
     nodes := nodes s; selection := selection s;
     isPropertiesPanelOpen := isPropertiesPanelOpen s;
     showBoundingBox := showBoundingBox s;
     showTransparencyGrid := showTransparencyGrid s;
     isPrintPreview := isPrintPreview s;
     assets_images := assets_images s; assets_pdfs := assets_pdfs s;
     past := past s; future := future s;
     pendingPlacement := pendingPlacement s |}.

Definition with_nodes (ns : list DocumentNode) (s : DocumentState) : DocumentState :=
  {| openPanel := openPanel s; zoom := zoom s; rotation := rotation s;
     nodes := ns; selection := selection s;
     isPropertiesPanelOpen := isPropertiesPanelOpen s;
     showBoundingBox := showBoundingBox s;
     showTransparencyGrid := showTransparencyGrid s;
     isPrintPreview := isPrintPreview s;
     assets_images := assets_images s; assets_pdfs := assets_pdfs s;
     past := past s; future := future s;
     pendingPlacement := pendingPlacement s |}.

Definition with_history (p f : list (list DocumentNode)) (s : DocumentState)
  : DocumentState :=
  {| openPanel := openPanel s; zoom := zoom s; rotation := rotation s;
     nodes := nodes s; selection := selection s;
     isPropertiesPanelOpen := isPropertiesPanelOpen s;
     showBoundingBox := showBoundingBox s;
     showTransparencyGrid := showTransparencyGrid s;
     isPrintPreview := isPrintPreview s;
     assets_images := assets_images s; assets_pdfs := assets_pdfs s;
     past := p; future := f;
     pendingPlacement := pendingPlacement s |}.

Definition with_selection (sel : list string) (s : DocumentState) : DocumentState :=
  {| openPanel := openPanel s; zoom := zoom s; rotation := rotation s;
     nodes := nodes s; selection := sel;
     isPropertiesPanelOpen := isPropertiesPanelOpen s;
     showBoundingBox := showBoundingBox s;
     showTransparencyGrid := showTransparencyGrid s;
     isPrintPreview := isPrintPreview s;
     assets_images := assets_images s; assets_pdfs := assets_pdfs s;
     past := past s; future := future s;
     pendingPlacement := pendingPlacement s |}.

Definition with_propertiesPanelOpen (b : bool) (s : DocumentState) : DocumentState :=
  {| openPanel := openPanel s; zoom := zoom s; rotation := rotation s;
     nodes := nodes s; selection := selection s;
     isPropertiesPanelOpen := b;
     showBoundingBox := showBoundingBox s;
     showTransparencyGrid := showTransparencyGrid s;
     isPrintPreview := isPrintPreview s;
     assets_images := assets_images s; assets_pdfs := assets_pdfs s;
     past := past s; future := future s;
     pendingPlacement := pendingPlacement s |}.

(** [{ nodes, past: [...state.past, cloneNodes(state.nodes)], future: [] }]:
    the partial state every committing edit returns. *)
Definition commit (ns : list DocumentNode) (s : DocumentState) : DocumentState :=
  with_history (past s ++ [cloneNodes (nodes s)]) [] (with_nodes ns s).

(** *** View actions *)

Definition setZoom (z : number) (s : DocumentState) : DocumentState :=
  let nextZoom := normalizeZoom z in
  if strict_eq nextZoom (zoom s) then s else with_zoom nextZoom s.

Definition zoomIn (s : DocumentState) : DocumentState :=
  let nextZoom := normalizeZoom (add (zoom s) ZOOM_STEP) in
  if strict_eq nextZoom (zoom s) then s else with_zoom nextZoom s.

Definition zoomOut (s : DocumentState) : DocumentState :=
  let nextZoom := normalizeZoom (sub (zoom s) ZOOM_STEP) in
  if strict_eq nextZoom (zoom s) then s else with_zoom nextZoom s.

Definition resetZoom (s : DocumentState) : DocumentState :=
  with_zoom (Fin 1) s.

(** [(x % 360 + 360) % 360], the sum and the remainders being the exact
    ones: they are those of the code on whole numbers of degrees, on which
    doubles do not round. *)
Definition normalize360 (x : number) : number :=
  rem (add (rem x (Fin 360)) (Fin 360)) (Fin 360).

Definition rotateCanvasLeft (s : DocumentState) : DocumentState :=
  let nextRotation := normalize360 (sub (rotation s) (Fin 90)) in
  if strict_eq nextRotation (rotation s) then s else with_rotation nextRotation s.

Definition rotateCanvasRight (s : DocumentState) : DocumentState :=
  let nextRotation := normalize360 (add (rotation s) (Fin 90)) in
  if strict_eq nextRotation (rotation s) then s else with_rotation nextRotation s.

Definition setRotation (r : number) (s : DocumentState) : DocumentState :=
  with_rotation r s.

Definition setSelection (sel : list string) (s : DocumentState) : DocumentState :=
  with_selection sel s.

(** *** Editing actions *)

(** [selection.includes(id)] *)
Definition includes (sel : list string) (x : string) : bool :=
  existsb (String.eqb x) sel.

(** [nodes.findIndex(pred)], [None] standing for [-1]. *)
Fixpoint findIndex {A : Type} (pred : A -> bool) (l : list A) : option nat :=
  match l with
  | [] => None
  | x :: rest => if pred x then Some 0%nat else S <$> findIndex pred rest
  end.

(** The callback of [state.nodes.map] in [rotateSelectionClockwise]: the
    next node, and whether it set [hasUpdates]. *)
Definition rotateNode (sel : list string) (node : DocumentNode)
  : DocumentNode * bool :=
  if negb (includes sel (node_id node)) then (node, false)
  else
    match node_data node with
    | None => (node, false)
    | Some d =>
        match d !! "rotation" with
        | None => (node, false)
        | Some rotationValue =>
            let currentRotation :=
              match rotationValue with VNum n => n | _ => Fin 0 end in
            let nextRotation := normalize360 (add currentRotation (Fin 90)) in
            if strict_eq nextRotation currentRotation then (node, false)
            else
              ({| node_id := node_id node;
                  node_type := node_type node;
                  node_data := Some (<["rotation" := VNum nextRotation]> d) |},
               true)
        end
    end.

Definition rotateSelectionClockwise (s : DocumentState) : DocumentState :=
  match selection s with
  | [] => s
  | _ =>
      let results := map (rotateNode (selection s)) (nodes s) in
      let nextNodes := map fst results in
      let hasUpdates := existsb snd results in
      if negb hasUpdates then s else commit (cloneNodes nextNodes) s
  end.

Definition setNodes (ns : list DocumentNode) (s : DocumentState) : DocumentState :=
  commit (cloneNodes ns) s.

Definition addNode (node : DocumentNode) (s : DocumentState) : DocumentState :=
  commit (nodes s ++ [cloneNode node]) s.

Definition deleteSelection (s : DocumentState) : DocumentState :=
  match selection s with
  | [] => s
  | _ =>
      let remainingNodes :=
        List.filter (fun node => negb (includes (selection s) (node_id node))) (nodes s) in
      if (length remainingNodes =? length (nodes s))%nat then s
      else
        with_propertiesPanelOpen false
          (with_selection [] (commit (cloneNodes remainingNodes) s))
  end.

Definition undo (s : DocumentState) : DocumentState :=
  match last (past s) with
  | None => s
  | Some previous =>
      let updatedPast := removelast (past s) in
      with_selection []
        (with_history updatedPast (cloneNodes (nodes s) :: future s)
           (with_nodes (cloneNodes previous) s))
  end.

Definition redo (s : DocumentState) : DocumentState :=
  match future s with
  | [] => s
  | next :: rest =>
      with_selection []
        (with_history (past s ++ [cloneNodes (nodes s)]) rest
           (with_nodes (cloneNodes next) s))
  end.

(** What an updater function handed to [updateNode] returns: the object it
    was given, or another value. *)
Inductive UpdateResult : Type :=
| SameObject
| Fresh (d : option (gmap string jsval)).

(** The second argument of [updateNode]: a partial record or a function. *)
Inductive Updates : Type :=
| Partial (fields : gmap string jsval)
| Updater (f : option (gmap string jsval) -> UpdateResult).

(** [updateNode(nodeId, updates, { commit })]; [commitFlag] is [false] for
    [commit: false] and [true] otherwise. *)
Definition updateNode (nodeId : string) (updates : Updates) (commitFlag : bool)
    (s : DocumentState) : DocumentState :=
  match findIndex (fun node => String.eqb (node_id node) nodeId) (nodes s) with
  | None => s
  | Some index =>
      match nodes s !! index with
      | None => s
      | Some node =>
          let baseData := default ∅ (node_data node) in
          let '(same, nextData) :=
            match updates with
            | Updater f =>
                match f (node_data node) with
                | SameObject => (true, node_data node)
                | Fresh d => (false, d)
                end
            | Partial fields => (false, Some (fields ∪ baseData))
            end in
          if negb (hasShallowChanges same (node_data node) nextData) then s
          else
            let nextNodes :=
              <[index :=
                  {| node_id := node_id node;
                     node_type := node_type node;
                     node_data := nextData |}]> (nodes s) in
            if negb commitFlag then with_nodes (cloneNodes nextNodes) s
            else commit (cloneNodes nextNodes) s
      end
  end.

(** [state.selection[state.selection.length - 1]] when it is truthy. *)
Definition primarySelection (s : DocumentState) : option string :=
  match last (selection s) with
  | Some selectedId => if String.eqb selectedId "" then None else Some selectedId
  | None => None
  end.

Definition bringSelectionToFront (s : DocumentState) : DocumentState :=
  match primarySelection s with
  | None => s
  | Some selectedId =>
      match findIndex (fun node => String.eqb (node_id node) selectedId) (nodes s) with
      | None => s
      | Some index =>
          if (index =? length (nodes s) - 1)%nat then s
          else
            match nodes s !! index with
            | None => s
            | Some node =>
                let nextNodes := delete index (nodes s) ++ [node] in
                commit (cloneNodes nextNodes) s
            end
      end
  end.

Definition sendSelectionBackward (s : DocumentState) : DocumentState :=
  match primarySelection s with
  | None => s
  | Some selectedId =>
      match findIndex (fun node => String.eqb (node_id node) selectedId) (nodes s) with
      | None => s
      | Some index =>
          if (index <=? 0)%nat then s
          else
            match nodes s !! index with
            | None => s
            | Some node =>
                let removed := delete index (nodes s) in
                let nextNodes :=
                  take (index - 1) removed ++ [node] ++ drop (index - 1) removed in
                commit (cloneNodes nextNodes) s
            end
      end
  end.

(** The committing edits, as calls. *)
Inductive Edit : Type :=
| ESetNodes (ns : list DocumentNode)
| EAddNode (node : DocumentNode)
| EDeleteSelection
| EUpdateNode (nodeId : string) (updates : Updates)
| ERotateSelectionClockwise
| EBringSelectionToFront
| ESendSelectionBackward.

Definition applyEdit (e : Edit) (s : DocumentState) : DocumentState :=
  match e with
  | ESetNodes ns => setNodes ns s
  | EAddNode node => addNode node s
  | EDeleteSelection => deleteSelection s
  | EUpdateNode nodeId updates => updateNode nodeId updates true s
  | ERotateSelectionClockwise => rotateSelectionClockwise s
  | EBringSelectionToFront => bringSelectionToFront s
  | ESendSelectionBackward => sendSelectionBackward s
  end.

Definition applyEdits (es : list Edit) (s : DocumentState) : DocumentState :=
  fold_left (fun st e => applyEdit e st) es s.

(** The edit went through: it pushed the prior node collection on [past]. *)
Definition commits (e : Edit) (s : DocumentState) : Prop :=
  past (applyEdit e s) = past s ++ [nodes s].

Fixpoint allCommit (es : list Edit) (s : DocumentState) : Prop :=
  match es with
  | [] => True
  | e :: rest => commits e s /\ allCommit rest (applyEdit e s)
  end.

(** The view-level setters, as calls. *)
Inductive ViewOp : Type :=
| VSetZoom (z : number)
| VZoomIn
| VZoomOut
| VResetZoom
| VSetRotation (r : number)
| VRotateCanvasLeft
| VRotateCanvasRight.

Definition applyView (v : ViewOp) (s : DocumentState) : DocumentState :=
  match v with
  | VSetZoom z => setZoom z s
  | VZoomIn => zoomIn s
  | VZoomOut => zoomOut s
  | VResetZoom => resetZoom s
  | VSetRotation r => setRotation r s
  | VRotateCanvasLeft => rotateCanvasLeft s
  | VRotateCanvasRight => rotateCanvasRight s
  end.

(** The zoom setters, as calls. *)
Inductive ZoomOp : Type :=
| ZSetZoom (z : number)
| ZZoomIn
| ZZoomOut.

Definition applyZoom (z : ZoomOp) (s : DocumentState) : DocumentState :=
  match z with
  | ZSetZoom v => setZoom v s
  | ZZoomIn => zoomIn s
  | ZZoomOut => zoomOut s
  end.

(** [undo] called [n] times in a row. *)
Fixpoint undoTimes (n : nat) (s : DocumentState) : DocumentState :=
  match n with
  | O => s
  | S k => undoTimes k (undo s)
  end.

(** [k] calls [updateNode(nodeId, u, { commit: false })], one per element. *)
Definition liveUpdates (nodeId : string) (us : list Updates) (s : DocumentState)
  : DocumentState :=
  fold_left (fun st u => updateNode nodeId u false st) us s.

(** *** Sample documents *)

Definition imageNode (name : string) (x : Q) : DocumentNode :=
  {| node_id := name;
     node_type := "image";
     node_data :=
       Some (<["assetId" := VStr "asset-1"]>
               (<["x" := VNum (Fin x)]> (<["y" := VNum (Fin 0)]> ∅))) |}.

(** One image on the canvas, nothing selected. *)
Definition oneImage : DocumentState := addNode (imageNode "n1" 0) initialState.

(** The [x] coordinates of the nodes of a snapshot. *)
Definition xs (ns : list DocumentNode) : list jsval :=
  map (fun node => prop (default ∅ (node_data node)) "x") ns.

Definition sampleEdits : list Edit :=
  [EAddNode (imageNode "n2" 40);
   EUpdateNode "n1" (Partial {[ "x" := VNum (Fin 12) ]});
   ESetNodes [imageNode "n3" 7]].

(** The partial update a drag sends: a new [x]. *)
Definition dragTo (x : Q) : Updates := Partial {[ "x" := VNum (Fin x) ]}.

(** The zoom is in range, on a whole number of hundredths. *)
Definition zoomOk (s : DocumentState) : Prop :=
  within 0.5 2.5 (zoom s) /\ two_decimals (zoom s).

Definition notNaNArg (z : ZoomOp) : Prop :=
  match z with
  | ZSetZoom v => v <> NaN
  | _ => True
  end.

(** What a call does to the history when it goes through: one push of the
    prior nodes and an empty [future]. *)
Definition pushed (s s' : DocumentState) : Prop :=
  past s' = past s ++ [nodes s] /\ future s' = [].

End Store.

(** ** Containment in the dieline ([isInsideDieline]) *)

Module Dieline.

Import JsNum.

(** [RectBounds]; the dieline argument is read through the same four
    fields. *)
Record RectBounds : Type :=
  { rect_x : number; rect_y : number; rect_width : number; rect_height : number }.

Definition isInsideDieline (dieline nodeBounds : RectBounds) : bool :=
  if le (rect_width nodeBounds) zero || le (rect_height nodeBounds) zero then true
  else
    let dielineLeft := rect_x dieline in
    let dielineTop := rect_y dieline in
    let dielineRight := add (rect_x dieline) (rect_width dieline) in
    let dielineBottom := add (rect_y dieline) (rect_height dieline) in
    let nodeLeft := rect_x nodeBounds in
    let nodeTop := rect_y nodeBounds in
    let nodeRight := add (rect_x nodeBounds) (rect_width nodeBounds) in
    let nodeBottom := add (rect_y nodeBounds) (rect_height nodeBounds) in
    ge nodeLeft dielineLeft && ge nodeTop dielineTop
    && le nodeRight dielineRight && le nodeBottom dielineBottom.

(** A rectangle with finite coordinates. *)
Definition finiteRect (x y w h : Q) : RectBounds :=
  {| rect_x := Fin x; rect_y := Fin y; rect_width := Fin w; rect_height := Fin h |}.

End Dieline.

(** ** Face textures of the 3D preview ([usePreviewStore]) *)

Module Preview.

Import JsNum.

Record FaceRectangle : Type :=
  { face_x : number; face_y : number; face_width : number; face_height : number }.

Record BoxFaceConfig : Type :=
  { key : string; label : string; rect : FaceRectangle; materialIndex : nat }.

(** [BoxFaceConfig & { dataUrl, version }]; the version is a counter that
    starts at [0] and only ever receives [+ 1]. *)
Record FaceTextureState : Type :=
  { config : BoxFaceConfig; dataUrl : option string; version : nat }.

Definition BOX_FACE_ORDER : list string :=
  ["front"; "right"; "back"; "left"; "top"; "bottom"].

Definition faceConfig (k l : string) (x y w h : Q) (m : nat) : BoxFaceConfig :=
  {| key := k; label := l;
     rect := {| face_x := Fin x; face_y := Fin y;
                face_width := Fin w; face_height := Fin h |};
     materialIndex := m |}.

Definition BOX_FACE_CONFIG : gmap string BoxFaceConfig :=
  list_to_map
    [("front", faceConfig "front" "Front Panel" 220 260 380 140 4);
     ("back", faceConfig "back" "Back Panel" 220 120 380 140 5);
     ("left", faceConfig "left" "Left Side" 100 180 120 160 1);
     ("right", faceConfig "right" "Right Side" 600 180 120 160 0);
     ("top", faceConfig "top" "Top Flap" 220 60 380 60 2);
     ("bottom", faceConfig "bottom" "Bottom Flap" 220 400 380 60 3)].

(** [BOX_FACE_ORDER.reduce(...)]: every face starts empty at version 0. *)
Definition createInitialFaces : gmap string FaceTextureState :=
  foldl
    (fun acc k =>
       match BOX_FACE_CONFIG !! k with
       | Some cfg => <[k := {| config := cfg; dataUrl := None; version := 0 |}]> acc
       | None => acc
       end)
    ∅ BOX_FACE_ORDER.

(** [face.dataUrl === dataUrl] *)
Definition sameDataUrl (a b : option string) : bool := bool_decide (a = b).

(** The body of the [forEach] over the keys of [updates]: [acc] is
    [(nextFaces, hasChanges)], and the face is read from [state.faces].  A
    value that is [null] or [undefined] is [None] ([updates[key] ?? null]).
    A key that names no face reads [undefined] and is skipped; the names
    every object inherits ([constructor], [toString], ...) are not keys of
    an update the program sends, whose keys are face keys, and are read
    here as any other key that names no face. *)
Definition applyFaceUpdate (faces : gmap string FaceTextureState)
    (acc : gmap string FaceTextureState * bool) (entry : string * option string)
  : gmap string FaceTextureState * bool :=
  match faces !! entry.1 with
  | None => acc
  | Some face =>
      if sameDataUrl (dataUrl face) entry.2 then acc
      else
        (<[entry.1 := {| config := config face;
                         dataUrl := entry.2;
                         version := version face + 1 |}]> acc.1,
         true)
  end.

(** The state of the preview store is its [faces] record. *)
Definition setFaceTextures (updates : gmap string (option string))
    (faces : gmap string FaceTextureState) : gmap string FaceTextureState :=
  match map_to_list updates with
  | [] => faces
  | entries =>
      let '(nextFaces, hasChanges) :=
        foldl (applyFaceUpdate faces) (faces, false) entries in
      if hasChanges then nextFaces else faces
  end.

Definition resetFaceTextures (faces : gmap string FaceTextureState)
  : gmap string FaceTextureState :=
  createInitialFaces.

(** The operations of the preview store, as calls. *)
Inductive PreviewOp : Type :=
| SetFaceTextures (updates : gmap string (option string))
| ResetFaceTextures.

Definition applyPreview (op : PreviewOp) (faces : gmap string FaceTextureState)
  : gmap string FaceTextureState :=
  match op with
  | SetFaceTextures updates => setFaceTextures updates faces
  | ResetFaceTextures => resetFaceTextures faces
  end.

(** The version of a face, [0] for a key that is not a face. *)
Definition versionOf (faces : gmap string FaceTextureState) (k : string) : nat :=
  from_option version 0%nat (faces !! k).

Definition dataUrlOf (faces : gmap string FaceTextureState) (k : string)
  : option string :=
  faces !! k ≫= dataUrl.

(** The face [setFaceTextures] writes over [face] for a new payload. *)
Definition bumped (face : FaceTextureState) (payload : option string)
  : FaceTextureState :=
  {| config := config face; dataUrl := payload; version := version face + 1 |}.

(** What the store holds at [k] after an update, read off the two
    records. *)
Definition faceAfter (updates : gmap string (option string))
    (faces : gmap string FaceTextureState) (k : string) : option FaceTextureState :=
  match faces !! k with
  | None => None
  | Some face =>
      match updates !! k with
      | None => Some face
      | Some payload =>
          if sameDataUrl (dataUrl face) payload then Some face
          else Some (bumped face payload)
      end
  end.

(** An update that paints the front face. *)
Definition paintFront : gmap string (option string) := {[ "front" := Some "data:a" ]}.

End Preview.

(** ** Face-texture synchronisation ([updateFaceTextures]) *)

Module TextureSync.

Import JsNum Preview.

Definition TARGET_TEXTURE_RESOLUTION : number := Fin 1024.
Definition MAX_TEXTURE_PIXEL_RATIO : number := Fin 4.

(** The rectangle and pixel ratio handed to [stage.toDataURL]. *)
Record Capture : Type :=
  { cap_x : number; cap_y : number; cap_width : number; cap_height : number;
    cap_pixelRatio : number }.

(** What the callback closes over.  [stageReady] stands for
    [stageRef.current && dieline && isReady]; [toDataURL] answers [None]
    when the renderer throws. *)
Record SyncEnv : Type :=
  { stageReady : bool;
    canvasRotation : number;
    effectiveScale : number;
    layerPositionX : number;
    layerPositionY : number;
    toDataURL : Capture -> option string }.

(** The [for] loop over [BOX_FACE_ORDER] inside [try]: the updates gathered
    and the captures made so far; an exception ends the loop and keeps
    both. *)
Fixpoint captureFaces (env : SyncEnv) (faceKeys : list string)
    (updates : gmap string (option string)) (captures : list Capture)
  : gmap string (option string) * list Capture :=
  match faceKeys with
  | [] => (updates, captures)
  | faceKey :: rest =>
      match BOX_FACE_CONFIG !! faceKey with
      | None => (updates, captures)
      | Some cfg =>
          let stageWidth := mul (face_width (rect cfg)) (effectiveScale env) in
          let stageHeight := mul (face_height (rect cfg)) (effectiveScale env) in
          if le stageWidth zero || le stageHeight zero
          then captureFaces env rest (<[faceKey := None]> updates) captures
          else
            let stageX := add (layerPositionX env) (mul (face_x (rect cfg)) (effectiveScale env)) in
            let stageY := add (layerPositionY env) (mul (face_y (rect cfg)) (effectiveScale env)) in
            let longestSide := max stageWidth stageHeight in
            let pixelRatio :=
              if gt longestSide zero
              then min MAX_TEXTURE_PIXEL_RATIO
                     (max (Fin 1) (div TARGET_TEXTURE_RESOLUTION longestSide))
              else Fin 1 in
            let capture :=
              {| cap_x := stageX; cap_y := stageY;
                 cap_width := stageWidth; cap_height := stageHeight;
                 cap_pixelRatio := pixelRatio |} in
            match toDataURL env capture with
            | None => (updates, captures ++ [capture])
            | Some url =>
                captureFaces env rest (<[faceKey := Some url]> updates)
                  (captures ++ [capture])
            end
      end
  end.

(** One run of the callback: the captures it made and the faces it leaves
    in the preview store.  Hiding the overlay layers and the transformer and
    restoring them in [finally] does not reach the preview store and is left
    out. *)
Definition updateFaceTextures (env : SyncEnv)
    (faces : gmap string FaceTextureState)
  : list Capture * gmap string FaceTextureState :=
  if negb (stageReady env) then ([], faces)
  else if negb (strict_eq (rem (canvasRotation env) (Fin 360)) zero) then ([], faces)
  else
    let '(updates, captures) := captureFaces env BOX_FACE_ORDER ∅ [] in
    match map_to_list updates with
    | [] => (captures, faces)
    | _ => (captures, setFaceTextures updates faces)
    end.

(** The scheduled runs fired one after the other, each in the environment
    its timer finds. *)
Fixpoint syncRuns (envs : list SyncEnv) (faces : gmap string FaceTextureState)
  : list Capture * gmap string FaceTextureState :=
  match envs with
  | [] => ([], faces)
  | env :: rest =>
      let '(captures, faces') := updateFaceTextures env faces in
      let '(later, faces'') := syncRuns rest faces' in
      (captures ++ later, faces'')
  end.

(** The canvas is turned: its rotation is not a whole multiple of 360. *)
Definition turned (env : SyncEnv) : Prop :=
  ~ multiple_of 360 (canvasRotation env).

(** A ready stage at scale 1 whose renderer names each capture by its
    width. *)
Definition sampleEnv (rotation : number) : SyncEnv :=
  {| stageReady := true;
     canvasRotation := rotation;
     effectiveScale := Fin 1;
     layerPositionX := Fin 0;
     layerPositionY := Fin 0;
     toDataURL := fun c =>
       if strict_eq (cap_width c) (Fin 380) then Some "data:wide"
       else Some "data:narrow" |}.

End TextureSync.

(** ** Curved text layout ([computeCurvedTextLayout]) *)

Module CurvedText.

Local Open Scope R_scope.

(** Numbers are real here: the layout is followed on finite values, and
    [Number.POSITIVE_INFINITY], the seed of the bounding-box folds, is the
    [None] of an optional bound. *)

Record CurvedGlyph : Type :=
  { char : ascii;
    glyph_x : R;
    glyph_y : R;
    glyph_rotation : R;
    glyph_width : R;
    glyph_height : R }.

Record CurvedTextLayout : Type :=
  { glyphs : list CurvedGlyph; layout_width : R; layout_height : R }.

(** What [context.measureText(char)] returns, as far as it is read. *)
Record GlyphMetrics : Type :=
  { metrics_width : R;
    actualBoundingBoxAscent : option R;
    actualBoundingBoxDescent : option R }.

Definition FALLBACK_LETTER_WIDTH_RATIO : R := 6 / 10.

Definition getTextHeight (metrics : option GlyphMetrics) (fontSize : R) : R :=
  match metrics with
  | None => fontSize
  | Some m =>
      let ascent := default 0 (actualBoundingBoxAscent m) in
      let descent := default 0 (actualBoundingBoxDescent m) in
      let height := ascent + descent in
      if Req_dec_T height 0 then fontSize else height
  end.

(** [Math.min(bound, v)] and [Math.max(bound, v)] on a bound that may still
    be the infinite seed. *)
Definition minBound (bound : option R) (v : R) : option R :=
  Some (match bound with None => v | Some b => Rmin b v end).

Definition maxBound (bound : option R) (v : R) : option R :=
  Some (match bound with None => v | Some b => Rmax b v end).

(** The shift that centres the bounding box on the origin. *)
Definition recentre (centerX centerY : R) (g : CurvedGlyph) : CurvedGlyph :=
  {| char := char g;
     glyph_x := glyph_x g - centerX;
     glyph_y := glyph_y g - centerY;
     glyph_rotation := glyph_rotation g;
     glyph_width := glyph_width g;
     glyph_height := glyph_height g |}.


Section Layout.

(** The canvas measuring context under the font set from weight, size and
    family; [None] where there is no [document]. *)
Variable context : option (ascii -> GlyphMetrics).
Variables fontSize letterSpacing radius angle : R.

Definition safeRadius : R := Rmax 1 (Rabs radius).

Definition radiusDirection : R := if Rle_dec 0 radius then 1 else -1.

(** The measured width of one character. *)
Definition charWidth (c : ascii) : R :=
  match context with
  | Some measureText => metrics_width (measureText c)
  | None => fontSize * FALLBACK_LETTER_WIDTH_RATIO
  end.

(** The first loop: the advance of every character, spacing included but
    for the last one. *)
Fixpoint measureWidths (index count : nat) (characters : list ascii) : list R :=
  match characters with
  | [] => []
  | c :: rest =>
      (charWidth c + (if (index <? count - 1)%nat then letterSpacing else 0))
        :: measureWidths (S index) count rest
  end.

(** [glyphHeight] as the first loop leaves it: set at every character. *)
Definition glyphHeightAfter (characters : list ascii) : R :=
  fold_left
    (fun _ c =>
       match context with
       | Some measureText => getTextHeight (Some (measureText c)) fontSize
       | None => fontSize
       end)
    characters fontSize.

Section Placing.

Variables pxToAngle startAngle angleRad glyphHeight : R.

(** The second loop, [progressedAngle] being its running state. *)
Fixpoint placeGlyphs (index count : nat) (characters : list ascii)
    (widths : list R) (progressedAngle : R) : list CurvedGlyph :=
  match characters, widths with
  | c :: rest, widthWithSpacing :: widths' =>
      let charAngle := widthWithSpacing * pxToAngle in
      let charCenterAngle := startAngle + progressedAngle + charAngle / 2 in
      let positionAngle := charCenterAngle in
      let r := safeRadius * radiusDirection in
      let charW :=
        widthWithSpacing - (if (index <? count - 1)%nat then letterSpacing else 0) in
      let rot :=
        positionAngle * 180 / PI + (if Rle_dec 0 angleRad then 90 else -90) in
      {| char := c;
         glyph_x := r * cos positionAngle;
         glyph_y := r * sin positionAngle;
         glyph_rotation := rot;
         glyph_width := charW;
         glyph_height := glyphHeight |}
        :: placeGlyphs (S index) count rest widths' (progressedAngle + charAngle)
  | _, _ => []
  end.

End Placing.

Definition totalWidthOf (widths : list R) : R :=
  fold_left (fun acc value => acc + value) widths 0.

Definition angleRadOf (widths : list R) : R :=
  if Req_dec_T angle 0 then totalWidthOf widths / safeRadius
  else angle * PI / 180.

Definition pxToAngleOf (widths : list R) : R :=
  if Req_dec_T (totalWidthOf widths) 0 then 0
  else angleRadOf widths / totalWidthOf widths.

(** [glyphsRaw]: the glyphs on the arc, before they are re-centred. *)
Definition glyphsRaw (characters : list ascii) : list CurvedGlyph :=
  let widths := measureWidths 0 (length characters) characters in
  placeGlyphs (pxToAngleOf widths) (- angleRadOf widths / 2) (angleRadOf widths)
    (glyphHeightAfter characters)
    0 (length characters) characters widths 0.

Definition computeCurvedTextLayout (text : string) : CurvedTextLayout :=
  let characters := String.list_ascii_of_string text in
  match characters with
  | [] =>
      let fallbackSize := Rmax fontSize 1 in
      {| glyphs := []; layout_width := fallbackSize; layout_height := fallbackSize |}
  | _ =>
      let raw := glyphsRaw characters in
      let minX :=
        default 0
          (fold_left (fun m g => minBound m (glyph_x g - glyph_width g / 2)) raw None) in
      let maxX :=
        default 0
          (fold_left (fun m g => maxBound m (glyph_x g + glyph_width g / 2)) raw None) in
      let minY :=
        default 0
          (fold_left (fun m g => minBound m (glyph_y g - glyph_height g / 2)) raw None) in
      let maxY :=
        default 0
          (fold_left (fun m g => maxBound m (glyph_y g + glyph_height g / 2)) raw None) in
      let centerX := (minX + maxX) / 2 in
      let centerY := (minY + maxY) / 2 in
      {| glyphs := map (recentre centerX centerY) raw;
         layout_width := maxX - minX;
         layout_height := maxY - minY |}
  end.

End Layout.




End CurvedText.

(** ** Text metrics ([measureStraightText], [withUpdatedTextMetrics]) *)

Module TextMetrics.

Import JsNum.

Inductive TextFontWeight : Type := W400 | W600 | W700.

Record TextNodeData : Type :=
  { text : string;
    x : number;
    y : number;
    rotation : number;
    fontFamily : string;
    fontSize : number;
    fontWeight : TextFontWeight;
    fill : string;
    letterSpacing : number;
    isCurved : bool;
    radius : number;
    angle : number;
    width : number;
    height : number;
    opacity : option number;
    lockAspectRatio : option bool }.

(** [Partial<TextNodeData>]: [None] for a field the update leaves out. *)
Record TextNodeUpdates : Type :=
  { upd_text : option string;
    upd_x : option number;
    upd_y : option number;
    upd_rotation : option number;
    upd_fontFamily : option string;
    upd_fontSize : option number;
    upd_fontWeight : option TextFontWeight;
    upd_fill : option string;
    upd_letterSpacing : option number;
    upd_isCurved : option bool;
    upd_radius : option number;
    upd_angle : option number;
    upd_width : option number;
    upd_height : option number;
    upd_opacity : option (option number);
    upd_lockAspectRatio : option (option bool) }.

(** [{ ...data, ...updates }] *)
Definition merge (data : TextNodeData) (updates : TextNodeUpdates) : TextNodeData :=
  {| text := default (text data) (upd_text updates);
     x := default (x data) (upd_x updates);
     y := default (y data) (upd_y updates);
     rotation := default (rotation data) (upd_rotation updates);
     fontFamily := default (fontFamily data) (upd_fontFamily updates);
     fontSize := default (fontSize data) (upd_fontSize updates);
     fontWeight := default (fontWeight data) (upd_fontWeight updates);
     fill := default (fill data) (upd_fill updates);
     letterSpacing := default (letterSpacing data) (upd_letterSpacing updates);
     isCurved := default (isCurved data) (upd_isCurved updates);
     radius := default (radius data) (upd_radius updates);
     angle := default (angle data) (upd_angle updates);
     width := default (width data) (upd_width updates);
     height := default (height data) (upd_height updates);
     opacity := default (opacity data) (upd_opacity updates);
     lockAspectRatio := default (lockAspectRatio data) (upd_lockAspectRatio updates) |}.

(** Assignments to the fields of [next]. *)
Definition set_fontSize (v : number) (d : TextNodeData) : TextNodeData :=
  {| text := text d;
     x := x d;
     y := y d;
     rotation := rotation d;
     fontFamily := fontFamily d;
     fontSize := v;
     fontWeight := fontWeight d;
     fill := fill d;
     letterSpacing := letterSpacing d;
     isCurved := isCurved d;
     radius := radius d;
     angle := angle d;
     width := width d;
     height := height d;
     opacity := opacity d;
     lockAspectRatio := lockAspectRatio d |}.

Definition set_letterSpacing (v : number) (d : TextNodeData) : TextNodeData :=
  {| text := text d;
     x := x d;
     y := y d;
     rotation := rotation d;
     fontFamily := fontFamily d;
     fontSize := fontSize d;
     fontWeight := fontWeight d;
     fill := fill d;
     letterSpacing := v;
     isCurved := isCurved d;
     radius := radius d;
     angle := angle d;
     width := width d;
     height := height d;
     opacity := opacity d;
     lockAspectRatio := lockAspectRatio d |}.

Definition set_radius (v : number) (d : TextNodeData) : TextNodeData :=
  {| text := text d;
     x := x d;
     y := y d;
     rotation := rotation d;
     fontFamily := fontFamily d;
     fontSize := fontSize d;
     fontWeight := fontWeight d;
     fill := fill d;
     letterSpacing := letterSpacing d;
     isCurved := isCurved d;
     radius := v;
     angle := angle d;
     width := width d;
     height := height d;
     opacity := opacity d;
     lockAspectRatio := lockAspectRatio d |}.

Definition set_angle (v : number) (d : TextNodeData) : TextNodeData :=
  {| text := text d;
     x := x d;
     y := y d;
     rotation := rotation d;
     fontFamily := fontFamily d;
     fontSize := fontSize d;
     fontWeight := fontWeight d;
     fill := fill d;
     letterSpacing := letterSpacing d;
     isCurved := isCurved d;
     radius := radius d;
     angle := v;
     width := width d;
     height := height d;
     opacity := opacity d;
     lockAspectRatio := lockAspectRatio d |}.

Definition set_width (v : number) (d : TextNodeData) : TextNodeData :=
  {| text := text d;
     x := x d;
     y := y d;
     rotation := rotation d;
     fontFamily := fontFamily d;
     fontSize := fontSize d;
     fontWeight := fontWeight d;
     fill := fill d;
     letterSpacing := letterSpacing d;
     isCurved := isCurved d;
     radius := radius d;
     angle := angle d;
     width := v;
     height := height d;
     opacity := opacity d;
     lockAspectRatio := lockAspectRatio d |}.

Definition set_height (v : number) (d : TextNodeData) : TextNodeData :=
  {| text := text d;
     x := x d;
     y := y d;
     rotation := rotation d;
     fontFamily := fontFamily d;
     fontSize := fontSize d;
     fontWeight := fontWeight d;
     fill := fill d;
     letterSpacing := letterSpacing d;
     isCurved := isCurved d;
     radius := radius d;
     angle := angle d;
     width := width d;
     height := v;
     opacity := opacity d;
     lockAspectRatio := lockAspectRatio d |}.

(** An update that changes nothing. *)
Definition noUpdates : TextNodeUpdates :=
  {| upd_text := None;
     upd_x := None;
     upd_y := None;
     upd_rotation := None;
     upd_fontFamily := None;
     upd_fontSize := None;
     upd_fontWeight := None;
     upd_fill := None;
     upd_letterSpacing := None;
     upd_isCurved := None;
     upd_radius := None;
     upd_angle := None;
     upd_width := None;
     upd_height := None;
     upd_opacity := None;
     upd_lockAspectRatio := None |}.

(** What [context.measureText] returns, as far as it is read. *)
Record TextMetricsJs : Type :=
  { metrics_width : number;
    actualBoundingBoxAscent : option number;
    actualBoundingBoxDescent : option number }.

Record StraightTextMetrics : Type :=
  { straight_width : number; straight_height : number }.

Definition FALLBACK_LETTER_WIDTH_RATIO : number := Fin 0.6.

(** [text.length] *)
Definition textLength (t : string) : number :=
  Fin (inject_Z (Z.of_nat (String.length t))).

Definition getTextHeight (metrics : option TextMetricsJs) (size : number) : number :=
  match metrics with
  | None => size
  | Some m =>
      let ascent := default zero (actualBoundingBoxAscent m) in
      let descent := default zero (actualBoundingBoxDescent m) in
      or_else (add ascent descent) size
  end.

Section Measuring.

(** The canvas measuring context: [None] where there is no [document];
    otherwise [measureText] under the font built from weight, size and
    family. *)
Variable measureContext :
  option (TextFontWeight -> number -> string -> string -> TextMetricsJs).

(** [computeCurvedTextLayout], of which only the two extents are read here.
    Placing glyphs on the arc takes sines and cosines: its embedding is
    [CurvedText.computeCurvedTextLayout], over the reals. *)
Variable curvedExtents :
  string -> string -> number -> TextFontWeight -> number -> number -> number ->
  number * number.

Definition measureStraightText (t family : string) (size : number)
    (weight : TextFontWeight) (spacingPerGap : number) : StraightTextMetrics :=
  match measureContext with
  | None =>
      let baseWidth :=
        mul (mul (max (textLength t) (Fin 1)) size) FALLBACK_LETTER_WIDTH_RATIO in
      let spacing := mul (max (sub (textLength t) (Fin 1)) zero) spacingPerGap in
      {| straight_width := add baseWidth spacing; straight_height := size |}
  | Some measureText =>
      let metrics :=
        measureText weight size family
          (if truthy (textLength t) then t else " ") in
      let baseWidth := metrics_width metrics in
      let spacing := mul (max (sub (textLength t) (Fin 1)) zero) spacingPerGap in
      {| straight_width := add baseWidth spacing;
         straight_height := getTextHeight (Some metrics) size |}
  end.

Definition withUpdatedTextMetrics (data : TextNodeData) (updates : TextNodeUpdates)
  : TextNodeData :=
  let next := merge data updates in
  let next :=
    if negb (isFinite (fontSize next)) || le (fontSize next) zero
    then set_fontSize (max (Fin 12) (fontSize data)) next else next in
  let next :=
    if negb (isFinite (letterSpacing next))
    then set_letterSpacing (letterSpacing data) next else next in
  let next :=
    if negb (isFinite (radius next)) || strict_eq (radius next) zero
    then set_radius (or_else (radius data) (Fin 150)) next else next in
  let next :=
    if negb (isFinite (angle next))
    then set_angle (angle data) next else next in
  if isCurved next then
    let layout :=
      curvedExtents (text next) (fontFamily next) (fontSize next)
        (fontWeight next) (letterSpacing next) (radius next) (angle next) in
    let next := set_width (or_else layout.1 (max (fontSize next) (Fin 1))) next in
    set_height (or_else layout.2 (max (fontSize next) (Fin 1))) next
  else
    let metrics :=
      measureStraightText (text next) (fontFamily next) (fontSize next)
        (fontWeight next) (letterSpacing next) in
    let next :=
      set_width (or_else (straight_width metrics) (max (fontSize next) (Fin 1))) next in
    set_height (or_else (straight_height metrics) (max (fontSize next) (Fin 1))) next.

End Measuring.

(** The numeric fields a layout depends on are sound: all finite, the font
    size positive, the radius not zero. *)
Definition soundMetrics (d : TextNodeData) : Prop :=
  isFinite (fontSize d) = true /\ lt zero (fontSize d) = true /\
  isFinite (letterSpacing d) = true /\
  isFinite (angle d) = true /\
  isFinite (radius d) = true /\ strict_eq (radius d) zero = false.

(** The radius an update asks for cannot be used. *)
Definition badRadius (r : number) : bool :=
  negb (isFinite r) || strict_eq r zero.

Definition sampleText : TextNodeData :=
  {| text := "Hello"; x := Fin 10; y := Fin 20; rotation := Fin 0;
     fontFamily := "Inter"; fontSize := Fin 24; fontWeight := W400;
     fill := "#000000"; letterSpacing := Fin 0; isCurved := true;
     radius := Fin 150; angle := Fin 180; width := Fin 72; height := Fin 24;
     opacity := None; lockAspectRatio := None |}.

(** An update whose four layout numbers are all unusable. *)
Definition brokenUpdate : TextNodeUpdates :=
  {| upd_text := None; upd_x := None; upd_y := None; upd_rotation := None;
     upd_fontFamily := None; upd_fontSize := Some NaN; upd_fontWeight := None;
     upd_fill := None; upd_letterSpacing := Some PInf; upd_isCurved := None;
     upd_radius := Some (Fin 0); upd_angle := Some NInf;
     upd_width := None; upd_height := None;
     upd_opacity := None; upd_lockAspectRatio := None |}.

End TextMetrics.

(** ** Fitting the dieline in the viewport ([getDielineScale]) and the zoom
    buttons of the top bar *)

Module Viewport.

Import JsNum.

Record DielineFit : Type :=
  { fit_scale : number; fit_offsetX : number; fit_offsetY : number }.

(** [getDielineScale(containerWidth, containerHeight, dieline, padding)];
    of the dieline only [width] and [height] are read.  The default of
    [padding] is [DEFAULT_PADDING].  Quotients and products are the exact
    ones; those of the code are rounded to doubles, so that what is stated
    of this function is the sign of the scale and its fallback, not the
    last place of the offsets. *)
Definition DEFAULT_PADDING : number := Fin 48.

Definition getDielineScale (containerWidth containerHeight : number)
    (dielineWidth dielineHeight : number) (padding : number) : DielineFit :=
  let usableWidth := max (sub containerWidth (mul padding (Fin 2))) zero in
  let usableHeight := max (sub containerHeight (mul padding (Fin 2))) zero in
  let scale := min (div usableWidth dielineWidth) (div usableHeight dielineHeight) in
  let finalScale := if isFinite scale && gt scale zero then scale else Fin 1 in
  let offsetX :=
    add padding (div (sub usableWidth (mul dielineWidth finalScale)) (Fin 2)) in
  let offsetY :=
    add padding (div (sub usableHeight (mul dielineHeight finalScale)) (Fin 2)) in
  {| fit_scale := finalScale; fit_offsetX := offsetX; fit_offsetY := offsetY |}.

(** [canZoomIn] and [canZoomOut] of the top bar, which disable the two
    zoom buttons. *)
Definition canZoomIn (zoom : number) : bool :=
  lt zoom (sub Store.MAX_ZOOM (Fin (1 # 1000000))).

Definition canZoomOut (zoom : number) : bool :=
  gt zoom (add Store.MIN_ZOOM (Fin (1 # 1000000))).

End Viewport.

(** ** Helpers of the canvas stage: grid, opacity, rotation, resize boxes *)

Module Canvas.

Import JsNum.

Definition MIN_TRANSFORM_SIZE : number := Fin 5.
Definition ROTATION_SNAP_STEP : number := Fin 15.
Definition GRID_SIZE : number := Fin 24.

(** [Math.abs] *)
Definition abs (a : number) : number :=
  match a with
  | NaN => NaN
  | PInf | NInf => PInf
  | Fin x => Fin (Qabs x)
  end.

Definition snapToGrid (value gridSize : number) : number :=
  mul (round (div value gridSize)) gridSize.

Definition clampOpacity (value : number) : number :=
  if negb (isFinite value) then Fin 1
  else if lt value zero then zero
  else if gt value (Fin 1) then Fin 1
  else value.

(** The same function stands in the canvas stage and in the properties
    panel.  The sum [normalized + 360] is the exact one here; in the code
    it is a sum of doubles, which differs from it in the last place for a
    negative angle that is not a whole number of degrees (an angle just
    below zero gives 360 there).  [exactAngle] below names the angles on
    which the two agree. *)
Definition normalizeRotation (value : number) : number :=
  if negb (isFinite value) then zero
  else
    let normalized := rem value (Fin 360) in
    if lt normalized zero then add normalized (Fin 360) else normalized.

Definition snapRotation (value step : number) : number :=
  if negb (isFinite value) || le step zero then value
  else mul (round (div value step)) step.

(** [clamp(value, min, max)] of the properties panel. *)
Definition clamp (value lo hi : number) : number :=
  if negb (isFinite value) then lo else min hi (max lo value).



Record BoundingBox : Type :=
  { box_x : number; box_y : number; box_width : number; box_height : number;
    box_rotation : number }.

(** [haystack.includes(needle)] *)
Fixpoint str_includes (needle haystack : string) : bool :=
  if String.prefix needle haystack then true
  else
    match haystack with
    | EmptyString => false
    | String _ rest => str_includes needle rest
    end.

Definition CORNER_ANCHORS : list string :=
  ["top-left"; "top-right"; "bottom-right"; "bottom-left"].

Definition ALL_TRANSFORMER_ANCHORS : list string :=
  ["top-left"; "top-center"; "top-right"; "middle-right";
   "bottom-right"; "bottom-center"; "bottom-left"; "middle-left"].

(** [CORNER_ANCHORS.has(anchor)] *)
Definition isCorner (anchor : string) : bool :=
  existsb (String.eqb anchor) CORNER_ANCHORS.

Definition applyMinSizeConstraint (activeAnchor : string)
    (oldBox newBox : BoundingBox) (fallbackRotation : number) : BoundingBox :=
  let rotation :=
    if isFinite (box_rotation newBox) then box_rotation newBox
    else if isFinite (box_rotation oldBox) then box_rotation oldBox
    else fallbackRotation in
  let '(width, x) :=
    if lt (box_width newBox) MIN_TRANSFORM_SIZE then
      let width := MIN_TRANSFORM_SIZE in
      let oppositeX :=
        if str_includes "left" activeAnchor
        then add (box_x oldBox) (box_width oldBox) else box_x oldBox in
      (width,
       if str_includes "left" activeAnchor then sub oppositeX width else oppositeX)
    else (box_width newBox, box_x newBox) in
  let '(height, y) :=
    if lt (box_height newBox) MIN_TRANSFORM_SIZE then
      let height := MIN_TRANSFORM_SIZE in
      let oppositeY :=
        if str_includes "top" activeAnchor
        then add (box_y oldBox) (box_height oldBox) else box_y oldBox in
      (height,
       if str_includes "top" activeAnchor then sub oppositeY height else oppositeY)
    else (box_height newBox, box_y newBox) in
  {| box_x := x; box_y := y; box_width := width; box_height := height;
     box_rotation := rotation |}.

(** [constrainBoundingBox(transformerRef, oldBox, newBox)]; [activeAnchor]
    is [None] when there is no transformer or no active anchor. *)
Definition constrainBoundingBox (activeAnchor : option string)
    (oldBox newBox : BoundingBox) : BoundingBox :=
  match activeAnchor with
  | None => newBox
  | Some anchor =>
      if String.eqb anchor "" then newBox
      else
        let resolvedRotation :=
          if isFinite (box_rotation newBox) then box_rotation newBox
          else if isFinite (box_rotation oldBox) then box_rotation oldBox
          else zero in
        if isCorner anchor then
          let oppositeX :=
            if str_includes "left" anchor
            then add (box_x oldBox) (box_width oldBox) else box_x oldBox in
          let oppositeY :=
            if str_includes "top" anchor
            then add (box_y oldBox) (box_height oldBox) else box_y oldBox in
          let widthScale :=
            if strict_eq (box_width oldBox) zero then Fin 1
            else abs (div (box_width newBox) (box_width oldBox)) in
          let heightScale :=
            if strict_eq (box_height oldBox) zero then Fin 1
            else abs (div (box_height newBox) (box_height oldBox)) in
          let scale := max widthScale heightScale in
          let width := max MIN_TRANSFORM_SIZE (mul (box_width oldBox) scale) in
          let height := max MIN_TRANSFORM_SIZE (mul (box_height oldBox) scale) in
          {| box_x := if str_includes "left" anchor then sub oppositeX width else oppositeX;
             box_y := if str_includes "top" anchor then sub oppositeY height else oppositeY;
             box_width := width;
             box_height := height;
             box_rotation := resolvedRotation |}
        else applyMinSizeConstraint anchor oldBox newBox resolvedRotation
  end.

(** A box with finite sides. *)
Definition finiteBox (x y w h r : Q) : BoundingBox :=
  {| box_x := Fin x; box_y := Fin y; box_width := Fin w; box_height := Fin h;
     box_rotation := Fin r |}.

(** The angles on which [normalizeRotation] computes in the code what it
    computes here: the special values, the angles that are not negative
    (the remainder of two doubles is a double, and nothing is added) and
    the whole numbers of degrees (the remainder and the sum are whole). *)
Definition exactAngle (value : number) : Prop :=
  match value with
  | Fin x => (0 <= x)%Q \/ exists n : Z, (x == inject_Z n)%Q
  | _ => True
  end.

End Canvas.

(** ** Reading the document store: timeline, node identities *)

Module StoreViews.

Import JsNum Store.

(** The snapshots of a document in time order: the undo stack, the current
    nodes, the redo stack. *)
Definition timeline (s : DocumentState) : list (list DocumentNode) :=
  past s ++ [nodes s] ++ future s.

(** Calls of the two history actions. *)
Inductive HistoryOp : Type := HUndo | HRedo.

Definition applyHistory (op : HistoryOp) (s : DocumentState) : DocumentState :=
  match op with
  | HUndo => undo s
  | HRedo => redo s
  end.

(** The identity of a node: what no edit of its data may change. *)
Definition identity (node : DocumentNode) : string * string :=
  (node_id node, node_type node).

(** [node.data.rotation] as a number, when there is one. *)
Definition rotationOf (node : DocumentNode) : option number :=
  match node_data node with
  | Some d =>
      match d !! "rotation" with
      | Some (VNum n) => Some n
      | _ => None
      end
  | None => None
  end.

(** A data record holds no [NaN]. *)
Definition noNaN (d : gmap string jsval) : Prop :=
  forall key, d !! key <> Some (VNum NaN).

(** A text node turned by 350 degrees. *)
Definition turnedText : DocumentNode :=
  {| node_id := "t1";
     node_type := "text";
     node_data :=
       Some (<["text" := VStr "Hi"]> (<["rotation" := VNum (Fin 350)]> ∅)) |}.

(** Three images, the first one selected. *)
Definition threeImages : DocumentState :=
  setSelection ["a"]
    (addNode (imageNode "c" 2)
       (addNode (imageNode "b" 1) (addNode (imageNode "a" 0) initialState))).

(** Whether a data record holds a [NaN], as a test. *)
Definition holdsNaN (d : gmap string jsval) : bool :=
  existsb
    (fun entry => match entry.2 with VNum NaN => true | _ => false end)
    (map_to_list d).

(** No data record of the document holds a [NaN]. *)
Definition cleanNodes (s : DocumentState) : bool :=
  forallb
    (fun node => negb (from_option holdsNaN false (node_data node)))
    (nodes s).

(** The three images with two of them selected, ["b"] last. *)
Definition twoSelected : DocumentState := setSelection ["a"; "b"] threeImages.

(** The partial update a rotation gesture sends. *)
Definition turnTo (r : Q) : Updates := Partial {[ "rotation" := VNum (Fin r) ]}.

End StoreViews.

(** ** Reading one synchronisation run *)

Module SyncViews.

Import JsNum Preview TextureSync.

(** The capture the loop of [updateFaceTextures] asks of the renderer for a
    face. *)
Definition captureOf (env : SyncEnv) (cfg : BoxFaceConfig) : Capture :=
  let stageWidth := mul (face_width (rect cfg)) (effectiveScale env) in
  let stageHeight := mul (face_height (rect cfg)) (effectiveScale env) in
  let longestSide := max stageWidth stageHeight in
  {| cap_x := add (layerPositionX env) (mul (face_x (rect cfg)) (effectiveScale env));
     cap_y := add (layerPositionY env) (mul (face_y (rect cfg)) (effectiveScale env));
     cap_width := stageWidth;
     cap_height := stageHeight;
     cap_pixelRatio :=
       if gt longestSide zero
       then min MAX_TEXTURE_PIXEL_RATIO
              (max (Fin 1) (div TARGET_TEXTURE_RESOLUTION longestSide))
       else Fin 1 |}.

(** The face has no room on the stage: its raster is the empty one. *)
Definition flat (env : SyncEnv) (cfg : BoxFaceConfig) : bool :=
  le (mul (face_width (rect cfg)) (effectiveScale env)) zero
  || le (mul (face_height (rect cfg)) (effectiveScale env)) zero.

(** What the renderer answers for a face: [None] when it throws. *)
Definition rasterOf (env : SyncEnv) (faceKey : string) : option (option string) :=
  match BOX_FACE_CONFIG !! faceKey with
  | None => None
  | Some cfg =>
      if flat env cfg then Some None
      else Some <$> toDataURL env (captureOf env cfg)
  end.

(** The updates gathered from the faces captured before the loop ends. *)
Definition gather (env : SyncEnv) (updates : gmap string (option string))
    (done : list string) : gmap string (option string) :=
  foldl
    (fun u k =>
       match rasterOf env k with
       | Some v => <[k := v]> u
       | None => u
       end)
    updates done.

(** A ready, unturned stage whose renderer throws at the faces listed. *)
Definition failingEnv (failing : list string) : SyncEnv :=
  {| stageReady := true;
     canvasRotation := Fin 0;
     effectiveScale := Fin 1;
     layerPositionX := Fin 0;
     layerPositionY := Fin 0;
     toDataURL := fun c =>
       if existsb
            (fun k =>
               match BOX_FACE_CONFIG !! k with
               | Some cfg =>
                   strict_eq (cap_x c) (face_x (rect cfg))
                   && strict_eq (cap_y c) (face_y (rect cfg))
               | None => false
               end)
            failing
       then None else Some "data:face" |}.

(** A ready, unturned stage whose scale is [NaN]. *)
Definition nanScaleEnv : SyncEnv :=
  {| stageReady := true;
     canvasRotation := Fin 0;
     effectiveScale := NaN;
     layerPositionX := Fin 0;
     layerPositionY := Fin 0;
     toDataURL := fun _ => Some "data:face" |}.

(** The property names every plain object inherits from
    [Object.prototype]: [state.faces[key]] finds a value under them though
    no face has such a key. *)
Definition inheritedKeys : list string :=
  ["constructor"; "hasOwnProperty"; "isPrototypeOf"; "propertyIsEnumerable";
   "toLocaleString"; "toString"; "valueOf"; "__proto__";
   "__defineGetter__"; "__defineSetter__"; "__lookupGetter__";
   "__lookupSetter__"].

(** No key of the update is an inherited name: on such an update the lookup
    in the record of faces is the lookup in a map. *)
Definition ownKeysOnly (updates : gmap string (option string)) : bool :=
  forallb
    (fun entry => negb (bool_decide (entry.1 ∈ inheritedKeys)))
    (map_to_list updates).

(** An update that paints the front face and names a face that is none. *)
Definition paintFrontAndLid : gmap string (option string) :=
  {[ "front" := Some "data:a"; "lid" := Some "data:b" ]}.

End SyncViews.

(** ** Curved text: the box of a glyph *)

Module CurvedBox.

Import CurvedText.

Local Open Scope R_scope.

(** The box of a glyph: its centre, half its width and height each way. *)
Definition glyphInBox (halfWidth halfHeight : R) (g : CurvedGlyph) : Prop :=
  - halfWidth <= glyph_x g - glyph_width g / 2 /\
  glyph_x g + glyph_width g / 2 <= halfWidth /\
  - halfHeight <= glyph_y g - glyph_height g / 2 /\
  glyph_y g + glyph_height g / 2 <= halfHeight.

End CurvedBox.

(** ** Placing the selection toolbar ([calculateToolbarPosition]) *)

Module Toolbar.

Import JsNum.

Record Bounds : Type :=
  { bounds_left : number; bounds_top : number;
    bounds_width : number; bounds_height : number }.

Record ToolbarPosition : Type :=
  { position_left : number; position_top : number }.

(** [element.getBoundingClientRect()], as far as it is read. *)
Record ElementRect : Type := { rect_width : number; rect_height : number }.


Definition MARGIN : number := Fin 12.


Definition getFallbackPosition (bounds : Bounds) : ToolbarPosition :=
  {| position_left := add (bounds_left bounds) (div (bounds_width bounds) (Fin 2));
     position_top := sub (bounds_top bounds) MARGIN |}.

Definition positionsEqual (a b : ToolbarPosition) : bool :=
  strict_eq (position_left a) (position_left b)
  && strict_eq (position_top a) (position_top b).


Definition finiteRect (w h : Q) : ElementRect :=
  {| rect_width := Fin w; rect_height := Fin h |}.


End Toolbar.

(** ** The 3D panel and the face textures it shows ([RightPanel3DClient]) *)

Module Panel3D.

Import Preview.

(** A material of the box, as far as the texture effect writes it.  A
    texture is named by the URL it was loaded from. *)
Record Material : Type :=
  { material_map : option string; material_color : string }.

(** A [loader.load] call that has not answered yet, with what its callbacks
    close over. *)
Record Load : Type :=
  { load_faceKey : string;
    load_materialIndex : nat;
    load_url : string;
    loadVersion : nat }.

(** [sceneRef.current] (the materials of its resources, [None] while there
    is no scene), [faceVersionsRef.current] and the loads under way. *)
Record Panel : Type :=
  { scene : option (list Material);
    faceVersions : gmap string Z;
    pending : list Load }.

Definition initialVersions : gmap string Z :=
  foldl (fun acc key => <[key := (-1)%Z]> acc) ∅ BOX_FACE_ORDER.

Definition newMaterial : Material :=
  {| material_map := None; material_color := "#e2e8f0" |}.

(** The panel once the scene is built, before the texture effect ran. *)
Definition mounted : Panel :=
  {| scene := Some (replicate 6 newMaterial);
     faceVersions := initialVersions;
     pending := [] |}.

(** [BOX_FACE_CONFIG[faceKey].materialIndex]; every key of [BOX_FACE_ORDER]
    has a config. *)
Definition materialIndexOf (faceKey : string) : nat :=
  from_option materialIndex 0%nat (BOX_FACE_CONFIG !! faceKey).

(** A [dataUrl] that passes [if (!face.dataUrl)]: neither [null] nor the
    empty string. *)
Definition truthyUrl (url : option string) : option string :=
  match url with
  | Some EmptyString | None => None
  | Some u => Some u
  end.

(** The body of [BOX_FACE_ORDER.forEach] in the texture effect. *)
Definition effectFace (faces : gmap string FaceTextureState) (panel : Panel)
    (faceKey : string) : Panel :=
  match scene panel, faces !! faceKey with
  | Some materials, Some face =>
      if bool_decide (faceVersions panel !! faceKey = Some (Z.of_nat (version face)))
      then panel
      else
        let versions := <[faceKey := Z.of_nat (version face)]> (faceVersions panel) in
        let index := materialIndexOf faceKey in
        match materials !! index with
        | None =>
            {| scene := scene panel; faceVersions := versions;
               pending := pending panel |}
        | Some material =>
            match truthyUrl (dataUrl face) with
            | None =>
                {| scene :=
                     Some (<[index := {| material_map := None;
                                         material_color := "#e2e8f0" |}]> materials);
                   faceVersions := versions;
                   pending := pending panel |}
            | Some url =>
                {| scene := scene panel;
                   faceVersions := versions;
                   pending :=
                     pending panel
                     ++ [{| load_faceKey := faceKey;
                            load_materialIndex := index;
                            load_url := url;
                            loadVersion := version face |}] |}
            end
        end
  | _, _ => panel
  end.

(** The texture effect, run with the [faces] of the preview store. *)
Definition effect (faces : gmap string FaceTextureState) (panel : Panel) : Panel :=
  match scene panel with
  | None => panel
  | Some _ => foldl (effectFace faces) panel BOX_FACE_ORDER
  end.

(** The [onLoad] callback of the [i]-th load under way. *)
Definition onLoad (i : nat) (panel : Panel) : Panel :=
  match pending panel !! i with
  | None => panel
  | Some load =>
      if bool_decide
           (faceVersions panel !! load_faceKey load
            = Some (Z.of_nat (loadVersion load)))
      then
        {| scene :=
             (fun materials =>
                <[load_materialIndex load :=
                    {| material_map := Some (load_url load);
                       material_color := "#ffffff" |}]> materials)
               <$> scene panel;
           faceVersions := faceVersions panel;
           pending := delete i (pending panel) |}
      else
        {| scene := scene panel;
           faceVersions := faceVersions panel;
           pending := delete i (pending panel) |}
  end.

(** The [onError] callback of the [i]-th load under way: a log line. *)
Definition onError (i : nat) (panel : Panel) : Panel :=
  {| scene := scene panel;
     faceVersions := faceVersions panel;
     pending := delete i (pending panel) |}.

(** The preview store and the panel that reads it. *)
Record System : Type :=
  { faces : gmap string FaceTextureState; panel : Panel }.

Inductive Event : Type :=
| StoreSet (updates : gmap string (option string))
| StoreReset
| EffectRan
| Loaded (i : nat)
| LoadFailed (i : nat).

Definition step (s : System) (e : Event) : System :=
  match e with
  | StoreSet updates =>
      {| faces := setFaceTextures updates (faces s); panel := panel s |}
  | StoreReset => {| faces := resetFaceTextures (faces s); panel := panel s |}
  | EffectRan => {| faces := faces s; panel := effect (faces s) (panel s) |}
  | Loaded i => {| faces := faces s; panel := onLoad i (panel s) |}
  | LoadFailed i => {| faces := faces s; panel := onError i (panel s) |}
  end.

Definition start : System := {| faces := createInitialFaces; panel := mounted |}.

Definition run (events : list Event) : System := foldl step start events.

(** No store reset and no failed load among the events. *)
Definition steady (events : list Event) : bool :=
  forallb
    (fun e => match e with StoreReset | LoadFailed _ => false | _ => true end)
    events.

(** The material a face of the store should be shown with. *)
Definition expectedMaterial (url : option string) : Material :=
  match truthyUrl url with
  | None => {| material_map := None; material_color := "#e2e8f0" |}
  | Some u => {| material_map := Some u; material_color := "#ffffff" |}
  end.

(** The material of a face in the scene. *)
Definition materialOf (panel : Panel) (faceKey : string) : option Material :=
  scene panel ≫= (fun materials => materials !! materialIndexOf faceKey).

(** No load of [faceKey] is under way. *)
Definition settled (panel : Panel) (faceKey : string) : Prop :=
  forall load, load ∈ pending panel -> load_faceKey load <> faceKey.

(** What holds of the store and the panel between two steady events. *)
Definition consistent (s : System) : Prop :=
  (exists materials,
     scene (panel s) = Some materials /\ length materials = 6%nat) /\
  (forall load, load ∈ pending (panel s) -> load_faceKey load ∈ BOX_FACE_ORDER) /\
  forall k, k ∈ BOX_FACE_ORDER ->
    exists face r,
      faces s !! k = Some face /\
      faceVersions (panel s) !! k = Some r /\
      (r <= Z.of_nat (version face))%Z /\
      (forall load, load ∈ pending (panel s) -> load_faceKey load = k ->
         load_materialIndex load = materialIndexOf k /\
         (Z.of_nat (loadVersion load) <= r)%Z /\
         (loadVersion load = version face ->
          truthyUrl (dataUrl face) = Some (load_url load))) /\
      (r = Z.of_nat (version face) ->
       materialOf (panel s) k = Some (expectedMaterial (dataUrl face)) \/
       exists load,
         load ∈ pending (panel s) /\ load_faceKey load = k /\
         loadVersion load = version face).

(** A front texture requested twice around a reset of the store, the two
    loads answering in the opposite order. *)
Definition aroundReset : list Event :=
  [EffectRan;
   StoreSet {[ "front" := Some "data:a" ]}; EffectRan;
   StoreReset; EffectRan;
   StoreSet {[ "front" := Some "data:b" ]}; EffectRan;
   Loaded 1; Loaded 0].

(** Two textures of the front face, the first answering after the second
    was requested. *)
Definition lateAnswer : list Event :=
  [EffectRan;
   StoreSet {[ "front" := Some "data:a" ]}; EffectRan;
   StoreSet {[ "front" := Some "data:b" ]}; EffectRan;
   Loaded 1; Loaded 0].

End Panel3D.

(** * Properties *)

(** ** Facts about numbers *)

Module JsNumFacts.

Import JsNum.

Local Open Scope Q_scope.

Lemma strict_eq_NaN_l b : strict_eq NaN b = false.
Proof. reflexivity. Qed.

Lemma strict_eq_NaN_r a : strict_eq a NaN = false.
Proof. destruct a; reflexivity. Qed.

Lemma strict_eq_sym a b : strict_eq a b = strict_eq b a.
Proof.
  destruct a as [| | |x], b as [| | |y]; simpl; try reflexivity.
  destruct (Qeq_bool x y) eqn:E, (Qeq_bool y x) eqn:E'; try reflexivity.
  - apply Qeq_bool_iff in E. symmetry in E. apply Qeq_bool_iff in E. congruence.
  - apply Qeq_bool_iff in E'. symmetry in E'. apply Qeq_bool_iff in E'. congruence.
Qed.

Lemma strict_eq_refl_finite a : a <> NaN -> strict_eq a a = true.
Proof.
  destruct a; simpl; try congruence. intros _. apply Qeq_bool_iff. reflexivity.
Qed.

Lemma min_not_NaN a b : a <> NaN -> b <> NaN -> min a b = a \/ min a b = b.
Proof.
  intros Ha Hb. destruct a, b; try congruence; simpl;
    try (left; reflexivity); try (right; reflexivity).
  destruct (Qle_bool q q0); auto.
Qed.

(** A remainder that is [0] exhibits the dividend as a multiple. *)
Lemma rem_zero_multiple (m : Q) (n : number) :
  strict_eq (rem n (Fin m)) zero = true -> multiple_of m n.
Proof.
  destruct n as [| | |x]; simpl; try discriminate.
  destruct (Qeq_bool m 0) eqn:Em; simpl; try discriminate.
  intros H. apply Qeq_bool_iff in H.
  exists (Qtrunc (x / m)).
  rewrite <- (Qplus_0_r (m * _)), <- H. ring.
Qed.

Lemma multiple_rem_zero (m : Q) (n : number) :
  ~ (m == 0)%Q -> multiple_of m n -> strict_eq (rem n (Fin m)) zero = true.
Proof.
  intros Hm. destruct n as [| | |x]; simpl; try tauto.
  intros [k Hk].
  destruct (Qeq_bool m 0) eqn:Em.
  { apply Qeq_bool_iff in Em. contradiction. }
  apply Qeq_bool_iff.
  assert (Hdiv : (x / m == inject_Z k)%Q).
  { rewrite Hk. field. exact Hm. }
  assert (Ht : Qtrunc (x / m) = k).
  { unfold Qtrunc.
    destruct (Qle_bool 0 (x / m));
      [rewrite (Qfloor_comp _ _ Hdiv); apply Qfloor_Z
      |rewrite (Qceiling_comp _ _ Hdiv); apply Qceiling_Z]. }
  rewrite Ht, Hk. ring.
Qed.

End JsNumFacts.

(** ** Undo history of the document store *)

Module StoreFacts.

Import JsNum Store.

Lemma cloneNode_same node : cloneNode node = node.
Proof. destruct node as [i t [d|]]; reflexivity. Qed.

Lemma cloneNodes_same ns : cloneNodes ns = ns.
Proof.
  unfold cloneNodes. induction ns as [|n ns IH]; simpl.
  - reflexivity.
  - rewrite cloneNode_same, IH. reflexivity.
Qed.

Lemma past_commit ns s : past (commit ns s) = past s ++ [nodes s].
Proof. unfold commit; simpl. rewrite cloneNodes_same. reflexivity. Qed.

Lemma future_commit ns s : future (commit ns s) = [].
Proof. reflexivity. Qed.

Lemma nodes_commit ns s : nodes (commit ns s) = ns.
Proof. reflexivity. Qed.

(** A state never equals itself with one more history entry. *)
Lemma past_grows_ne (s s' : DocumentState) x :
  past s' = past s ++ [x] -> s' <> s.
Proof.
  intros H Heq. subst s'. apply (f_equal length) in H.
  rewrite length_app in H. simpl in H. lia.
Qed.

Ltac close_case :=
  first [left; reflexivity
        |right; split; simpl; rewrite ?cloneNodes_same; reflexivity].

Lemma updateNode_cases nodeId u s :
  updateNode nodeId u true s = s \/ pushed s (updateNode nodeId u true s).
Proof.
  unfold updateNode, pushed.
  destruct (findIndex _ (nodes s)) as [index|]; [|close_case].
  destruct (nodes s !! index) as [node|]; [|close_case].
  destruct u as [fields|f]; [|destruct (f (node_data node))];
    match goal with
    | |- context [hasShallowChanges ?a ?b ?c] => destruct (hasShallowChanges a b c)
    end; simpl; close_case.
Qed.

Lemma applyEdit_cases e s : applyEdit e s = s \/ pushed s (applyEdit e s).
Proof.
  destruct e; simpl; try apply updateNode_cases; unfold pushed.
  - unfold setNodes. close_case.
  - unfold addNode. close_case.
  - unfold deleteSelection. destruct (selection s); [close_case|].
    destruct (_ =? _)%nat; close_case.
  - unfold rotateSelectionClockwise. destruct (selection s); [close_case|].
    destruct (existsb _ _); simpl; close_case.
  - unfold bringSelectionToFront.
    destruct (primarySelection s); [|close_case].
    destruct (findIndex _ _) as [index|]; [|close_case].
    destruct (_ =? _)%nat; [close_case|].
    destruct (nodes s !! index); close_case.
  - unfold sendSelectionBackward.
    destruct (primarySelection s); [|close_case].
    destruct (findIndex _ _) as [index|]; [|close_case].
    destruct (_ <=? _)%nat; [close_case|].
    destruct (nodes s !! index); close_case.
Qed.

Lemma undo_empty s : past s = [] -> undo s = s.
Proof. unfold undo. intros ->. reflexivity. Qed.

Lemma undo_snoc s p x :
  past s = p ++ [x] ->
  nodes (undo s) = x /\ past (undo s) = p /\
  future (undo s) = nodes s :: future s /\ selection (undo s) = [].
Proof.
  intros H. unfold undo. rewrite H, last_snoc. simpl.
  rewrite removelast_last, !cloneNodes_same. auto.
Qed.

Lemma undoTimes_empty n s : past s = [] -> undoTimes n s = s.
Proof.
  induction n as [|n IH]; simpl; intros H; [reflexivity|].
  rewrite (undo_empty s H). apply IH, H.
Qed.

Lemma undoTimes_add a b s : undoTimes (a + b) s = undoTimes b (undoTimes a s).
Proof. revert s. induction a as [|a IH]; simpl; intros s; [reflexivity | apply IH]. Qed.

(** Undoing as many times as there are entries above [p] pops them all and
    lands on the oldest of them. *)
Lemma undoTimes_pops h : forall p s,
  past s = p ++ h ->
  nodes (undoTimes (length h) s) = hd (nodes s) h /\
  past (undoTimes (length h) s) = p.
Proof.
  induction h as [|x h IH] using rev_ind; intros p s H.
  - rewrite app_nil_r in H. simpl. auto.
  - rewrite length_app, Nat.add_comm. simpl.
    rewrite app_assoc in H.
    destruct (undo_snoc s _ _ H) as (Hn & Hp & _).
    destruct (IH p (undo s) Hp) as [IHn IHp].
    split; [|exact IHp].
    rewrite IHn, Hn. destruct h; reflexivity.
Qed.

(** The history a run of edits leaves above the initial [past]. *)
Lemma applyEdits_history es : forall s,
  exists h,
    past (applyEdits es s) = past s ++ h /\
    length h <= length es /\
    hd (nodes (applyEdits es s)) h = nodes s /\
    (allCommit es s -> length h = length es).
Proof.
  induction es as [|e es IH]; intros s.
  - exists []. simpl. rewrite app_nil_r. auto.
  - simpl. destruct (IH (applyEdit e s)) as (h & Hp & Hl & Hh & Hc).
    destruct (applyEdit_cases e s) as [Hsame | [Hpush _]].
    + exists h. rewrite Hsame in *. repeat split; auto.
      intros [Hcommit _]. unfold commits in Hcommit. rewrite Hsame in Hcommit.
      apply (f_equal length) in Hcommit. rewrite length_app in Hcommit.
      simpl in Hcommit. lia.
    + exists (nodes s :: h). rewrite Hp, Hpush, <- app_assoc. simpl.
      repeat split; auto; try lia.
      intros [_ Hrest]. rewrite (Hc Hrest). reflexivity.
Qed.

(** C1 (as amended): after [n] committing edits, each of which went through
    (pushed its history entry), or after any [n] edits on a document whose
    [past] was empty, [n] calls of [undo] give back the node collection the
    document had before the first edit. *)
Theorem undo_restores_nodes (es : list Edit) (s : DocumentState) :
  allCommit es s \/ past s = [] ->
  nodes (undoTimes (length es) (applyEdits es s)) = nodes s.
Proof.
  intros H.
  destruct (applyEdits_history es s) as (h & Hp & Hl & Hh & Hc).
  destruct H as [Hall | Hempty].
  - rewrite <- (Hc Hall).
    destruct (undoTimes_pops h _ _ Hp) as [Hn _]. rewrite Hn. exact Hh.
  - replace (length es) with (length h + (length es - length h)) by lia.
    rewrite undoTimes_add.
    destruct (undoTimes_pops h _ _ Hp) as [Hn Hpast].
    rewrite undoTimes_empty by (rewrite Hpast; exact Hempty).
    rewrite Hn. exact Hh.
Qed.

Lemma undo_restores_nodes_witness :
  nodes (undoTimes 3 (applyEdits sampleEdits oneImage)) = nodes oneImage.
Proof.
  apply (undo_restores_nodes sampleEdits oneImage).
  left. vm_compute. repeat split; reflexivity.
Defined.

(** C1, as stated, fails: with nothing selected [deleteSelection] returns
    the state as it is, so the one [undo] that follows pops an older entry
    and the image present before the edit is gone. *)
Lemma undo_after_rejected_edit :
  nodes (undoTimes 1 (applyEdits [EDeleteSelection] oneImage)) <> nodes oneImage.
Proof. vm_compute. discriminate. Qed.

Lemma nonempty_snoc {A : Type} (l : list A) :
  l <> [] -> exists p x, l = p ++ [x].
Proof.
  destruct l as [|a l] using rev_ind; [congruence|]. intros _. eauto.
Qed.

Lemma redo_empty s : future s = [] -> redo s = s.
Proof. unfold redo. intros ->. reflexivity. Qed.

(** C2 (as amended): when [past] is not empty, [undo] followed at once by
    [redo] gives back the same nodes (and the same two stacks); and a
    committing edit that goes through after an [undo] leaves [future] empty,
    so that the next [redo] returns the state as it is. *)
Theorem undo_then_redo (s : DocumentState) (e : Edit) :
  (past s <> [] ->
   nodes (redo (undo s)) = nodes s /\
   past (redo (undo s)) = past s /\
   future (redo (undo s)) = future s) /\
  (commits e (undo s) ->
   future (applyEdit e (undo s)) = [] /\
   redo (applyEdit e (undo s)) = applyEdit e (undo s)).
Proof.
  split.
  - intros Hne. destruct (nonempty_snoc _ Hne) as (p & x & Hp).
    destruct (undo_snoc s p x Hp) as (Hn & Hpast & Hf & _).
    unfold redo. rewrite Hf. simpl.
    rewrite !cloneNodes_same, Hn, Hpast, Hp. auto.
  - intros Hc.
    destruct (applyEdit_cases e (undo s)) as [Hsame | [_ Hfut]].
    + exfalso. exact (past_grows_ne _ _ _ Hc Hsame).
    + split; [exact Hfut | apply redo_empty, Hfut].
Qed.

Lemma undo_then_redo_witness :
  nodes (redo (undo oneImage)) = nodes oneImage /\
  redo (applyEdit (EAddNode (imageNode "n2" 40)) (undo oneImage))
  = applyEdit (EAddNode (imageNode "n2" 40)) (undo oneImage).
Proof.
  destruct (undo_then_redo oneImage (EAddNode (imageNode "n2" 40))) as [Hredo Hedit].
  split.
  - apply Hredo. vm_compute. discriminate.
  - apply Hedit. vm_compute. reflexivity.
Defined.

(** C2, as stated, fails: once the image has been undone [past] is empty, a
    second [undo] returns the state as it is, and the [redo] after it brings
    the image back. *)
Lemma redo_after_rejected_undo :
  nodes (redo (undo (undo oneImage))) <> nodes (undo oneImage).
Proof. vm_compute. discriminate. Qed.

(** After an [undo] nothing is selected, so [deleteSelection] is rejected,
    [future] survives and [redo] still acts. *)
Lemma redo_after_rejected_edit :
  redo (applyEdit EDeleteSelection (undo oneImage))
  <> applyEdit EDeleteSelection (undo oneImage).
Proof.
  intros H. apply (f_equal (fun st => length (nodes st))) in H.
  vm_compute in H. discriminate.
Qed.

Lemma updateNode_live_history nodeId u s :
  past (updateNode nodeId u false s) = past s /\
  future (updateNode nodeId u false s) = future s.
Proof.
  unfold updateNode.
  destruct (findIndex _ (nodes s)) as [index|]; [|auto].
  destruct (nodes s !! index) as [node|]; [|auto].
  destruct u as [fields|f]; [|destruct (f (node_data node))];
    match goal with
    | |- context [hasShallowChanges ?a ?b ?c] => destruct (hasShallowChanges a b c)
    end; simpl; auto.
Qed.

Lemma liveUpdates_history nodeId us : forall s,
  past (liveUpdates nodeId us s) = past s /\
  future (liveUpdates nodeId us s) = future s.
Proof.
  induction us as [|u us IH]; intros s; simpl; [auto|].
  destruct (IH (updateNode nodeId u false s)) as [Hp Hf].
  destruct (updateNode_live_history nodeId u s) as [Hp' Hf'].
  unfold liveUpdates in *. rewrite Hp, Hf. auto.
Qed.

(** What the history receives: [k] calls of [updateNode] with
    [commit: false] add no entry to [past]; a following call with
    [commit: true] adds one only if it changes the state, and that entry is
    the node collection as it stood just before the committing call, that
    is after the [k] live updates. *)
Theorem live_updates_then_commit
    (nodeId : string) (us : list Updates) (u : Updates) (s : DocumentState) :
  let dragged := liveUpdates nodeId us s in
  let final := updateNode nodeId u true dragged in
  final <> dragged ->
  past dragged = past s /\
  past final = past s ++ [nodes dragged] /\
  length (past final) = S (length (past s)).
Proof.
  intros dragged final Hchanged.
  destruct (liveUpdates_history nodeId us s) as [Hp _]. fold dragged in Hp.
  destruct (updateNode_cases nodeId u dragged) as [Hsame | [Hpush _]].
  - contradiction.
  - fold final in Hpush. rewrite Hp in Hpush.
    repeat split; [exact Hp | exact Hpush |].
    rewrite Hpush, length_app. simpl. lia.
Qed.

Lemma live_updates_then_commit_witness :
  past (updateNode "n1" (dragTo 6) true (liveUpdates "n1" [dragTo 3; dragTo 5] oneImage))
  = past oneImage ++ [nodes (liveUpdates "n1" [dragTo 3; dragTo 5] oneImage)].
Proof.
  apply (live_updates_then_commit "n1" [dragTo 3; dragTo 5] (dragTo 6) oneImage).
  intros H. apply (f_equal (fun st => xs (nodes st))) in H.
  vm_compute in H. discriminate.
Defined.

(** The entry pushed by the committing call holds the image at [x = 5],
    where the live update left it, not at [x = 0], where it was before the
    drag. *)
Lemma commit_entry_is_not_pre_drag :
  past (updateNode "n1" (dragTo 6) true (liveUpdates "n1" [dragTo 5] oneImage))
  <> past oneImage ++ [nodes oneImage].
Proof.
  intros H. apply (f_equal (map xs)) in H. vm_compute in H. discriminate.
Qed.

(** A committing call that repeats the last live value is rejected by the
    shallow comparison and pushes nothing. *)
Lemma commit_repeating_last_value :
  past (updateNode "n1" (dragTo 5) true (liveUpdates "n1" [dragTo 5] oneImage))
  = past oneImage.
Proof. vm_compute. reflexivity. Qed.

(** C10: the view setters leave the nodes, the selection and both history
    stacks as they were. *)
Theorem view_setters_frame (v : ViewOp) (s : DocumentState) :
  nodes (applyView v s) = nodes s /\
  selection (applyView v s) = selection s /\
  past (applyView v s) = past s /\
  future (applyView v s) = future s.
Proof.
  destruct v; simpl;
    unfold setZoom, zoomIn, zoomOut, resetZoom, setRotation,
      rotateCanvasLeft, rotateCanvasRight;
    try match goal with
      | |- context [if ?c then _ else _] => destruct c
      end; auto.
Qed.

End StoreFacts.

(** ** The zoom range *)

Module ZoomFacts.

Import JsNum Store.

Local Open Scope Q_scope.

Lemma normalizeZoom_finite (q : Q) :
  let r := inject_Z (Qfloor (q * 100 + (1 # 2))) / 100 in
  normalizeZoom (Fin q) =
    if Qle_bool 0.5 r then (if Qle_bool 2.5 r then Fin 2.5 else Fin r)
    else Fin 0.5.
Proof.
  intros r. unfold normalizeZoom, MAX_ZOOM, MIN_ZOOM.
  change (div (round (mul (Fin q) (Fin 100))) (Fin 100)) with (Fin r).
  unfold max, min, le. destruct (Qle_bool 0.5 r); reflexivity.
Qed.

(** Away from [NaN], [normalizeZoom] lands in the zoom range on a whole
    number of hundredths. *)
Lemma normalizeZoom_range (v : number) :
  v <> NaN ->
  within 0.5 2.5 (normalizeZoom v) /\ two_decimals (normalizeZoom v).
Proof.
  intros Hv. destruct v as [| | |q].
  - congruence.
  - vm_compute. split; [split; discriminate | exists 250%Z; reflexivity].
  - vm_compute. split; [split; discriminate | exists 50%Z; reflexivity].
  - rewrite normalizeZoom_finite. cbv zeta.
    set (k := Qfloor (q * 100 + (1 # 2))).
    destruct (Qle_bool 0.5 (inject_Z k / 100)) eqn:Hlo.
    + destruct (Qle_bool 2.5 (inject_Z k / 100)) eqn:Hhi; simpl.
      * split; [split; discriminate | exists 250%Z; reflexivity].
      * apply Qle_bool_iff in Hlo.
        split; [split; [exact Hlo|] | exists k; reflexivity].
        apply Qlt_le_weak, Qnot_le_lt. intros H.
        apply Qle_bool_iff in H. congruence.
    + simpl. split; [split; discriminate | exists 50%Z; reflexivity].
Qed.

(** [NaN] goes through [Math.round], [Math.max] and [Math.min] untouched. *)
Lemma normalizeZoom_NaN : normalizeZoom NaN = NaN.
Proof. reflexivity. Qed.

(** An equal normalized value makes the setter return the state it got. *)
Lemma setZoom_same (z : number) (s : DocumentState) :
  strict_eq (normalizeZoom z) (zoom s) = true -> setZoom z s = s.
Proof. unfold setZoom. intros ->. reflexivity. Qed.

Lemma zoomIn_same (s : DocumentState) :
  strict_eq (normalizeZoom (add (zoom s) ZOOM_STEP)) (zoom s) = true -> zoomIn s = s.
Proof. unfold zoomIn. intros ->. reflexivity. Qed.

Lemma zoomOut_same (s : DocumentState) :
  strict_eq (normalizeZoom (sub (zoom s) ZOOM_STEP)) (zoom s) = true -> zoomOut s = s.
Proof. unfold zoomOut. intros ->. reflexivity. Qed.

Lemma applyZoom_keeps_range (z : ZoomOp) (s : DocumentState) :
  notNaNArg z -> zoomOk s -> zoomOk (applyZoom z s).
Proof.
  intros Harg Hs. unfold zoomOk in *.
  assert (Hfin : exists q, zoom s = Fin q).
  { destruct Hs as [H _]. destruct (zoom s); simpl in H; try tauto. eauto. }
  destruct Hfin as [q Hq].
  destruct z as [v| |]; simpl in *.
  - unfold setZoom. destruct (strict_eq _ _); [exact Hs|].
    simpl. apply normalizeZoom_range, Harg.
  - unfold zoomIn. destruct (strict_eq _ _); [exact Hs|].
    simpl. apply normalizeZoom_range. rewrite Hq. discriminate.
  - unfold zoomOut. destruct (strict_eq _ _); [exact Hs|].
    simpl. apply normalizeZoom_range. rewrite Hq. discriminate.
Qed.

(** From the initial zoom, any run of zoom setters whose arguments are not
    [NaN] keeps the zoom in [0.5, 2.5] on a whole number of hundredths. *)
Lemma zoom_range_without_NaN (zs : list ZoomOp) :
  Forall notNaNArg zs ->
  zoomOk (fold_left (fun st z => applyZoom z st) zs initialState).
Proof.
  assert (H0 : zoomOk initialState).
  { split; [split; discriminate | exists 100%Z; reflexivity]. }
  revert H0. generalize initialState.
  induction zs as [|z zs IH]; intros s Hs Hall; simpl; [exact Hs|].
  inversion Hall; subst. apply IH; [apply applyZoom_keeps_range|]; assumption.
Qed.

(** Two steps in from the initial zoom give 1.2; at the lower bound
    [zoomOut] returns the state it got; an infinite request is clamped. *)
Example zoomIn_twice :
  strict_eq (zoom (zoomIn (zoomIn initialState))) (Fin 1.2) = true.
Proof. vm_compute. reflexivity. Qed.

Example zoomOut_at_floor :
  zoomOut (setZoom (Fin 0.5) initialState) = setZoom (Fin 0.5) initialState.
Proof. vm_compute. reflexivity. Qed.

Example setZoom_infinite :
  zoom (setZoom PInf initialState) = Fin 2.5 /\
  zoom (setZoom NInf initialState) = Fin 0.5.
Proof. vm_compute. auto. Qed.

(** C8 (the code departs from it): [setZoom(NaN)] on the initial state
    stores [NaN], which is outside [0.5, 2.5]; the zoom setters that follow
    keep it there. *)
Theorem setZoom_NaN_leaves_range :
  zoom (applyZoom (ZSetZoom NaN) initialState) = NaN /\
  ~ within 0.5 2.5 (zoom (applyZoom (ZSetZoom NaN) initialState)) /\
  zoom (applyZoom ZZoomIn (applyZoom (ZSetZoom NaN) initialState)) = NaN /\
  zoom (applyZoom ZZoomOut (applyZoom (ZSetZoom NaN) initialState)) = NaN.
Proof. vm_compute. tauto. Qed.

End ZoomFacts.

(** ** Containment *)

Module DielineFacts.

Import JsNum Dieline.

Local Open Scope Q_scope.

Lemma Qle_bool_false_lt (a b : Q) : Qle_bool a b = false <-> b < a.
Proof.
  split.
  - intros H. apply Qnot_le_lt. intros Hle. apply Qle_bool_iff in Hle. congruence.
  - intros H. destruct (Qle_bool a b) eqn:E; [|reflexivity].
    apply Qle_bool_iff in E. exfalso. exact (Qlt_not_le _ _ H E).
Qed.

(** A rectangle without positive width or height is inside, wherever it
    is and whatever the dieline. *)
Lemma degenerate_inside (d r : RectBounds) :
  le (rect_width r) zero = true \/ le (rect_height r) zero = true ->
  isInsideDieline d r = true.
Proof.
  unfold isInsideDieline. intros [-> | ->]; [reflexivity|].
  rewrite orb_true_r. reflexivity.
Qed.

Lemma proper_inside (dx dy dw dh x y w h : Q) :
  0 < w -> 0 < h ->
  isInsideDieline (finiteRect dx dy dw dh) (finiteRect x y w h) =
    Qle_bool dx x && Qle_bool dy y
    && Qle_bool (x + w) (dx + dw) && Qle_bool (y + h) (dy + dh).
Proof.
  intros Hw Hh. unfold isInsideDieline, finiteRect, zero. simpl.
  apply Qle_bool_false_lt in Hw, Hh. rewrite Hw, Hh. reflexivity.
Qed.

(** C9: a rectangle of positive size is inside exactly when its four sides
    lie within the dieline, so that one crossing an edge is outside; a
    rectangle with zero or negative width or height is inside wherever it
    is. *)
Theorem isInsideDieline_spec :
  (forall d r : RectBounds,
      le (rect_width r) zero = true \/ le (rect_height r) zero = true ->
      isInsideDieline d r = true) /\
  (forall dx dy dw dh x y w h : Q,
      0 < w -> 0 < h ->
      (isInsideDieline (finiteRect dx dy dw dh) (finiteRect x y w h) = true <->
       dx <= x /\ dy <= y /\ x + w <= dx + dw /\ y + h <= dy + dh) /\
      (x < dx \/ y < dy \/ dx + dw < x + w \/ dy + dh < y + h ->
       isInsideDieline (finiteRect dx dy dw dh) (finiteRect x y w h) = false)).
Proof.
  split; [exact degenerate_inside|].
  intros dx dy dw dh x y w h Hw Hh.
  rewrite (proper_inside dx dy dw dh x y w h Hw Hh). split.
  - rewrite !andb_true_iff, !Qle_bool_iff. tauto.
  - intros Hcross.
    destruct Hcross as [H | [H | [H | H]]];
      apply Qle_bool_false_lt in H; rewrite H;
      rewrite ?andb_false_r; reflexivity.
Qed.

Lemma isInsideDieline_spec_witness :
  isInsideDieline (finiteRect 0 0 800 600) (finiteRect 5000 5000 0 10) = true /\
  (isInsideDieline (finiteRect 0 0 800 600) (finiteRect 100 100 200 150) = true <->
   0 <= 100 /\ 0 <= 100 /\ 100 + 200 <= 0 + 800 /\ 100 + 150 <= 0 + 600) /\
  isInsideDieline (finiteRect 0 0 800 600) (finiteRect 700 100 200 150) = false.
Proof.
  destruct isInsideDieline_spec as [Hdegenerate Hproper].
  split; [|split].
  - apply Hdegenerate. left. reflexivity.
  - apply (Hproper 0 0 800 600 100 100 200 150); reflexivity.
  - apply (Hproper 0 0 800 600 700 100 200 150); try reflexivity.
    right. right. left. reflexivity.
Defined.

End DielineFacts.

(** ** Face versions *)

Module PreviewFacts.

Import Preview.

Lemma applyFaceUpdate_flag faces acc entry :
  acc.2 = true -> (applyFaceUpdate faces acc entry).2 = true.
Proof.
  unfold applyFaceUpdate. intros H.
  destruct (faces !! entry.1); [|exact H].
  destruct (sameDataUrl _ _); [exact H | reflexivity].
Qed.

Lemma foldl_flag faces entries : forall acc,
  acc.2 = true -> (foldl (applyFaceUpdate faces) acc entries).2 = true.
Proof.
  induction entries as [|e entries IH]; intros acc H; simpl; [exact H|].
  apply IH, applyFaceUpdate_flag, H.
Qed.

Lemma applyFaceUpdate_cases faces acc entry :
  applyFaceUpdate faces acc entry = acc \/ (applyFaceUpdate faces acc entry).2 = true.
Proof.
  unfold applyFaceUpdate.
  destruct (faces !! entry.1) as [face|]; [|left; reflexivity].
  destruct (sameDataUrl (dataUrl face) entry.2); [left | right]; reflexivity.
Qed.

(** No change flagged means that nothing was written. *)
Lemma foldl_unflagged faces entries : forall acc,
  (foldl (applyFaceUpdate faces) acc entries).2 = false ->
  (foldl (applyFaceUpdate faces) acc entries).1 = acc.1.
Proof.
  induction entries as [|e entries IH]; intros acc H; simpl in *; [reflexivity|].
  destruct (applyFaceUpdate_cases faces acc e) as [Hsame | Hflag].
  - rewrite Hsame in *. apply IH, H.
  - rewrite (foldl_flag _ _ _ Hflag) in H. discriminate.
Qed.

Lemma foldl_lookup faces entries : forall acc k,
  NoDup entries.*1 ->
  (foldl (applyFaceUpdate faces) acc entries).1 !! k =
    match (list_to_map entries : gmap string (option string)) !! k with
    | None => acc.1 !! k
    | Some payload =>
        match faces !! k with
        | None => acc.1 !! k
        | Some face =>
            if sameDataUrl (dataUrl face) payload then acc.1 !! k
            else Some (bumped face payload)
        end
    end.
Proof.
  induction entries as [|[k0 v0] entries IH]; intros acc k Hnd; simpl.
  - rewrite lookup_empty. reflexivity.
  - apply NoDup_cons in Hnd as [Hfresh Hnd].
    rewrite IH by exact Hnd.
    destruct (decide (k0 = k)) as [->|Hne].
    + rewrite lookup_insert_eq.
      rewrite (not_elem_of_list_to_map_1 _ _ Hfresh).
      unfold applyFaceUpdate. simpl.
      destruct (faces !! k) as [face|]; [|reflexivity].
      destruct (sameDataUrl (dataUrl face) v0); [reflexivity|].
      simpl. rewrite lookup_insert_eq. reflexivity.
    + rewrite lookup_insert_ne by exact Hne.
      assert (Hk : (applyFaceUpdate faces acc (k0, v0)).1 !! k = acc.1 !! k).
      { unfold applyFaceUpdate. simpl.
        destruct (faces !! k0) as [face|]; [|reflexivity].
        destruct (sameDataUrl (dataUrl face) v0); [reflexivity|].
        simpl. rewrite lookup_insert_ne by exact Hne. reflexivity. }
      rewrite Hk. reflexivity.
Qed.

(** The loop of [setFaceTextures] against the pointwise reading. *)
Lemma setFaceTextures_lookup updates faces k :
  setFaceTextures updates faces !! k = faceAfter updates faces k.
Proof.
  unfold setFaceTextures, faceAfter.
  destruct (map_to_list updates) as [|e entries] eqn:E.
  - apply map_to_list_empty_iff in E. subst updates.
    rewrite lookup_empty. destruct (faces !! k); reflexivity.
  - rewrite <- E.
    pose proof (foldl_lookup faces (map_to_list updates) (faces, false) k
                  (NoDup_fst_map_to_list updates)) as Hl.
    rewrite list_to_map_to_list in Hl. simpl in Hl.
    pose proof (foldl_unflagged faces (map_to_list updates) (faces, false)) as Hu.
    destruct (foldl (applyFaceUpdate faces) (faces, false) (map_to_list updates))
      as [nextFaces hasChanges].
    simpl in *.
    assert (Hres : (if hasChanges then nextFaces else faces) !! k = nextFaces !! k).
    { destruct hasChanges; [reflexivity|]. rewrite Hu; reflexivity. }
    rewrite Hres, Hl.
    destruct (updates !! k) as [payload|], (faces !! k) as [face|]; reflexivity.
Qed.

Lemma sameDataUrl_true a b : sameDataUrl a b = true <-> a = b.
Proof. unfold sameDataUrl. apply bool_decide_eq_true. Qed.

Lemma sameDataUrl_false a b : sameDataUrl a b = false <-> a <> b.
Proof. unfold sameDataUrl. apply bool_decide_eq_false. Qed.

(** One call never lowers a version. *)
Lemma setFaceTextures_version_le updates faces k :
  versionOf faces k <= versionOf (setFaceTextures updates faces) k.
Proof.
  unfold versionOf. rewrite setFaceTextures_lookup. unfold faceAfter.
  destruct (faces !! k) as [face|]; simpl; [|lia].
  destruct (updates !! k) as [payload|]; simpl; [|lia].
  destruct (sameDataUrl (dataUrl face) payload); simpl; lia.
Qed.

(** Sending the same update again changes nothing. *)
Lemma setFaceTextures_idempotent updates faces :
  setFaceTextures updates (setFaceTextures updates faces)
  = setFaceTextures updates faces.
Proof.
  apply map_eq. intros k.
  rewrite (setFaceTextures_lookup updates (setFaceTextures updates faces)).
  unfold faceAfter at 1. rewrite setFaceTextures_lookup. unfold faceAfter.
  destruct (faces !! k) as [face|]; [|reflexivity].
  destruct (updates !! k) as [payload|]; [|reflexivity].
  destruct (sameDataUrl (dataUrl face) payload) eqn:E; [rewrite E; reflexivity|].
  simpl. destruct (sameDataUrl payload payload) eqn:E'; [reflexivity|].
  apply sameDataUrl_false in E'. congruence.
Qed.

(** C4 (as amended): one call of [setFaceTextures] leaves a face whose
    supplied payload equals its current one untouched and raises by exactly
    one the version of a face whose payload differs, storing the new
    payload; hence the same update sent twice changes nothing the second
    time, and over any sequence of [setFaceTextures] calls no version ever
    goes down. *)
Theorem setFaceTextures_versions
    (updates : gmap string (option string))
    (faces : gmap string FaceTextureState) (k : string) :
  (forall face payload,
      faces !! k = Some face -> updates !! k = Some payload ->
      (payload = dataUrl face -> setFaceTextures updates faces !! k = Some face) /\
      (payload <> dataUrl face ->
       exists face',
         setFaceTextures updates faces !! k = Some face' /\
         version face' = S (version face) /\ dataUrl face' = payload)) /\
  setFaceTextures updates (setFaceTextures updates faces)
  = setFaceTextures updates faces /\
  (forall calls : list (gmap string (option string)),
      versionOf faces k
      <= versionOf (foldl (fun f u => setFaceTextures u f) faces calls) k).
Proof.
  split; [|split].
  - intros face payload Hface Hpayload.
    rewrite setFaceTextures_lookup. unfold faceAfter. rewrite Hface, Hpayload.
    split.
    + intros ->. destruct (sameDataUrl _ _) eqn:E; [reflexivity|].
      apply sameDataUrl_false in E. congruence.
    + intros Hne. destruct (sameDataUrl _ _) eqn:E.
      * apply sameDataUrl_true in E. congruence.
      * exists (bumped face payload). simpl. repeat split. lia.
  - apply setFaceTextures_idempotent.
  - intros calls. revert faces.
    induction calls as [|u calls IH]; intros faces; simpl; [lia|].
    etransitivity; [apply (setFaceTextures_version_le u)|apply IH].
Qed.

Lemma setFaceTextures_versions_witness :
  exists face',
    setFaceTextures paintFront createInitialFaces !! "front" = Some face' /\
    version face' = 1%nat /\ dataUrl face' = Some "data:a".
Proof.
  destruct (setFaceTextures_versions paintFront createInitialFaces "front")
    as [Hcall _].
  destruct (Hcall {| config := faceConfig "front" "Front Panel" 220 260 380 140 4;
                     dataUrl := None; version := 0 |} (Some "data:a"))
    as [_ Hdiff]; [reflexivity | reflexivity |].
  apply Hdiff. discriminate.
Defined.

(** C4, as stated, fails: [resetFaceTextures] puts every version back to
    [0], so the version of the painted front face goes down from 1. *)
Lemma reset_lowers_version :
  ~ (versionOf (applyPreview (SetFaceTextures paintFront) createInitialFaces) "front"
     <= versionOf
          (applyPreview ResetFaceTextures
             (applyPreview (SetFaceTextures paintFront) createInitialFaces))
          "front").
Proof. vm_compute. lia. Qed.

End PreviewFacts.

(** ** Synchronisation is paused while the canvas is turned *)

Module TextureSyncFacts.

Import JsNum Preview TextureSync.

Lemma turned_guard (env : SyncEnv) :
  turned env -> strict_eq (rem (canvasRotation env) (Fin 360)) zero = false.
Proof.
  unfold turned. intros H.
  destruct (strict_eq _ _) eqn:E; [|reflexivity].
  exfalso. apply H, JsNumFacts.rem_zero_multiple, E.
Qed.

Lemma updateFaceTextures_turned env faces :
  turned env -> updateFaceTextures env faces = ([], faces).
Proof.
  intros H. unfold updateFaceTextures.
  destruct (stageReady env); [|reflexivity].
  rewrite (turned_guard env H). reflexivity.
Qed.

(** C5: a synchronisation run that finds the canvas rotation off the
    multiples of 360 returns before any capture and leaves every face of the
    preview store as it was; so do any number of such runs in a row. *)
Theorem sync_paused_while_turned
    (envs : list SyncEnv) (faces : gmap string FaceTextureState) :
  Forall turned envs -> syncRuns envs faces = ([], faces).
Proof.
  induction 1 as [|env envs Hturned _ IH]; simpl; [reflexivity|].
  rewrite (updateFaceTextures_turned env faces Hturned), IH. reflexivity.
Qed.

Lemma sync_paused_while_turned_witness :
  syncRuns [sampleEnv (Fin 90); sampleEnv NaN]
    (setFaceTextures paintFront createInitialFaces)
  = ([], setFaceTextures paintFront createInitialFaces).
Proof.
  apply sync_paused_while_turned.
  repeat constructor.
  - intros [k Hk]. unfold Qeq in Hk. simpl in Hk. lia.
  - intros H. exact H.
Defined.

(** Back on a multiple of 360 the run captures the six faces and publishes
    them. *)
Lemma sync_resumes_unturned :
  length (syncRuns [sampleEnv (Fin 360)] createInitialFaces).1 = 6%nat /\
  versionOf (syncRuns [sampleEnv (Fin 360)] createInitialFaces).2 "front" = 1%nat.
Proof. vm_compute. auto. Qed.

End TextureSyncFacts.

(** ** Repair of text metrics *)

Module TextMetricsFacts.

Import JsNum TextMetrics.

Local Open Scope Q_scope.

Section Repair.

Variable measureContext :
  option (TextFontWeight -> number -> string -> string -> TextMetricsJs).
Variable curvedExtents :
  string -> string -> number -> TextFontWeight -> number -> number -> number ->
  number * number.

Local Abbreviation repaired := (withUpdatedTextMetrics measureContext curvedExtents).

Local Arguments max : simpl never.
Local Arguments or_else : simpl never.
Local Arguments le : simpl never.
Local Arguments strict_eq : simpl never.
Local Arguments isFinite : simpl never.
Local Arguments merge : simpl never.
Local Arguments measureStraightText : simpl never.

(** The four repaired fields of the result, read off the merged record. *)
Lemma repaired_fields (data : TextNodeData) (updates : TextNodeUpdates) :
  let merged := merge data updates in
  fontSize (repaired data updates) =
    (if negb (isFinite (fontSize merged)) || le (fontSize merged) zero
     then max (Fin 12) (fontSize data) else fontSize merged) /\
  letterSpacing (repaired data updates) =
    (if negb (isFinite (letterSpacing merged))
     then letterSpacing data else letterSpacing merged) /\
  radius (repaired data updates) =
    (if badRadius (radius merged)
     then or_else (radius data) (Fin 150) else radius merged) /\
  angle (repaired data updates) =
    (if negb (isFinite (angle merged)) then angle data else angle merged).
Proof.
  intros merged. unfold withUpdatedTextMetrics, badRadius. fold merged.
  clearbody merged.
  destruct (negb (isFinite (fontSize merged)) || le (fontSize merged) zero);
    simpl;
    destruct (negb (isFinite (letterSpacing merged))); simpl;
    destruct (negb (isFinite (radius merged)) || strict_eq (radius merged) zero);
    simpl;
    destruct (negb (isFinite (angle merged))); simpl;
    destruct (isCurved merged); simpl; auto.
Qed.

Lemma max_12_positive (n : number) :
  isFinite n = true ->
  isFinite (max (Fin 12) n) = true /\ lt zero (max (Fin 12) n) = true.
Proof.
  destruct n as [| | |q]; try discriminate. intros _.
  unfold max, le, lt, zero, isFinite.
  destruct (Qle_bool 12 q) eqn:E; [|auto].
  split; [reflexivity|].
  apply Qle_bool_iff in E.
  destruct (Qle_bool q 0) eqn:E'; [|reflexivity].
  apply Qle_bool_iff in E'.
  assert (H : 12 <= 0) by (eapply Qle_trans; eassumption).
  exfalso. apply (Qle_not_lt _ _ H). reflexivity.
Qed.

Lemma not_le_zero_positive (n : number) :
  isFinite n = true -> le n zero = false -> lt zero n = true.
Proof.
  destruct n as [| | |q]; try discriminate.
  unfold le, lt, zero. intros _ ->. reflexivity.
Qed.

Lemma or_else_truthy (a b : number) :
  isFinite a = true -> strict_eq a zero = false -> or_else a b = a.
Proof.
  destruct a as [| | |q]; try discriminate.
  unfold or_else, truthy, strict_eq, zero. intros _ ->. reflexivity.
Qed.

(** C7: on a record whose layout numbers are sound, whatever the update
    carries ([NaN], an infinity, a zero or negative size, a zero radius),
    the result has a finite positive font size, a finite letter spacing and
    angle and a finite radius that is not zero, an unusable radius giving
    way to the previous one; the function being total, nothing is thrown. *)
Theorem withUpdatedTextMetrics_repairs
    (data : TextNodeData) (updates : TextNodeUpdates) :
  soundMetrics data ->
  soundMetrics (repaired data updates) /\
  (badRadius (radius (merge data updates)) = true ->
   radius (repaired data updates) = radius data).
Proof.
  intros (Hfs & Hpos & Hls & Han & Hr & Hr0).
  destruct (repaired_fields data updates) as (Efs & Els & Er & Ean).
  cbv zeta in *. unfold soundMetrics.
  rewrite Efs, Els, Er, Ean. clear Efs Els Er Ean.
  set (merged := merge data updates). clearbody merged.
  rewrite (or_else_truthy _ (Fin 150) Hr Hr0).
  destruct (max_12_positive _ Hfs) as [Hmax Hmaxpos].
  unfold badRadius.
  repeat split.
  - destruct (isFinite (fontSize merged)) eqn:E; simpl; [|exact Hmax].
    destruct (le (fontSize merged) zero); [exact Hmax | exact E].
  - destruct (isFinite (fontSize merged)) eqn:E; simpl; [|exact Hmaxpos].
    destruct (le (fontSize merged) zero) eqn:E';
      [exact Hmaxpos | apply not_le_zero_positive; assumption].
  - destruct (isFinite (letterSpacing merged)) eqn:E; simpl; assumption.
  - destruct (isFinite (angle merged)) eqn:E; simpl; assumption.
  - destruct (isFinite (radius merged)) eqn:E; simpl; [|assumption].
    destruct (strict_eq (radius merged) zero); assumption.
  - destruct (isFinite (radius merged)) eqn:E; simpl; [|assumption].
    destruct (strict_eq (radius merged) zero) eqn:E'; assumption.
  - intros ->. reflexivity.
Qed.

End Repair.

Lemma withUpdatedTextMetrics_repairs_witness :
  soundMetrics
    (withUpdatedTextMetrics None (fun _ _ _ _ _ _ _ => (NaN, Fin 0))
       sampleText brokenUpdate) /\
  radius
    (withUpdatedTextMetrics None (fun _ _ _ _ _ _ _ => (NaN, Fin 0))
       sampleText brokenUpdate) = Fin 150.
Proof.
  destruct (withUpdatedTextMetrics_repairs None (fun _ _ _ _ _ _ _ => (NaN, Fin 0))
              sampleText brokenUpdate) as [Hsound Hradius].
  - vm_compute. auto 10.
  - split; [exact Hsound | apply Hradius; reflexivity].
Defined.

(** The repaired record of the sample: font size 24, spacing 0, radius 150,
    angle 180, and the extents fall back on the font size. *)
Example repaired_sample :
  let next :=
    withUpdatedTextMetrics None (fun _ _ _ _ _ _ _ => (NaN, Fin 0))
      sampleText brokenUpdate in
  (fontSize next, letterSpacing next, radius next, angle next, width next, height next)
  = (Fin 24, Fin 0, Fin 150, Fin 180, Fin 24, Fin 24).
Proof. vm_compute. reflexivity. Qed.

End TextMetricsFacts.

(** ** Curved text: where the first and last glyphs sit *)

Module CurvedTextFacts.

Import CurvedText.

Local Open Scope R_scope.

Section Mirror.

Variable context : option (ascii -> GlyphMetrics).
Variables fontSize letterSpacing radius angle : R.

Local Abbreviation widthsOf characters :=
  (measureWidths context fontSize letterSpacing 0 (length characters) characters).




Section Arc.

Variables pxToAngle startAngle angleRad glyphHeight : R.

Local Abbreviation place :=
  (placeGlyphs letterSpacing radius pxToAngle startAngle angleRad glyphHeight).

Local Abbreviation arm := (safeRadius radius * radiusDirection radius).



Lemma placeGlyphs_nonempty index count c rest w ws a :
  place index count (c :: rest) (w :: ws) a <> [].
Proof. simpl. discriminate. Qed.

End Arc.









End Mirror.





End CurvedTextFacts.

(** ** Rounding and remainders *)

Module NumBounds.

Import JsNum Lqa.

Local Open Scope Q_scope.

Lemma Qfloor_unique (n : Z) (q : Q) :
  inject_Z n <= q -> q < inject_Z n + 1 -> Qfloor q = n.
Proof.
  intros Hlo Hhi.
  pose proof (Qfloor_le q) as H1. pose proof (Qlt_floor q) as H2.
  rewrite inject_Z_plus in H2. change (inject_Z 1) with 1 in H2.
  assert (A : inject_Z (Qfloor q) < inject_Z n + 1) by lra.
  assert (B : inject_Z n < inject_Z (Qfloor q) + 1) by lra.
  change 1 with (inject_Z 1) in A, B. rewrite <- inject_Z_plus in A, B.
  rewrite <- Zlt_Qlt in A, B. lia.
Qed.

Lemma Qceiling_unique (n : Z) (q : Q) :
  inject_Z n - 1 < q -> q <= inject_Z n -> Qceiling q = n.
Proof.
  intros Hlo Hhi. unfold Qceiling.
  rewrite (Qfloor_unique (- n) (- q)); [lia | |].
  - rewrite inject_Z_opp. lra.
  - rewrite inject_Z_opp. lra.
Qed.

(** Rounding a whole number gives it back. *)
Lemma Qfloor_half (n : Z) : Qfloor (inject_Z n + (1 # 2)) = n.
Proof. apply Qfloor_unique; lra. Qed.

Lemma Qfloor_half_eq (n : Z) (q : Q) :
  q == inject_Z n -> Qfloor (q + (1 # 2)) = n.
Proof. intros H. apply Qfloor_unique; lra. Qed.

(** The truncated quotient is within one of the quotient, on the side of
    zero. *)
Lemma Qtrunc_bounds (q : Q) :
  (0 <= q -> inject_Z (Qtrunc q) <= q /\ q < inject_Z (Qtrunc q) + 1) /\
  (q < 0 -> inject_Z (Qtrunc q) - 1 < q /\ q <= inject_Z (Qtrunc q)).
Proof.
  unfold Qtrunc. split; intros H.
  - assert (E : Qle_bool 0 q = true) by (apply Qle_bool_iff; exact H).
    rewrite E. cbv iota. pose proof (Qfloor_le q) as H1. pose proof (Qlt_floor q) as H2.
    rewrite inject_Z_plus in H2. change (inject_Z 1) with 1 in H2.
    split; [exact H1 | exact H2].
  - assert (E : Qle_bool 0 q = false).
    { destruct (Qle_bool 0 q) eqn:E; [|reflexivity].
      apply Qle_bool_iff in E. lra. }
    rewrite E. cbv iota. pose proof (Qle_ceiling q) as H1. pose proof (Qceiling_lt q) as H2.
    unfold Z.sub in H2. rewrite inject_Z_plus in H2.
    change (inject_Z (-1)) with (-1) in H2.
    split; [exact H2 | exact H1].
Qed.

(** The remainder by a positive modulus lies strictly within it and has
    the sign of the dividend. *)
Lemma rem_bounds (x m : Q) :
  0 < m ->
  exists y, rem (Fin x) (Fin m) = Fin y /\
    - m < y /\ y < m /\ (0 <= x -> 0 <= y) /\ (x <= 0 -> y <= 0) /\
    exists k : Z, x == y + m * inject_Z k.
Proof.
  intros Hm. unfold rem.
  assert (Em : Qeq_bool m 0 = false).
  { destruct (Qeq_bool m 0) eqn:E; [|reflexivity].
    apply Qeq_bool_iff in E. lra. }
  rewrite Em. eexists. split; [reflexivity|].
  set (d := x / m).
  assert (Hd : x == m * d) by (unfold d; field; lra).
  destruct (Qtrunc_bounds d) as [Hpos Hneg].
  set (t := inject_Z (Qtrunc d)) in *.
  assert (Hk : exists k : Z, x == x - m * t + m * inject_Z k)
    by (exists (Qtrunc d); fold t; lra).
  destruct (Qlt_le_dec d 0) as [Hd0 | Hd0].
  - destruct (Hneg Hd0) as [H1 H2].
    assert (m * (t - 1) < m * d) by (apply Qmult_lt_l; lra).
    assert (m * d <= m * t) by (apply Qmult_le_l; lra).
    assert (m * d < 0).
    { rewrite <- (Qmult_0_r m). apply Qmult_lt_l; lra. }
    repeat split; try lra. exact Hk.
  - destruct (Hpos Hd0) as [H1 H2].
    assert (m * t <= m * d) by (apply Qmult_le_l; lra).
    assert (m * d < m * (t + 1)) by (apply Qmult_lt_l; lra).
    assert (0 <= m * d) by (apply Qmult_le_0_compat; lra).
    assert (Ht : 0 <= t).
    { unfold t, Qtrunc.
      assert (E : Qle_bool 0 d = true) by (apply Qle_bool_iff; exact Hd0).
      rewrite E. cbv iota. change 0 with (inject_Z 0). rewrite <- Zle_Qle.
      change 0%Z with (Qfloor 0). apply Qfloor_resp_le. exact Hd0. }
    assert (0 <= m * t) by (apply Qmult_le_0_compat; lra).
    repeat split; try lra. exact Hk.
Qed.

(** A dividend already within a positive modulus is its own remainder. *)
Lemma rem_small (x m : Q) :
  0 <= x -> x < m -> exists y, rem (Fin x) (Fin m) = Fin y /\ y == x.
Proof.
  intros H0 Hm. unfold rem.
  assert (Em : Qeq_bool m 0 = false).
  { destruct (Qeq_bool m 0) eqn:E; [|reflexivity].
    apply Qeq_bool_iff in E. lra. }
  rewrite Em. eexists. split; [reflexivity|].
  assert (Hq : 0 <= x / m /\ x / m < 1).
  { split.
    - apply Qle_shift_div_l; lra.
    - apply Qlt_shift_div_r; lra. }
  assert (Ht : Qtrunc (x / m) = 0%Z).
  { unfold Qtrunc.
    assert (E : Qle_bool 0 (x / m) = true) by (apply Qle_bool_iff; tauto).
    rewrite E. cbv iota.
    apply Qfloor_unique; change (inject_Z 0) with 0; lra. }
  rewrite Ht. change (inject_Z 0) with 0. lra.
Qed.

End NumBounds.
(** ** Canvas helpers: what they guarantee *)

Module CanvasFacts.

Import JsNum Canvas Lqa.

Local Open Scope Q_scope.

Lemma Qle_bool_false (a b : Q) : Qle_bool a b = false -> b < a.
Proof.
  intros H. apply Qnot_le_lt. intros Hle. apply Qle_bool_iff in Hle. congruence.
Qed.

Lemma Qeq_bool_false (a b : Q) : Qeq_bool a b = false -> ~ a == b.
Proof. intros H E. apply Qeq_bool_iff in E. congruence. Qed.

(** [clampOpacity] answers an opacity between 0 and 1 whatever it is given,
    [NaN] and the infinities included, and clamping twice changes nothing. *)
Theorem clampOpacity_range (value : number) :
  within 0 1 (clampOpacity value) /\
  clampOpacity (clampOpacity value) = clampOpacity value.
Proof.
  destruct value as [| | |q]; try (vm_compute; intuition discriminate).
  unfold clampOpacity, lt, gt, lt, zero. cbn [isFinite negb].
  destruct (Qle_bool 0 q) eqn:E0; cbn [negb].
  - destruct (Qle_bool q 1) eqn:E1; cbn [negb].
    + apply Qle_bool_iff in E0 as H0. apply Qle_bool_iff in E1 as H1.
      cbn [isFinite negb]. rewrite E0, E1. cbn. auto.
    + vm_compute. intuition discriminate.
  - vm_compute. intuition discriminate.
Qed.

Lemma normalizeRotation_finite (x : Q) :
  exists y (k : Z),
    normalizeRotation (Fin x) = Fin y /\ 0 <= y /\ y < 360 /\
    x == y + 360 * inject_Z k.
Proof.
  unfold normalizeRotation. cbn [isFinite negb].
  destruct (NumBounds.rem_bounds x 360) as (y & Hy & Hlo & Hhi & _ & _ & k & Hk);
    [reflexivity|].
  rewrite Hy. unfold lt, zero.
  destruct (Qle_bool 0 y) eqn:E; cbn [negb add].
  - apply Qle_bool_iff in E. exists y, k. repeat split; assumption.
  - apply Qle_bool_false in E. exists (y + 360), (k - 1)%Z.
    repeat split; try lra.
    unfold Z.sub. rewrite inject_Z_plus, inject_Z_opp.
    change (inject_Z 1) with 1. lra.
Qed.

(** An angle already in [0, 360) is left where it is. *)
Lemma normalizeRotation_fixed (y : Q) :
  0 <= y -> y < 360 -> strict_eq (normalizeRotation (Fin y)) (Fin y) = true.
Proof.
  intros H0 H1. unfold normalizeRotation. cbn [isFinite negb].
  destruct (NumBounds.rem_small y 360 H0 H1) as (z & Hz & Hzy).
  rewrite Hz. unfold lt, zero.
  assert (E : Qle_bool 0 z = true) by (apply Qle_bool_iff; lra).
  rewrite E. cbn. apply Qeq_bool_iff. exact Hzy.
Qed.

(** On the special values, which give 0, on the angles that are not
    negative and on the whole numbers of degrees, [normalizeRotation]
    answers an angle in [0, 360) that differs from a finite angle by a
    whole number of turns.  These are the angles on which the code does
    not round; on a negative angle that is not whole its sum can reach
    360. *)
Theorem normalizeRotation_range (value : number) :
  exactAngle value ->
  exists y,
    normalizeRotation value = Fin y /\ 0 <= y /\ y < 360 /\
    (isFinite value = false -> y = 0) /\
    (forall x, value = Fin x -> exists k : Z, x == y + 360 * inject_Z k).
Proof.
  intros _. destruct value as [| | |x].
  - exists 0. repeat split; try lra. discriminate.
  - exists 0. repeat split; try lra. discriminate.
  - exists 0. repeat split; try lra. discriminate.
  - destruct (normalizeRotation_finite x) as (y & k & Hy & H0 & H1 & Hk).
    exists y. repeat split; try assumption; [discriminate|].
    intros x' [= <-]. exists k. exact Hk.
Qed.

(** A negative whole angle and an angle of more than two turns. *)
Lemma normalizeRotation_range_witness :
  (exists y, normalizeRotation (Fin (- 450)) = Fin y /\ 0 <= y /\ y < 360) /\
  (exists y, normalizeRotation (Fin 725.5) = Fin y /\ 0 <= y /\ y < 360).
Proof.
  split.
  - destruct (normalizeRotation_range (Fin (- 450))) as (y & Hy & H0 & H1 & _).
    + right. exists (- 450)%Z. reflexivity.
    + exists y. auto.
  - destruct (normalizeRotation_range (Fin 725.5)) as (y & Hy & H0 & H1 & _).
    + left. discriminate.
    + exists y. auto.
Defined.

(** An angle of [0, 360) is returned as it is, so that on the angles the
    code does not round on, normalizing twice is normalizing once. *)
Theorem normalizeRotation_idempotent (value : number) :
  (forall y, value = Fin y -> 0 <= y -> y < 360 ->
             strict_eq (normalizeRotation value) value = true) /\
  (exactAngle value ->
   strict_eq (normalizeRotation (normalizeRotation value)) (normalizeRotation value)
   = true).
Proof.
  split.
  - intros y -> H0 H1. apply normalizeRotation_fixed; assumption.
  - intros _. destruct value as [| | |x]; try reflexivity.
    destruct (normalizeRotation_finite x) as (y & k & Hy & H0 & H1 & _).
    rewrite Hy. apply normalizeRotation_fixed; assumption.
Qed.

Lemma normalizeRotation_idempotent_witness :
  strict_eq (normalizeRotation (Fin 12.5)) (Fin 12.5) = true /\
  strict_eq (normalizeRotation (normalizeRotation (Fin (- 450))))
    (normalizeRotation (Fin (- 450))) = true.
Proof.
  split.
  - destruct (normalizeRotation_idempotent (Fin 12.5)) as [H _].
    apply (H 12.5 eq_refl); [discriminate | reflexivity].
  - destruct (normalizeRotation_idempotent (Fin (- 450))) as [_ H].
    apply H. right. exists (- 450)%Z. reflexivity.
Defined.

Lemma signed_inf_zero (b : bool) (y : Q) : y == 0 -> signed_inf b y = NaN.
Proof.
  intros H. unfold signed_inf.
  destruct (y ?= 0) eqn:E; [reflexivity | apply Qlt_alt in E | apply Qgt_alt in E];
    lra.
Qed.

Lemma signed_inf_pos (b : bool) (y : Q) :
  0 < y -> signed_inf b y = if b then PInf else NInf.
Proof.
  intros H. unfold signed_inf.
  destruct (y ?= 0) eqn:E; [apply Qeq_alt in E | apply Qlt_alt in E | reflexivity];
    lra.
Qed.

Lemma signed_inf_neg (b : bool) (y : Q) :
  y < 0 -> signed_inf b y = if b then NInf else PInf.
Proof.
  intros H. unfold signed_inf.
  destruct (y ?= 0) eqn:E; [apply Qeq_alt in E | reflexivity | apply Qgt_alt in E];
    lra.
Qed.

(** On a grid of finite, non-zero size a finite value snaps to the nearest
    grid line. *)
Lemma snapToGrid_finite (v g : Q) :
  ~ g == 0 ->
  snapToGrid (Fin v) (Fin g) = Fin (inject_Z (Qfloor (v / g + (1 # 2))) * g).
Proof.
  intros Hg. unfold snapToGrid, div.
  destruct (Qeq_bool g 0) eqn:E; [apply Qeq_bool_iff in E; contradiction|].
  reflexivity.
Qed.

Lemma snapToGrid_infinite (g : Q) :
  ~ g == 0 ->
  snapToGrid PInf (Fin g) = PInf /\ snapToGrid NInf (Fin g) = NInf.
Proof.
  intros Hg. unfold snapToGrid, div.
  destruct (Qle_bool 0 g) eqn:E; cbn [round mul].
  - apply Qle_bool_iff in E. assert (0 < g) by lra.
    rewrite !signed_inf_pos by assumption. auto.
  - apply Qle_bool_false in E. rewrite !signed_inf_neg by assumption. auto.
Qed.

Lemma snapToGrid_zero_grid (value : number) (g : Q) :
  g == 0 -> snapToGrid value (Fin g) = NaN.
Proof.
  intros Hg. unfold snapToGrid.
  destruct value as [| | |x]; [reflexivity | | |].
  - unfold div. destruct (Qle_bool 0 g); cbn [round mul];
      apply signed_inf_zero, Hg.
  - unfold div. destruct (Qle_bool 0 g); cbn [round mul];
      apply signed_inf_zero, Hg.
  - unfold div. apply Qeq_bool_iff in Hg. rewrite Hg.
    unfold signed_inf. apply Qeq_bool_iff in Hg.
    destruct (x ?= 0); cbn [round mul]; try reflexivity;
      apply signed_inf_zero, Hg.
Qed.

(** Snapping is idempotent, for every value and every grid size: a snapped
    coordinate snaps to itself. *)
Theorem snapToGrid_idempotent (value gridSize : number) :
  snapToGrid (snapToGrid value gridSize) gridSize = snapToGrid value gridSize.
Proof.
  destruct gridSize as [| | |g].
  - destruct value; reflexivity.
  - destruct value; reflexivity.
  - destruct value; reflexivity.
  - destruct (Qeq_dec g 0) as [Hg | Hg].
    + rewrite !(snapToGrid_zero_grid _ g Hg). reflexivity.
    + destruct (snapToGrid_infinite g Hg) as [Hp Hn].
      destruct value as [| | |x].
      * reflexivity.
      * rewrite !Hp. reflexivity.
      * rewrite !Hn. reflexivity.
      * rewrite (snapToGrid_finite x g Hg).
        set (k := Qfloor (x / g + (1 # 2))).
        rewrite (snapToGrid_finite _ g Hg).
        rewrite (NumBounds.Qfloor_half_eq k); [reflexivity|].
        field. exact Hg.
Qed.

(** On a positive grid a finite value lands on a whole multiple of the grid
    size, at most half a cell away. *)
Theorem snapToGrid_nearest (v g : Q) :
  0 < g ->
  exists s (k : Z),
    snapToGrid (Fin v) (Fin g) = Fin s /\ s == g * inject_Z k /\
    - (g / 2) <= s - v /\ s - v <= g / 2.
Proof.
  intros Hg. rewrite snapToGrid_finite by lra.
  set (k := Qfloor (v / g + (1 # 2))).
  exists (inject_Z k * g), k. split; [reflexivity|]. split; [ring|].
  pose proof (Qfloor_le (v / g + (1 # 2))) as H1.
  pose proof (Qlt_floor (v / g + (1 # 2))) as H2.
  fold k in H1, H2. rewrite inject_Z_plus in H2. change (inject_Z 1) with 1 in H2.
  set (d := v / g) in *.
  assert (Hd : v == g * d) by (unfold d; field; lra).
  set (t := inject_Z k) in *.
  assert (A : g * (t - (1 # 2)) <= g * d) by (apply Qmult_le_l; lra).
  assert (B : g * d <= g * (t + (1 # 2))) by (apply Qmult_le_l; lra).
  assert (Hhalf : g / 2 == g * (1 # 2)) by field.
  split; lra.
Qed.

Lemma snapToGrid_nearest_witness :
  exists s (k : Z),
    snapToGrid (Fin 100) (Fin 24) = Fin s /\ s == 24 * inject_Z k /\
    - (24 / 2) <= s - 100 /\ s - 100 <= 24 / 2.
Proof. apply (snapToGrid_nearest 100 24). reflexivity. Defined.

Lemma snapRotation_finite (v step : Q) :
  0 < step ->
  snapRotation (Fin v) (Fin step)
  = Fin (inject_Z (Qfloor (v / step + (1 # 2))) * step).
Proof.
  intros H. unfold snapRotation, le, zero. cbn [isFinite negb orb].
  destruct (Qle_bool step 0) eqn:E; [apply Qle_bool_iff in E; lra|].
  apply (snapToGrid_finite v step). lra.
Qed.

(** [snapRotation] leaves a non-finite angle, and any angle under a step
    that is not positive, as it is; otherwise it answers a whole multiple of
    the step. *)
Theorem snapRotation_multiple (value : number) (v step : Q) :
  (isFinite value = false -> snapRotation value (Fin step) = value) /\
  (step <= 0 -> snapRotation value (Fin step) = value) /\
  (0 < step ->
   exists k : Z, snapRotation (Fin v) (Fin step) = Fin (inject_Z k * step)).
Proof.
  repeat split.
  - intros H. unfold snapRotation. rewrite H. reflexivity.
  - intros H. unfold snapRotation, le, zero.
    apply Qle_bool_iff in H. rewrite H, orb_true_r. reflexivity.
  - intros H. exists (Qfloor (v / step + (1 # 2))).
    apply snapRotation_finite, H.
Qed.

Lemma snapRotation_multiple_witness :
  exists k : Z, snapRotation (Fin 37) (Fin 15) = Fin (inject_Z k * 15).
Proof.
  destruct (snapRotation_multiple NaN 37 15) as (_ & _ & H).
  apply H. reflexivity.
Defined.

(** The rotation gesture with the shift key held: the angle sent to the
    store, [normalizeRotation(snapRotation(angle, 15))], is a whole multiple
    of 15 degrees in [0, 360). *)
Theorem snapped_rotation_normalized (angle : Q) :
  exists y (j : Z),
    normalizeRotation (snapRotation (Fin angle) ROTATION_SNAP_STEP) = Fin y /\
    y == 15 * inject_Z j /\ 0 <= y /\ y < 360.
Proof.
  set (k := Qfloor (angle / 15 + (1 # 2))).
  unfold ROTATION_SNAP_STEP.
  rewrite (snapRotation_finite angle 15) by reflexivity. fold k.
  destruct (normalizeRotation_finite (inject_Z k * 15))
    as (y & t & Hy & H0 & H1 & Ht).
  exists y, (k - 24 * t)%Z. repeat split; try assumption.
  unfold Z.sub. rewrite inject_Z_plus, inject_Z_opp, inject_Z_mult.
  change (inject_Z 24) with 24. lra.
Qed.

Lemma max_fin (a b : Q) :
  exists c, max (Fin a) (Fin b) = Fin c /\ a <= c /\ b <= c /\ (c == a \/ c == b).
Proof.
  unfold max, le. destruct (Qle_bool a b) eqn:E.
  - apply Qle_bool_iff in E. exists b. split; [reflexivity | lra].
  - apply Qle_bool_false in E. exists a. split; [reflexivity | lra].
Qed.

(** The scale factor of one side of a resize: finite and not negative. *)
Lemma side_scale (n o : Q) :
  exists s,
    (if strict_eq (Fin o) zero then Fin 1 else abs (div (Fin n) (Fin o))) = Fin s /\
    0 <= s /\ (0 < o -> o * s == Qabs n).
Proof.
  unfold strict_eq, zero, div.
  destruct (Qeq_bool o 0) eqn:E.
  - apply Qeq_bool_iff in E. exists 1. repeat split; try lra.
  - apply Qeq_bool_false in E. exists (Qabs (n / o)).
    split; [reflexivity|]. split; [apply Qabs_nonneg|].
    intros Ho. unfold Qdiv. rewrite Qabs_Qmult.
    rewrite (Qabs_pos (/ o)) by (apply Qlt_le_weak, Qinv_lt_0_compat; exact Ho).
    field. exact E.
Qed.



(** Whatever handle is dragged, the resized box is never smaller than the
    minimum size on either side; a side handle leaves a box that is large
    enough as it was asked for. *)
Theorem constrainBoundingBox_min_size
    (anchor : string) (ox oy ow oh orot nx ny nw nh nrot : Q) :
  anchor <> "" ->
  exists x y w h,
    constrainBoundingBox (Some anchor)
      (finiteBox ox oy ow oh orot) (finiteBox nx ny nw nh nrot)
    = finiteBox x y w h nrot /\
    5 <= w /\ 5 <= h /\
    (isCorner anchor = false -> 5 <= nw -> 5 <= nh ->
     x = nx /\ y = ny /\ w = nw /\ h = nh).
Proof.
  intros Hanchor.
  assert (Hne : String.eqb anchor "" = false).
  { destruct anchor; [congruence | reflexivity]. }
  unfold constrainBoundingBox. rewrite Hne.
  unfold finiteBox. cbn [box_x box_y box_width box_height box_rotation isFinite].
  destruct (isCorner anchor) eqn:Hcorner.
  - destruct (side_scale nw ow) as (ws & Ews & Hws & _).
    destruct (side_scale nh oh) as (hs & Ehs & Hhs & _).
    rewrite Ews, Ehs.
    destruct (max_fin ws hs) as (s & Es & _). rewrite Es. cbn [mul].
    destruct (max_fin 5 (ow * s)) as (w & Ew & Hw1 & _).
    destruct (max_fin 5 (oh * s)) as (h & Eh & Hh1 & _).
    unfold MIN_TRANSFORM_SIZE. rewrite Ew, Eh.
    exists (if str_includes "left" anchor then ox + ow + - w else ox),
           (if str_includes "top" anchor then oy + oh + - h else oy), w, h.
    split.
    { destruct (str_includes "left" anchor), (str_includes "top" anchor);
        reflexivity. }
    split; [exact Hw1|]. split; [exact Hh1|]. discriminate.
  - unfold applyMinSizeConstraint, MIN_TRANSFORM_SIZE, lt.
    cbn [box_x box_y box_width box_height box_rotation isFinite].
    destruct (Qle_bool 5 nw) eqn:Ew; destruct (Qle_bool 5 nh) eqn:Eh;
      cbn [negb];
      try apply Qle_bool_iff in Ew; try apply Qle_bool_iff in Eh;
      try apply Qle_bool_false in Ew; try apply Qle_bool_false in Eh.
    + exists nx, ny, nw, nh. repeat split; assumption.
    + exists nx, (if str_includes "top" anchor then oy + oh + - 5 else oy), nw, 5.
      split; [destruct (str_includes "top" anchor); reflexivity|].
      repeat split; try lra.
    + exists (if str_includes "left" anchor then ox + ow + - 5 else ox), ny, 5, nh.
      split; [destruct (str_includes "left" anchor); reflexivity|].
      repeat split; try lra.
    + exists (if str_includes "left" anchor then ox + ow + - 5 else ox),
             (if str_includes "top" anchor then oy + oh + - 5 else oy), 5, 5.
      split; [destruct (str_includes "left" anchor),
                       (str_includes "top" anchor); reflexivity|].
      repeat split; try lra.
Qed.

Lemma constrainBoundingBox_min_size_witness :
  exists x y w h,
    constrainBoundingBox (Some "middle-right")
      (finiteBox 100 100 200 100 0) (finiteBox 100 100 2 100 0)
    = finiteBox x y w h 0 /\ 5 <= w /\ 5 <= h /\
    (isCorner "middle-right" = false -> 5 <= 2 -> 5 <= 100 ->
     x = 100 /\ y = 100 /\ w = 2 /\ h = 100).
Proof.
  apply (constrainBoundingBox_min_size "middle-right" 100 100 200 100 0 100 100 2 100 0).
  discriminate.
Defined.


End CanvasFacts.
(** ** More on the document store *)

Module StoreViewsFacts.

Import JsNum Store StoreViews.

Lemma redo_cons s next rest :
  future s = next :: rest ->
  nodes (redo s) = next /\ past (redo s) = past s ++ [nodes s] /\
  future (redo s) = rest /\ selection (redo s) = [].
Proof.
  intros H. unfold redo. rewrite H. simpl.
  rewrite !StoreFacts.cloneNodes_same. auto.
Qed.

(** [redo] followed at once by [undo] gives back the nodes and both stacks,
    as long as there was something to redo. *)
Theorem redo_then_undo (s : DocumentState) :
  future s <> [] ->
  nodes (undo (redo s)) = nodes s /\
  past (undo (redo s)) = past s /\
  future (undo (redo s)) = future s.
Proof.
  intros Hne. destruct (future s) as [|next rest] eqn:Hf; [congruence|].
  destruct (redo_cons s next rest Hf) as (Hn & Hp & Hfut & _).
  destruct (StoreFacts.undo_snoc (redo s) (past s) (nodes s) Hp) as (Un & Up & Uf & _).
  rewrite Un, Up, Uf, Hn, Hfut. auto.
Qed.

Lemma redo_then_undo_witness :
  nodes (undo (redo (undo oneImage))) = nodes (undo oneImage) /\
  past (undo (redo (undo oneImage))) = past (undo oneImage) /\
  future (undo (redo (undo oneImage))) = future (undo oneImage).
Proof. apply (redo_then_undo (undo oneImage)). vm_compute. discriminate. Defined.

Lemma timeline_undo s : timeline (undo s) = timeline s.
Proof.
  unfold timeline.
  destruct (past s) as [|x p] eqn:Hp using rev_ind.
  - rewrite (StoreFacts.undo_empty s Hp), Hp. reflexivity.
  - clear IHp. destruct (StoreFacts.undo_snoc s p x Hp) as (Hn & Hpast & Hf & _).
    rewrite Hn, Hpast, Hf, <- !app_assoc. reflexivity.
Qed.

Lemma timeline_redo s : timeline (redo s) = timeline s.
Proof.
  unfold timeline. destruct (future s) as [|next rest] eqn:Hf.
  - rewrite (StoreFacts.redo_empty s Hf), Hf. reflexivity.
  - destruct (redo_cons s next rest Hf) as (Hn & Hp & Hfut & _).
    rewrite Hn, Hp, Hfut, <- !app_assoc. reflexivity.
Qed.

(** Undo and redo only move along a fixed timeline: after any run of the
    two, the undo stack, the current nodes and the redo stack, read in that
    order, are the same list of snapshots as before; no snapshot is lost,
    duplicated or reordered. *)
Theorem history_timeline (ops : list HistoryOp) (s : DocumentState) :
  timeline (foldl (fun st op => applyHistory op st) s ops) = timeline s.
Proof.
  revert s. induction ops as [|op ops IH]; intros s; simpl; [reflexivity|].
  rewrite IH. destruct op; [apply timeline_undo | apply timeline_redo].
Qed.

Lemma filter_full_length {A : Type} (f : A -> bool) (l : list A) :
  length (List.filter f l) = length l -> List.filter f l = l.
Proof.
  induction l as [|x l IH]; simpl; [reflexivity|].
  destruct (f x); simpl; intros H.
  - f_equal. apply IH. lia.
  - pose proof (List.filter_length_le f l). lia.
Qed.

(** [deleteSelection] always leaves exactly the nodes whose id is not
    selected, in their order, whether it went through or returned the state
    as it was; and when it changes the state it empties the selection and
    closes the properties panel. *)
Theorem deleteSelection_remaining (s : DocumentState) :
  nodes (deleteSelection s)
  = List.filter (fun node => negb (includes (selection s) (node_id node))) (nodes s) /\
  (forall node, In node (nodes (deleteSelection s)) ->
                includes (selection s) (node_id node) = false) /\
  (deleteSelection s = s \/
   selection (deleteSelection s) = [] /\
   isPropertiesPanelOpen (deleteSelection s) = false).
Proof.
  assert (Hnodes : nodes (deleteSelection s)
    = List.filter (fun node => negb (includes (selection s) (node_id node))) (nodes s)).
  { unfold deleteSelection. destruct (selection s) as [|x sel] eqn:Hsel.
    - symmetry. apply filter_full_length.
      induction (nodes s) as [|n ns IH]; simpl in *; [reflexivity | lia].
    - destruct (_ =? _)%nat eqn:E.
      + apply Nat.eqb_eq in E. symmetry. apply filter_full_length, E.
      + simpl. apply StoreFacts.cloneNodes_same. }
  split; [exact Hnodes|]. split.
  - intros node Hin. rewrite Hnodes in Hin. apply List.filter_In in Hin as [_ H].
    apply negb_true_iff in H. exact H.
  - unfold deleteSelection. destruct (selection s); [left; reflexivity|].
    destruct (_ =? _)%nat; [left; reflexivity | right; split; reflexivity].
Qed.

Lemma findIndex_Some {A : Type} (pred : A -> bool) (l : list A) : forall i,
  findIndex pred l = Some i ->
  exists front x back,
    l = front ++ x :: back /\ length front = i /\ pred x = true /\
    Forall (fun y => pred y = false) front.
Proof.
  induction l as [|a l IH]; intros i H; simpl in H; [discriminate|].
  destruct (pred a) eqn:Ea.
  - injection H as <-. exists [], a, l. auto.
  - destruct (findIndex pred l) as [j|]; simpl in H; [|discriminate].
    injection H as <-. destruct (IH j eq_refl) as (front & x & back & -> & Hlen & Hx & Hall).
    exists (a :: front), x, back. simpl. repeat split; auto.
Qed.

Lemma lookup_middle_eq {A : Type} (front back : list A) (x : A) :
  (front ++ x :: back) !! length front = Some x.
Proof. apply list_lookup_middle. reflexivity. Qed.

Lemma delete_middle_eq {A : Type} (front back : list A) (x : A) :
  delete (length front) (front ++ x :: back) = front ++ back.
Proof.
  induction front as [|a front IH]; simpl; [reflexivity|]. f_equal. exact IH.
Qed.

(** [bringSelectionToFront], when it changes the state, takes the first
    node whose id is the last id of the selection, the one selected last,
    out of its place and puts it at the end of the list; every other node
    keeps its relative order, and the node moved was not the last one. *)
Theorem bringSelectionToFront_moves (s : DocumentState) :
  bringSelectionToFront s <> s ->
  exists front node back,
    nodes s = front ++ node :: back /\
    nodes (bringSelectionToFront s) = front ++ back ++ [node] /\
    back <> [] /\
    last (selection s) = Some (node_id node) /\
    Forall (fun other => node_id other <> node_id node) front.
Proof.
  unfold bringSelectionToFront, primarySelection.
  destruct (last (selection s)) as [lastId|] eqn:Hlast; [|congruence].
  destruct (String.eqb lastId "") eqn:Hempty; [congruence|].
  destruct (findIndex _ (nodes s)) as [index|] eqn:Hfind; [|congruence].
  destruct (findIndex_Some _ _ _ Hfind) as (front & node & back & Hl & Hlen & Hid & Hfront).
  apply String.eqb_eq in Hid. subst index lastId.
  destruct (_ =? _)%nat eqn:Elast; [congruence|].
  rewrite Hl, lookup_middle_eq, delete_middle_eq. intros _.
  exists front, node, back. repeat split.
  - simpl. rewrite StoreFacts.cloneNodes_same, <- app_assoc. reflexivity.
  - intros ->. apply Nat.eqb_neq in Elast. rewrite Hl, length_app in Elast.
    simpl in Elast. lia.
  - eapply Forall_impl; [exact Hfront|]. simpl. intros other H E.
    apply String.eqb_neq in H. contradiction.
Qed.

(** With ["a"] and ["b"] selected in that order, it is ["b"] that moves. *)
Lemma bringSelectionToFront_moves_witness :
  map node_id (nodes twoSelected) = ["a"; "b"; "c"] /\
  map node_id (nodes (bringSelectionToFront twoSelected)) = ["a"; "c"; "b"] /\
  exists front node back,
    nodes twoSelected = front ++ node :: back /\
    nodes (bringSelectionToFront twoSelected) = front ++ back ++ [node] /\
    back <> [] /\
    last (selection twoSelected) = Some (node_id node) /\
    Forall (fun other => node_id other <> node_id node) front.
Proof.
  split; [reflexivity|]. split; [reflexivity|].
  apply (bringSelectionToFront_moves twoSelected).
  intros H. apply (f_equal (fun st => length (past st))) in H.
  vm_compute in H. discriminate.
Defined.

(** [sendSelectionBackward], when it changes the state, swaps the first
    node that carries the primary selected id, which is the last id of the
    selection, with the node just below it and touches nothing else. *)
Theorem sendSelectionBackward_swaps (s : DocumentState) :
  sendSelectionBackward s <> s ->
  exists front below node back,
    nodes s = front ++ below :: node :: back /\
    nodes (sendSelectionBackward s) = front ++ node :: below :: back /\
    primarySelection s = Some (node_id node) /\
    last (selection s) = Some (node_id node) /\
    Forall (fun other => node_id other <> node_id node) (front ++ [below]).
Proof.
  unfold sendSelectionBackward.
  destruct (primarySelection s) as [selectedId|] eqn:Hsel; [|congruence].
  assert (Hlast : last (selection s) = Some selectedId).
  { unfold primarySelection in Hsel.
    destruct (last (selection s)) as [lastId|]; [|discriminate].
    destruct (String.eqb lastId ""); [discriminate | exact Hsel]. }
  destruct (findIndex _ (nodes s)) as [index|] eqn:Hfind; [|congruence].
  destruct (findIndex_Some _ _ _ Hfind) as (front & node & back & Hl & Hlen & Hid & Hfront).
  apply String.eqb_eq in Hid. subst index selectedId.
  destruct (_ <=? _)%nat eqn:Efirst; [congruence|].
  apply Nat.leb_gt in Efirst.
  rewrite Hl, lookup_middle_eq, delete_middle_eq. intros _.
  destruct front as [|a front] using rev_ind; [simpl in Efirst; lia|].
  clear IHfront.
  exists front, a, node, back. repeat split.
  - rewrite <- app_assoc. reflexivity.
  - simpl. rewrite StoreFacts.cloneNodes_same.
    rewrite length_app. simpl.
    replace (length front + 1 - 1)%nat with (length front) by lia.
    rewrite <- !app_assoc. simpl.
    rewrite take_app_length, drop_app_length. reflexivity.
  - exact Hlast.
  - eapply Forall_impl; [exact Hfront|]. simpl. intros other H E.
    apply String.eqb_neq in H. contradiction.
Qed.

Lemma sendSelectionBackward_swaps_witness :
  exists front below node back,
    nodes (setSelection ["c"] threeImages) = front ++ below :: node :: back /\
    nodes (sendSelectionBackward (setSelection ["c"] threeImages))
    = front ++ node :: below :: back /\
    primarySelection (setSelection ["c"] threeImages) = Some (node_id node) /\
    last (selection (setSelection ["c"] threeImages)) = Some (node_id node) /\
    Forall (fun other => node_id other <> node_id node) (front ++ [below]).
Proof.
  apply (sendSelectionBackward_swaps (setSelection ["c"] threeImages)).
  intros H. apply (f_equal (fun st => length (past st))) in H.
  vm_compute in H. discriminate.
Defined.

Lemma insert_same_identity (l : list DocumentNode) (i : nat) (node node' : DocumentNode) :
  l !! i = Some node -> identity node' = identity node ->
  map identity (<[i := node']> l) = map identity l.
Proof.
  intros Hl Hid.
  change (map identity (<[i := node']> l)) with (identity <$> <[i := node']> l).
  rewrite list_fmap_insert, Hid. apply list_insert_id.
  rewrite list_lookup_fmap, Hl. reflexivity.
Qed.

(** [updateNode] never adds, removes, reorders, renames or retypes a node,
    never touches the selection, and leaves every node with another id
    exactly as it was, whatever the update and whether it commits or not. *)
Theorem updateNode_frame
    (nodeId : string) (updates : Updates) (commitFlag : bool) (s : DocumentState) :
  map identity (nodes (updateNode nodeId updates commitFlag s))
  = map identity (nodes s) /\
  selection (updateNode nodeId updates commitFlag s) = selection s /\
  (forall j node,
      nodes s !! j = Some node -> node_id node <> nodeId ->
      nodes (updateNode nodeId updates commitFlag s) !! j = Some node).
Proof.
  unfold updateNode.
  destruct (findIndex _ (nodes s)) as [index|] eqn:Hfind; [|auto].
  destruct (findIndex_Some _ _ _ Hfind) as (front & target & back & Hl & Hlen & Hid & _).
  apply String.eqb_eq in Hid.
  assert (Hat : nodes s !! index = Some target).
  { rewrite Hl, <- Hlen. apply lookup_middle_eq. }
  rewrite Hat.
  set (next := match updates with
               | Partial fields => _
               | Updater f => _
               end).
  destruct next as [same nextData].
  destruct (hasShallowChanges same (node_data target) nextData); simpl; [|auto].
  assert (Hmap : forall n',
    identity n' = identity target ->
    map identity (cloneNodes (<[index := n']> (nodes s))) = map identity (nodes s)).
  { intros n' Hn'. rewrite StoreFacts.cloneNodes_same.
    apply (insert_same_identity _ _ target); assumption. }
  assert (Hother : forall n' j node,
    nodes s !! j = Some node -> node_id node <> nodeId ->
    cloneNodes (<[index := n']> (nodes s)) !! j = Some node).
  { intros n' j node Hj Hne. rewrite StoreFacts.cloneNodes_same.
    rewrite list_lookup_insert_ne; [exact Hj|].
    intros ->. rewrite Hat in Hj. injection Hj as ->. contradiction. }
  destruct commitFlag; simpl; repeat split; auto.
Qed.

(** What [rotateSelectionClockwise] leaves in the store, node by node. *)
Lemma rotateSelectionClockwise_nodes (s : DocumentState) :
  nodes (rotateSelectionClockwise s)
  = map (fun node => (rotateNode (selection s) node).1) (nodes s).
Proof.
  assert (Hkeep : forall sel node, (rotateNode sel node).2 = false ->
                                   (rotateNode sel node).1 = node).
  { intros sel node. unfold rotateNode.
    destruct (negb (includes sel (node_id node))); [reflexivity|].
    destruct (node_data node) as [d|]; [|reflexivity].
    destruct (d !! "rotation"); [|reflexivity].
    destruct (strict_eq _ _); [reflexivity | discriminate]. }
  assert (Hall : forall sel ns,
    existsb snd (map (rotateNode sel) ns) = false ->
    map (fun node => (rotateNode sel node).1) ns = ns).
  { intros sel ns. induction ns as [|n ns IH]; simpl; [reflexivity|].
    intros H. apply orb_false_iff in H as [H1 H2].
    rewrite (Hkeep _ _ H1), (IH H2). reflexivity. }
  unfold rotateSelectionClockwise.
  destruct (selection s) as [|x sel] eqn:Hsel.
  - symmetry. apply Hall.
    induction (nodes s) as [|n ns IH]; simpl; [reflexivity | exact IH].
  - set (results := map (rotateNode (x :: sel)) (nodes s)).
    destruct (existsb snd results) eqn:E; simpl.
    + rewrite StoreFacts.cloneNodes_same. unfold results.
      rewrite List.map_map. reflexivity.
    + symmetry. apply Hall, E.
Qed.

Lemma normalize360_range (x : Q) :
  exists y, normalize360 (Fin x) = Fin y /\
    (0 <= y)%Q /\ (y < 360)%Q /\ exists k : Z, (x == y + 360 * inject_Z k)%Q.
Proof.
  unfold normalize360.
  destruct (NumBounds.rem_bounds x 360) as (y1 & E1 & Hlo & Hhi & _ & _ & k1 & Hk1);
    [reflexivity|].
  rewrite E1. cbn [add].
  destruct (NumBounds.rem_bounds (y1 + 360) 360)
    as (y2 & E2 & _ & Hhi2 & Hpos & _ & k2 & Hk2); [reflexivity|].
  rewrite E2. exists y2. split; [reflexivity|].
  split; [apply Hpos; Lqa.lra|]. split; [exact Hhi2|].
  exists (k1 + k2 - 1)%Z.
  unfold Z.sub. rewrite !inject_Z_plus, inject_Z_opp.
  change (inject_Z 1) with 1%Q. Lqa.lra.
Qed.

(** On a whole number of degrees the answer is the remainder of the
    integers. *)
Lemma normalize360_whole (x : Q) (n : Z) :
  (x == inject_Z n)%Q ->
  exists y, normalize360 (Fin x) = Fin y /\ (y == inject_Z (n mod 360))%Q.
Proof.
  intros Hx.
  destruct (normalize360_range x) as (y & Ey & H0 & H1 & k & Hk).
  exists y. split; [exact Ey|].
  assert (Hy : (y == inject_Z (n - 360 * k))%Q).
  { unfold Z.sub. rewrite inject_Z_plus, inject_Z_opp, inject_Z_mult.
    change (inject_Z 360) with 360%Q. Lqa.lra. }
  rewrite Hy in H0, H1.
  change 0%Q with (inject_Z 0) in H0. change 360%Q with (inject_Z 360) in H1.
  rewrite <- Zle_Qle in H0. rewrite <- Zlt_Qlt in H1.
  rewrite Hy. apply inject_Z_injective.
  apply (Z.mod_unique n 360 k); lia.
Qed.

(** [rotateSelectionClockwise] keeps the number, order, ids and types of the
    nodes; a node that is not selected is left exactly as it was; and a
    selected node whose rotation is a whole number [n] of degrees ends at
    [(n + 90) mod 360] degrees.  On whole numbers of this size the sum and
    the remainders of the code do not round. *)
Theorem rotateSelectionClockwise_turns (s : DocumentState) :
  length (nodes (rotateSelectionClockwise s)) = length (nodes s) /\
  map identity (nodes (rotateSelectionClockwise s)) = map identity (nodes s) /\
  forall j node,
    nodes s !! j = Some node ->
    exists node',
      nodes (rotateSelectionClockwise s) !! j = Some node' /\
      (includes (selection s) (node_id node) = false -> node' = node) /\
      (forall r (n : Z),
          includes (selection s) (node_id node) = true ->
          rotationOf node = Some (Fin r) ->
          (r == inject_Z n)%Q -> (Z.abs n <= 2 ^ 52)%Z ->
          exists y,
            rotationOf node' = Some (Fin y) /\
            (y == inject_Z ((n + 90) mod 360))%Q).
Proof.
  rewrite rotateSelectionClockwise_nodes.
  assert (Hid : forall node,
            identity (rotateNode (selection s) node).1 = identity node).
  { intros node. unfold rotateNode.
    destruct (negb (includes (selection s) (node_id node))); [reflexivity|].
    destruct (node_data node) as [d|]; [|reflexivity].
    destruct (d !! "rotation"); [|reflexivity].
    destruct (strict_eq _ _); reflexivity. }
  split; [apply length_map|].
  split.
  { rewrite List.map_map. apply List.map_ext. exact Hid. }
  intros j node Hj.
  exists (rotateNode (selection s) node).1.
  split.
  { change (map ?f ?l) with (f <$> l). rewrite list_lookup_fmap, Hj. reflexivity. }
  unfold rotateNode.
  destruct (includes (selection s) (node_id node)) eqn:Hin; cbn [negb].
  2:{ split; [reflexivity|]. intros r n H. discriminate. }
  split; [discriminate|].
  intros r n _ Hr Hn _. unfold rotationOf in Hr.
  destruct (node_data node) as [d|] eqn:Hd; [|discriminate].
  destruct (d !! "rotation") as [v|] eqn:Hv; [|discriminate].
  destruct v as [| | |value|]; try discriminate. injection Hr as ->.
  assert (Hsum : (r + 90 == inject_Z (n + 90))%Q)
    by (rewrite inject_Z_plus, Hn; reflexivity).
  destruct (normalize360_whole (r + 90) (n + 90) Hsum) as (y & Ey & Hy).
  cbn [add]. rewrite Ey.
  destruct (strict_eq (Fin y) (Fin r)) eqn:Esame; cbn [fst].
  - apply Qeq_bool_iff in Esame. unfold rotationOf. rewrite Hd, Hv.
    exists r. split; [reflexivity|]. rewrite <- Esame. exact Hy.
  - unfold rotationOf. cbn [node_data]. rewrite lookup_insert_eq.
    exists y. split; [reflexivity | exact Hy].
Qed.

(** A text at 350 degrees, selected, ends at 80 degrees. *)
Lemma rotateSelectionClockwise_turns_witness :
  exists node' y,
    nodes (rotateSelectionClockwise
             (setSelection ["t1"] (addNode turnedText initialState))) !! 0%nat
    = Some node' /\
    rotationOf node' = Some (Fin y) /\ (y == 80)%Q.
Proof.
  destruct (rotateSelectionClockwise_turns
              (setSelection ["t1"] (addNode turnedText initialState)))
    as (_ & _ & H).
  destruct (H 0%nat turnedText eq_refl) as (node' & Hnode' & _ & Hturn).
  destruct (Hturn 350%Q 350%Z) as (y & Hy & Hval);
    [reflexivity | reflexivity | reflexivity | vm_compute; discriminate |].
  exists node', y. split; [exact Hnode'|]. split; [exact Hy | exact Hval].
Defined.

Lemma rotateCanvas_step (step : number) (r : Q) (n d : Z) (s : DocumentState) :
  rotation s = Fin r -> (r == inject_Z n)%Q -> step = Fin (r + inject_Z d) ->
  let next := normalize360 step in
  exists y,
    rotation (if strict_eq next (rotation s) then s else with_rotation next s) = Fin y /\
    (y == inject_Z ((n + d) mod 360))%Q.
Proof.
  intros Hr Hn -> next. unfold next.
  assert (Hsum : (r + inject_Z d == inject_Z (n + d))%Q)
    by (rewrite inject_Z_plus, Hn; reflexivity).
  destruct (normalize360_whole _ _ Hsum) as (y & Ey & Hy).
  rewrite Ey, Hr.
  destruct (strict_eq (Fin y) (Fin r)) eqn:E.
  - apply Qeq_bool_iff in E. exists r. rewrite Hr.
    split; [reflexivity|]. rewrite <- E. exact Hy.
  - exists y. simpl. auto.
Qed.

Lemma rotateCanvasRight_whole (s : DocumentState) (r : Q) (n : Z) :
  rotation s = Fin r -> (r == inject_Z n)%Q ->
  exists y,
    rotation (rotateCanvasRight s) = Fin y /\ (y == inject_Z ((n + 90) mod 360))%Q.
Proof.
  intros Hr Hn. unfold rotateCanvasRight.
  apply (rotateCanvas_step _ r n 90 s Hr Hn). rewrite Hr. reflexivity.
Qed.

Lemma rotateCanvasLeft_whole (s : DocumentState) (r : Q) (n : Z) :
  rotation s = Fin r -> (r == inject_Z n)%Q ->
  exists y,
    rotation (rotateCanvasLeft s) = Fin y /\ (y == inject_Z ((n - 90) mod 360))%Q.
Proof.
  intros Hr Hn. unfold rotateCanvasLeft.
  apply (rotateCanvas_step _ r n (- 90) s Hr Hn). rewrite Hr. reflexivity.
Qed.

(** From a canvas rotation that is a whole number [n] of degrees the two
    rotation buttons lead to [(n + 90) mod 360] and [(n - 90) mod 360]
    degrees; and from such a rotation in [0, 360) a turn to the right
    followed by a turn to the left, and four turns to the right, lead back
    to it.  On whole numbers of this size the sums and the remainders of
    the code do not round. *)
Theorem rotateCanvas_quarter_turns (s : DocumentState) (r : Q) (n : Z) :
  rotation s = Fin r -> (r == inject_Z n)%Q -> (Z.abs n <= 2 ^ 52)%Z ->
  (exists y,
      rotation (rotateCanvasRight s) = Fin y /\
      (y == inject_Z ((n + 90) mod 360))%Q) /\
  (exists y,
      rotation (rotateCanvasLeft s) = Fin y /\
      (y == inject_Z ((n - 90) mod 360))%Q) /\
  ((0 <= n < 360)%Z ->
   strict_eq (rotation (rotateCanvasLeft (rotateCanvasRight s))) (Fin r) = true /\
   strict_eq
     (rotation
        (rotateCanvasRight (rotateCanvasRight (rotateCanvasRight (rotateCanvasRight s)))))
     (Fin r) = true).
Proof.
  intros Hr Hn _.
  split; [apply (rotateCanvasRight_whole s r n Hr Hn)|].
  split; [apply (rotateCanvasLeft_whole s r n Hr Hn)|].
  intros Hrange. split.
  - destruct (rotateCanvasRight_whole s r n Hr Hn) as (y1 & E1 & H1).
    destruct (rotateCanvasLeft_whole _ y1 _ E1 H1) as (y2 & E2 & H2).
    rewrite E2. apply Qeq_bool_iff. rewrite H2, Hn.
    apply inject_Z_injective.
    Z.div_mod_to_equations. lia.
  - destruct (rotateCanvasRight_whole s r n Hr Hn) as (y1 & E1 & H1).
    destruct (rotateCanvasRight_whole _ y1 _ E1 H1) as (y2 & E2 & H2).
    destruct (rotateCanvasRight_whole _ y2 _ E2 H2) as (y3 & E3 & H3).
    destruct (rotateCanvasRight_whole _ y3 _ E3 H3) as (y4 & E4 & H4).
    rewrite E4. apply Qeq_bool_iff. rewrite H4, Hn.
    apply inject_Z_injective.
    Z.div_mod_to_equations. lia.
Qed.

(** From the initial rotation: right then left is back at 0, and one turn to
    the left is at 270. *)
Lemma rotateCanvas_quarter_turns_witness :
  strict_eq (rotation (rotateCanvasLeft (rotateCanvasRight initialState))) (Fin 0)
  = true /\
  exists y, rotation (rotateCanvasLeft initialState) = Fin y /\ (y == 270)%Q.
Proof.
  destruct (rotateCanvas_quarter_turns initialState 0 0 eq_refl)
    as (_ & Hleft & Hback); [reflexivity | vm_compute; discriminate |].
  split; [apply Hback; lia | exact Hleft].
Defined.

Lemma val_strict_eq_sym (a b : jsval) : val_strict_eq a b = val_strict_eq b a.
Proof.
  destruct a, b; simpl; try reflexivity.
  - destruct b0, b; reflexivity.
  - apply JsNumFacts.strict_eq_sym.
  - apply String.eqb_sym.
Qed.

Lemma val_strict_eq_refl (a : jsval) : a <> VNum NaN -> val_strict_eq a a = true.
Proof.
  destruct a; simpl; intros H; try reflexivity.
  - destruct b; reflexivity.
  - apply JsNumFacts.strict_eq_refl_finite. congruence.
  - apply String.eqb_refl.
Qed.

(** The shallow comparison does not depend on the order of its arguments;
    a record compared with itself, the very same object, never counts as
    changed, whatever it holds; and compared with a copy that holds the
    same values it counts as changed exactly when one of them is [NaN]. *)
Theorem hasShallowChanges_copy (d e : gmap string jsval) :
  hasShallowChanges false (Some d) (Some e) = hasShallowChanges false (Some e) (Some d) /\
  hasShallowChanges true (Some d) (Some d) = false /\
  (hasShallowChanges false (Some d) (Some d) = false <-> noNaN d).
Proof.
  split; [|split; [reflexivity|]].
  - unfold hasShallowChanges.
    replace (dom e ∪ dom d) with (dom d ∪ dom e) by apply union_comm_L.
    induction (elements (dom d ∪ dom e)) as [|k ks IH]; simpl; [reflexivity|].
    rewrite IH, val_strict_eq_sym. reflexivity.
  - unfold hasShallowChanges, noNaN.
    replace (dom d ∪ dom d) with (dom d) by (symmetry; apply union_idemp_L).
    split.
    + intros H key Hkey.
      assert (Hin : key ∈ elements (dom d)).
      { apply elem_of_elements, elem_of_dom. rewrite Hkey. eauto. }
      apply list_elem_of_In in Hin.
      assert (Hex : existsb
        (fun key => negb (val_strict_eq (prop d key) (prop d key)))
        (elements (dom d)) = true).
      { apply existsb_exists. exists key. split; [exact Hin|].
        unfold prop. rewrite Hkey. reflexivity. }
      congruence.
    + intros H. apply not_true_is_false. intros Hex.
      apply existsb_exists in Hex as (key & Hin & Hne).
      apply negb_true_iff in Hne.
      rewrite val_strict_eq_refl in Hne; [discriminate|].
      unfold prop. intros E. apply (H key).
      destruct (d !! key) as [v|]; simpl in E; [congruence | discriminate].
Qed.

End StoreViewsFacts.
(** ** Zoom buttons *)

Module ZoomSteps.

Import JsNum Store Viewport Lqa.

Local Open Scope Q_scope.

(** One step from a zoom of [k] hundredths, before clamping. *)
Lemma step_rounds (q d : Q) (k j : Z) :
  q == inject_Z k / 100 -> d * 100 == inject_Z j ->
  inject_Z (Qfloor ((q + d) * 100 + (1 # 2))) / 100 = inject_Z (k + j) / 100.
Proof.
  intros Hq Hd. rewrite (NumBounds.Qfloor_half_eq (k + j)); [reflexivity|].
  rewrite inject_Z_plus, <- Hd, Hq. field.
Qed.

Lemma zoomOk_hundredths (s : DocumentState) :
  zoomOk s ->
  exists q (k : Z), zoom s = Fin q /\ q == inject_Z k / 100 /\
                    (50 <= k <= 250)%Z /\ 0.5 <= q /\ q <= 2.5.
Proof.
  intros [Hrange Hdec]. destruct (zoom s) as [| | |q]; simpl in *; try tauto.
  destruct Hdec as [k Hk]. exists q, k. split; [reflexivity|]. split; [exact Hk|].
  destruct Hrange as [Hlo Hhi].
  assert (Hkq : inject_Z k == q * 100) by (rewrite Hk; field).
  assert (A : inject_Z 49 < inject_Z k)
    by (change (inject_Z 49) with 49; lra).
  assert (B : inject_Z k < inject_Z 251)
    by (change (inject_Z 251) with 251; lra).
  rewrite <- Zlt_Qlt in A, B. split; [lia | auto].
Qed.

(** On a zoom kept by the zoom setters, the zoom-in button of the top bar
    is enabled exactly when [zoomIn] raises the zoom, and the zoom-out
    button exactly when [zoomOut] lowers it; a disabled button would
    return the state as it is. *)
Theorem zoom_buttons (s : DocumentState) :
  zoomOk s ->
  (canZoomIn (zoom s) = true -> lt (zoom s) (zoom (zoomIn s)) = true) /\
  (canZoomIn (zoom s) = false -> zoomIn s = s) /\
  (canZoomOut (zoom s) = true -> lt (zoom (zoomOut s)) (zoom s) = true) /\
  (canZoomOut (zoom s) = false -> zoomOut s = s).
Proof.
  intros Hok.
  destruct (zoomOk_hundredths s Hok) as (q & k & Hz & Hq & Hk & Hlo & Hhi).
  unfold canZoomIn, canZoomOut, zoomIn, zoomOut, ZOOM_STEP, MAX_ZOOM, MIN_ZOOM.
  rewrite Hz. cbn [add sub neg gt lt].
  rewrite !ZoomFacts.normalizeZoom_finite. cbv zeta.
  rewrite (step_rounds q 0.1 k 10 Hq) by reflexivity.
  rewrite (step_rounds q (Qopp 0.1) k (-10) Hq) by reflexivity.
  set (up := inject_Z (k + 10) / 100).
  set (down := inject_Z (k + -10) / 100).
  assert (Hup : up == q + 0.1).
  { unfold up. rewrite inject_Z_plus, Hq. change (inject_Z 10) with 10. field. }
  assert (Hdown : down == q - 0.1).
  { unfold down. rewrite inject_Z_plus, Hq. change (inject_Z (-10)) with (-10). field. }
  assert (Hkq : inject_Z k == q * 100) by (rewrite Hq; field).
  repeat split.
  - intros Hcan. apply negb_true_iff in Hcan.
    apply CanvasFacts.Qle_bool_false in Hcan.
    assert (E1 : Qle_bool 0.5 up = true) by (apply Qle_bool_iff; lra).
    rewrite E1.
    destruct (Qle_bool 2.5 up) eqn:E2.
    + assert (E : strict_eq (Fin 2.5) (Fin q) = false).
      { apply not_true_is_false. intros E. apply Qeq_bool_iff in E. lra. }
      rewrite E. simpl. apply negb_true_iff.
      apply not_true_is_false. intros E'. apply Qle_bool_iff in E'. lra.
    + assert (E : strict_eq (Fin up) (Fin q) = false).
      { apply not_true_is_false. intros E. apply Qeq_bool_iff in E. lra. }
      rewrite E. simpl. apply negb_true_iff.
      apply not_true_is_false. intros E'. apply Qle_bool_iff in E'. lra.
  - intros Hcan. apply negb_false_iff, Qle_bool_iff in Hcan.
    assert (A : inject_Z 249 < inject_Z k)
      by (change (inject_Z 249) with 249; lra).
    rewrite <- Zlt_Qlt in A. assert (k = 250%Z) by lia. subst k.
    assert (E1 : Qle_bool 0.5 up = true) by (apply Qle_bool_iff; lra).
    assert (E2 : Qle_bool 2.5 up = true) by (apply Qle_bool_iff; lra).
    rewrite E1, E2.
    assert (E : strict_eq (Fin 2.5) (Fin q) = true).
    { apply Qeq_bool_iff. rewrite Hq. reflexivity. }
    rewrite E. reflexivity.
  - intros Hcan. apply negb_true_iff in Hcan.
    apply CanvasFacts.Qle_bool_false in Hcan.
    destruct (Qle_bool 0.5 down) eqn:E1.
    + assert (E2 : Qle_bool 2.5 down = false).
      { apply not_true_is_false. intros E. apply Qle_bool_iff in E. lra. }
      rewrite E2.
      assert (E : strict_eq (Fin down) (Fin q) = false).
      { apply not_true_is_false. intros E. apply Qeq_bool_iff in E. lra. }
      rewrite E. simpl. apply negb_true_iff.
      apply not_true_is_false. intros E'. apply Qle_bool_iff in E'. lra.
    + assert (E : strict_eq (Fin 0.5) (Fin q) = false).
      { apply not_true_is_false. intros E. apply Qeq_bool_iff in E. lra. }
      rewrite E. simpl. apply negb_true_iff.
      apply not_true_is_false. intros E'. apply Qle_bool_iff in E'. lra.
  - intros Hcan. apply negb_false_iff, Qle_bool_iff in Hcan.
    assert (A : inject_Z k < inject_Z 51)
      by (change (inject_Z 51) with 51; lra).
    rewrite <- Zlt_Qlt in A. assert (k = 50%Z) by lia. subst k.
    assert (E1 : Qle_bool 0.5 down = false).
    { apply not_true_is_false. intros E. apply Qle_bool_iff in E. lra. }
    rewrite E1.
    assert (E : strict_eq (Fin 0.5) (Fin q) = true).
    { apply Qeq_bool_iff. rewrite Hq. reflexivity. }
    rewrite E. reflexivity.
Qed.

Lemma zoom_buttons_witness :
  lt (zoom initialState) (zoom (zoomIn initialState)) = true /\
  lt (zoom (zoomOut initialState)) (zoom initialState) = true.
Proof.
  destruct (zoom_buttons initialState) as (Hin & _ & Hout & _).
  - split; [split; discriminate | exists 100%Z; reflexivity].
  - split; [apply Hin | apply Hout]; reflexivity.
Defined.

End ZoomSteps.
(** ** Fitting the dieline *)

Module ViewportFacts.

Import JsNum Viewport Lqa.

Local Open Scope Q_scope.

Lemma min_fin (a b : Q) :
  exists c, min (Fin a) (Fin b) = Fin c /\ c <= a /\ c <= b /\ (c == a \/ c == b).
Proof.
  unfold min, le. destruct (Qle_bool a b) eqn:E.
  - apply Qle_bool_iff in E. exists a. split; [reflexivity | lra].
  - apply CanvasFacts.Qle_bool_false in E. exists b. split; [reflexivity | lra].
Qed.

Lemma div_fin (a b : Q) : ~ b == 0 -> div (Fin a) (Fin b) = Fin (a / b).
Proof.
  intros H. unfold div. destruct (Qeq_bool b 0) eqn:E; [|reflexivity].
  apply Qeq_bool_iff in E. contradiction.
Qed.

(** The scale [getDielineScale] answers is always a finite positive number,
    whatever the container and the dieline: a degenerate fit falls back on
    1. *)
Theorem getDielineScale_positive
    (containerWidth containerHeight dielineWidth dielineHeight padding : number) :
  exists q,
    fit_scale
      (getDielineScale containerWidth containerHeight dielineWidth dielineHeight padding)
    = Fin q /\ 0 < q.
Proof.
  unfold getDielineScale. cbn [fit_scale].
  match goal with |- context [isFinite ?sc && gt ?sc zero] => set (scale := sc) end.
  destruct (isFinite scale && gt scale zero) eqn:E.
  - apply andb_true_iff in E as [Hfin Hpos].
    destruct scale as [| | |q]; try discriminate.
    exists q. split; [reflexivity|].
    unfold gt, lt, zero in Hpos. apply negb_true_iff in Hpos.
    apply CanvasFacts.Qle_bool_false in Hpos. exact Hpos.
  - exists 1. split; reflexivity.
Qed.

(** A container that leaves no room inside the padding in one direction
    does not shrink the dieline to nothing: whatever the dieline, the scale
    falls back on 1. *)
Theorem getDielineScale_no_room
    (cw ch p : Q) (dielineWidth dielineHeight : number) :
  cw <= 2 * p \/ ch <= 2 * p ->
  fit_scale (getDielineScale (Fin cw) (Fin ch) dielineWidth dielineHeight (Fin p))
  = Fin 1.
Proof.
  intros Hroom. unfold getDielineScale. cbn [fit_scale sub mul neg add].
  assert (Hflat : forall a, a <= 0 -> max (Fin a) zero = Fin 0).
  { intros a Ha. unfold max, le, zero. cbn.
    apply Qle_bool_iff in Ha. rewrite Ha. reflexivity. }
  assert (Hzero : forall d, div (Fin 0) d = NaN \/ exists q, div (Fin 0) d = Fin q /\ q == 0).
  { intros [| | |y]; cbn; eauto.
    - right. exists 0. split; reflexivity.
    - right. exists 0. split; reflexivity.
    - destruct (Qeq_bool y 0) eqn:E; [left; reflexivity|].
      right. exists (0 / y). split; [reflexivity|]. unfold Qdiv. lra. }
  assert (Hfall : forall scale,
            scale = NaN \/ scale = NInf \/ (exists q, scale = Fin q /\ q <= 0) ->
            (if isFinite scale && gt scale zero then scale else Fin 1) = Fin 1).
  { intros scale [-> | [-> | (q & -> & Hq)]]; try reflexivity.
    unfold gt, lt, zero. cbn [isFinite andb].
    apply Qle_bool_iff in Hq. rewrite Hq. reflexivity. }
  apply Hfall.
  destruct Hroom as [Hw | Hh].
  - rewrite (Hflat (cw + - (p * 2))) by lra.
    destruct (Hzero dielineWidth) as [-> | (q & -> & Hq)]; [left; reflexivity|].
    destruct (div _ dielineHeight) as [| | |h]; cbn; auto.
    + right. right. exists q. split; [reflexivity | lra].
    + right. right. unfold min, le.
      destruct (Qle_bool q h) eqn:E;
        [exists q | apply CanvasFacts.Qle_bool_false in E; exists h];
        (split; [reflexivity | lra]).
  - rewrite (Hflat (ch + - (p * 2))) by lra.
    destruct (Hzero dielineHeight) as [-> | (q & -> & Hq)].
    + left. destruct (div _ dielineWidth); reflexivity.
    + destruct (div _ dielineWidth) as [| | |w]; cbn; auto.
      * right. right. exists q. split; [reflexivity | lra].
      * right. right. unfold min, le.
        destruct (Qle_bool w q) eqn:E;
          [apply Qle_bool_iff in E; exists w | exists q];
          (split; [reflexivity | lra]).
Qed.

(** A container of 90 by 700 under the padding of 48. *)
Lemma getDielineScale_no_room_witness :
  fit_scale (getDielineScale (Fin 90) (Fin 700) (Fin 820) (Fin 520) (Fin 48))
  = Fin 1.
Proof.
  apply (getDielineScale_no_room 90 700 48). left. discriminate.
Defined.

End ViewportFacts.
(** ** More on the preview store and the synchronisation run *)

Module SyncViewsFacts.

Import JsNum Preview TextureSync SyncViews.

(** On an update none of whose keys is a name every object inherits (the
    keys the program sends are face keys), [setFaceTextures] never adds or
    removes a face and never changes the configuration of one; keys of the
    update that are not faces are ignored, so an update naming no face
    returns the faces as they are. *)
Theorem setFaceTextures_frame
    (updates : gmap string (option string)) (faces : gmap string FaceTextureState) :
  ownKeysOnly updates = true ->
  dom (setFaceTextures updates faces) = dom faces /\
  (forall k face',
      setFaceTextures updates faces !! k = Some face' ->
      exists face, faces !! k = Some face /\ config face' = config face) /\
  ((forall k, is_Some (updates !! k) -> faces !! k = None) ->
   setFaceTextures updates faces = faces).
Proof.
  intros _. split; [|split].
  - apply set_eq. intros k. rewrite !elem_of_dom.
    rewrite PreviewFacts.setFaceTextures_lookup. unfold faceAfter.
    destruct (faces !! k) as [face|]; [|reflexivity].
    destruct (updates !! k) as [payload|]; [|reflexivity].
    destruct (sameDataUrl _ _); split; eauto.
  - intros k face'. rewrite PreviewFacts.setFaceTextures_lookup. unfold faceAfter.
    destruct (faces !! k) as [face|]; [|discriminate].
    destruct (updates !! k) as [payload|].
    + destruct (sameDataUrl _ _); intros [= <-]; eauto.
    + intros [= <-]. eauto.
  - intros Hnone. apply map_eq. intros k.
    rewrite PreviewFacts.setFaceTextures_lookup. unfold faceAfter.
    destruct (faces !! k) as [face|] eqn:Hk; [|reflexivity].
    destruct (updates !! k) as [payload|] eqn:Hu; [|reflexivity].
    rewrite Hnone in Hk by eauto. discriminate.
Qed.

(** An update that paints the front face and names a lid: the six faces
    stay, the lid is not added. *)
Lemma setFaceTextures_frame_witness :
  dom (setFaceTextures paintFrontAndLid createInitialFaces) = dom createInitialFaces /\
  dataUrlOf (setFaceTextures paintFrontAndLid createInitialFaces) "front"
  = Some "data:a" /\
  setFaceTextures paintFrontAndLid createInitialFaces !! "lid" = None.
Proof.
  destruct (setFaceTextures_frame paintFrontAndLid createInitialFaces) as (Hdom & _).
  - vm_compute. reflexivity.
  - split; [exact Hdom|]. split; vm_compute; reflexivity.
Defined.

Local Open Scope Q_scope.

Lemma captureFaces_step env faceKey rest updates captures :
  captureFaces env (faceKey :: rest) updates captures =
    match BOX_FACE_CONFIG !! faceKey with
    | None => (updates, captures)
    | Some cfg =>
        if flat env cfg then captureFaces env rest (<[faceKey := None]> updates) captures
        else
          match toDataURL env (captureOf env cfg) with
          | None => (updates, captures ++ [captureOf env cfg])
          | Some url =>
              captureFaces env rest (<[faceKey := Some url]> updates)
                (captures ++ [captureOf env cfg])
          end
    end.
Proof. reflexivity. Qed.

Lemma captureOf_ratio env cfg : within 1 4 (cap_pixelRatio (captureOf env cfg)).
Proof.
  unfold captureOf. cbn [cap_pixelRatio].
  set (longest := max _ _).
  unfold MAX_TEXTURE_PIXEL_RATIO, TARGET_TEXTURE_RESOLUTION.
  destruct longest as [| | |l]; try (vm_compute; intuition discriminate).
  unfold gt, lt, zero.
  destruct (Qle_bool l 0) eqn:E; cbn [negb];
    [vm_compute; intuition discriminate|].
  apply CanvasFacts.Qle_bool_false in E.
  rewrite ViewportFacts.div_fin by Lqa.lra.
  destruct (CanvasFacts.max_fin 1 (1024 / l)) as (c & Ec & Hc1 & _).
  rewrite Ec.
  destruct (ViewportFacts.min_fin 4 c) as (m & Em & Hm1 & Hm2 & Hm3).
  rewrite Em. simpl. destruct Hm3; Lqa.lra.
Qed.

Lemma captureFaces_captures env faceKeys : forall updates captures c,
  In c (captureFaces env faceKeys updates captures).2 ->
  In c captures \/
  exists cfg, c = captureOf env cfg /\ flat env cfg = false.
Proof.
  induction faceKeys as [|k rest IH]; intros updates captures c.
  - simpl. auto.
  - rewrite captureFaces_step.
    destruct (BOX_FACE_CONFIG !! k) as [cfg|]; [|simpl; auto].
    destruct (flat env cfg) eqn:Hflat; [apply IH|].
    destruct (toDataURL env (captureOf env cfg)).
    + intros H. apply IH in H as [H | H]; [|auto].
      apply in_app_or in H as [H | [<- | []]]; eauto.
    + simpl. intros H. apply in_app_or in H as [H | [<- | []]]; eauto.
Qed.

Lemma captureFaces_configs env faceKeys : forall updates captures c,
  In c (captureFaces env faceKeys updates captures).2 ->
  In c captures \/
  exists k cfg,
    BOX_FACE_CONFIG !! k = Some cfg /\ c = captureOf env cfg /\ flat env cfg = false.
Proof.
  induction faceKeys as [|k rest IH]; intros updates captures c.
  - simpl. auto.
  - rewrite captureFaces_step.
    destruct (BOX_FACE_CONFIG !! k) as [cfg|] eqn:Hcfg; [|simpl; auto].
    destruct (flat env cfg) eqn:Hflat; [apply IH|].
    destruct (toDataURL env (captureOf env cfg)).
    + intros H. apply IH in H as [H | H]; [|auto].
      apply in_app_or in H as [H | [<- | []]]; eauto 6.
    + simpl. intros H. apply in_app_or in H as [H | [<- | []]]; eauto 6.
Qed.

(** Every face of the configuration has a finite rectangle of positive
    width and height. *)
Lemma face_sizes (k : string) (cfg : BoxFaceConfig) :
  BOX_FACE_CONFIG !! k = Some cfg ->
  exists w h,
    face_width (rect cfg) = Fin w /\ face_height (rect cfg) = Fin h /\
    0 < w /\ 0 < h.
Proof.
  unfold BOX_FACE_CONFIG. intros H.
  apply elem_of_list_to_map_2 in H.
  repeat (apply elem_of_cons in H as [[= -> ->] | H];
          [eexists _, _; repeat split; reflexivity|]).
  apply elem_of_nil in H. destruct H.
Qed.

(** A positive side under a scale that is not [NaN] is not [NaN]; above
    the guard of the loop it is greater than 0. *)
Lemma side_positive (w : Q) (scale : number) :
  0 < w -> scale <> NaN -> le (mul (Fin w) scale) zero = false ->
  lt zero (mul (Fin w) scale) = true.
Proof.
  intros Hw Hscale. destruct scale as [| | |sc]; [congruence | | |].
  - cbn [mul]. rewrite CanvasFacts.signed_inf_pos by exact Hw. reflexivity.
  - cbn [mul]. rewrite CanvasFacts.signed_inf_pos by exact Hw. discriminate.
  - cbn [mul]. unfold le, lt, zero. intros ->. reflexivity.
Qed.

Lemma side_NaN (side : number) : mul side NaN = NaN.
Proof. destruct side; reflexivity. Qed.

(** Whatever the stage and the renderer, every capture a run asks for has a
    pixel ratio between 1 and the maximum of 4.  Under a scale that is not
    [NaN] its width and height are greater than 0; under the scale [NaN]
    the guard of the loop lets every face through, and the rectangle asked
    for has the width and the height [NaN], at the pixel ratio 1. *)
Theorem captures_bounded
    (env : SyncEnv) (faces : gmap string FaceTextureState) (c : Capture) :
  In c (updateFaceTextures env faces).1 ->
  within 1 4 (cap_pixelRatio c) /\
  (effectiveScale env <> NaN ->
   lt zero (cap_width c) = true /\ lt zero (cap_height c) = true) /\
  (effectiveScale env = NaN ->
   cap_width c = NaN /\ cap_height c = NaN /\ cap_pixelRatio c = Fin 1).
Proof.
  unfold updateFaceTextures.
  destruct (stageReady env); cbn [negb fst]; [|intros []].
  destruct (strict_eq _ _); cbn [negb fst]; [|intros []].
  destruct (captureFaces env BOX_FACE_ORDER ∅ []) as [updates captures] eqn:E.
  assert (Hc : In c captures ->
               exists k cfg, BOX_FACE_CONFIG !! k = Some cfg /\
                             c = captureOf env cfg /\ flat env cfg = false).
  { intros H. change captures with (updates, captures).2 in H. rewrite <- E in H.
    apply captureFaces_configs in H as [[] | H]. exact H. }
  intros H.
  assert (Hin : In c captures) by (destruct (map_to_list updates); exact H).
  destruct (Hc Hin) as (k & cfg & Hcfg & -> & Hflat).
  destruct (face_sizes k cfg Hcfg) as (w & h & Ew & Eh & Hw & Hh).
  unfold flat in Hflat. rewrite Ew, Eh in Hflat.
  apply orb_false_iff in Hflat as [Hfw Hfh].
  split; [apply captureOf_ratio|]. split.
  - intros Hscale. unfold captureOf. cbn [cap_width cap_height].
    rewrite Ew, Eh. split; apply side_positive; assumption.
  - intros Hscale. unfold captureOf. cbn [cap_width cap_height cap_pixelRatio].
    rewrite Hscale, !side_NaN. repeat split.
Qed.

(** The front face at scale 1, and the same face under the scale [NaN]. *)
Lemma captures_bounded_witness :
  lt zero (cap_width (captureOf (sampleEnv (Fin 0))
                        (faceConfig "front" "Front Panel" 220 260 380 140 4)))
  = true /\
  cap_width (captureOf (nanScaleEnv)
               (faceConfig "front" "Front Panel" 220 260 380 140 4))
  = NaN.
Proof.
  split.
  - destruct (captures_bounded (sampleEnv (Fin 0)) createInitialFaces
                (captureOf (sampleEnv (Fin 0))
                   (faceConfig "front" "Front Panel" 220 260 380 140 4)))
      as (_ & H & _).
    + vm_compute. left. reflexivity.
    + apply H. discriminate.
  - destruct (captures_bounded nanScaleEnv createInitialFaces
                (captureOf nanScaleEnv
                   (faceConfig "front" "Front Panel" 220 260 380 140 4)))
      as (_ & _ & H).
    + vm_compute. left. reflexivity.
    + apply H. reflexivity.
Defined.

Lemma captureFaces_prefix env done : forall rest updates captures,
  Forall (fun k => is_Some (rasterOf env k)) done ->
  rest = [] \/ (exists k, head rest = Some k /\ rasterOf env k = None) ->
  (captureFaces env (done ++ rest) updates captures).1 = gather env updates done.
Proof.
  assert (Hstop : forall rest updates captures,
    rest = [] \/ (exists k, head rest = Some k /\ rasterOf env k = None) ->
    (captureFaces env rest updates captures).1 = updates).
  { intros rest updates captures [-> | (k & Hk & Hnone)]; [reflexivity|].
    destruct rest as [|k' rest]; [discriminate|]. injection Hk as ->.
    rewrite captureFaces_step. unfold rasterOf in Hnone.
    destruct (BOX_FACE_CONFIG !! k) as [cfg|]; [|reflexivity].
    destruct (flat env cfg); [discriminate|].
    destruct (toDataURL env (captureOf env cfg)); [discriminate | reflexivity]. }
  induction done as [|k done IH]; intros rest updates captures Hall Hrest.
  - simpl. apply Hstop, Hrest.
  - inversion Hall as [|? ? [v Hv] Hall']; subst.
    change ((k :: done) ++ rest) with (k :: (done ++ rest)).
    rewrite captureFaces_step. unfold gather. simpl. rewrite Hv.
    unfold rasterOf in Hv.
    destruct (BOX_FACE_CONFIG !! k) as [cfg|]; [|discriminate].
    destruct (flat env cfg).
    + injection Hv as <-. apply IH; assumption.
    + destruct (toDataURL env (captureOf env cfg)) as [url|]; [|discriminate].
      injection Hv as <-. apply IH; assumption.
Qed.

Lemma gather_lookup env done : forall updates k,
  Forall (fun k => is_Some (rasterOf env k)) done ->
  gather env updates done !! k =
    if bool_decide (k ∈ done) then rasterOf env k else updates !! k.
Proof.
  induction done as [|k0 done IH]; intros updates k Hall.
  - reflexivity.
  - inversion Hall as [|? ? [v Hv] Hall']; subst.
    unfold gather. simpl. rewrite Hv. fold (gather env (<[k0 := v]> updates) done).
    rewrite IH by exact Hall'.
    destruct (decide (k = k0)) as [->|Hne].
    + rewrite (bool_decide_eq_true_2 (k0 ∈ k0 :: done)) by apply list_elem_of_here.
      rewrite lookup_insert_eq, Hv. destruct (bool_decide (k0 ∈ done)); reflexivity.
    + rewrite lookup_insert_ne by congruence.
      destruct (decide (k ∈ done)) as [Hin|Hout].
      * rewrite !bool_decide_eq_true_2; [reflexivity | | exact Hin].
        apply list_elem_of_further, Hin.
      * rewrite !bool_decide_eq_false_2; [reflexivity | | exact Hout].
        intros H. apply elem_of_cons in H as [H | H]; contradiction.
Qed.

(** One run on a ready, unturned stage publishes the faces captured before
    the loop ended: each of them holds the raster the renderer answered
    (the empty one for a face without room), while the face at which the
    renderer threw and all the faces after it keep their payload and
    version.  A run that is cut short still publishes its first faces. *)
Theorem sync_publishes_prefix
    (env : SyncEnv) (faces : gmap string FaceTextureState) (done rest : list string) :
  stageReady env = true ->
  multiple_of 360 (canvasRotation env) ->
  BOX_FACE_ORDER = done ++ rest ->
  Forall (fun k => is_Some (rasterOf env k)) done ->
  rest = [] \/ (exists k, head rest = Some k /\ rasterOf env k = None) ->
  forall k face,
    faces !! k = Some face ->
    (k ∈ done -> rasterOf env k = Some (dataUrlOf (updateFaceTextures env faces).2 k)) /\
    (k ∉ done -> (updateFaceTextures env faces).2 !! k = Some face).
Proof.
  intros Hready Hturn Horder Hall Hstop k face Hface.
  unfold updateFaceTextures. rewrite Hready. cbn [negb].
  rewrite (JsNumFacts.multiple_rem_zero 360 _ ltac:(discriminate) Hturn). cbn [negb].
  pose proof (captureFaces_prefix env done rest ∅ [] Hall Hstop) as Hres.
  rewrite <- Horder in Hres.
  destruct (captureFaces env BOX_FACE_ORDER ∅ []) as [updates captures].
  simpl in Hres. subst updates.
  assert (Hfaces : (match map_to_list (gather env ∅ done) with
                    | [] => (captures, faces)
                    | _ :: _ => (captures, setFaceTextures (gather env ∅ done) faces)
                    end).2 = setFaceTextures (gather env ∅ done) faces).
  { destruct (map_to_list (gather env ∅ done)) eqn:E; [|reflexivity].
    unfold setFaceTextures. rewrite E. reflexivity. }
  rewrite Hfaces. unfold dataUrlOf.
  rewrite PreviewFacts.setFaceTextures_lookup. unfold faceAfter.
  rewrite Hface, (gather_lookup env done ∅ k Hall).
  split.
  - intros Hin. rewrite bool_decide_eq_true_2 by exact Hin.
    destruct (proj1 (Forall_forall _ _) Hall k Hin) as [v Hv]. rewrite Hv.
    destruct (sameDataUrl (dataUrl face) v) eqn:E; simpl; [|reflexivity].
    apply PreviewFacts.sameDataUrl_true in E. rewrite E. reflexivity.
  - intros Hout. rewrite bool_decide_eq_false_2 by exact Hout.
    rewrite lookup_empty. reflexivity.
Qed.

Lemma sync_publishes_prefix_witness :
  rasterOf (failingEnv ["back"]) "right"
  = Some (dataUrlOf (updateFaceTextures (failingEnv ["back"]) createInitialFaces).2 "right") /\
  (updateFaceTextures (failingEnv ["back"]) createInitialFaces).2 !! "left"
  = createInitialFaces !! "left".
Proof.
  pose proof (sync_publishes_prefix (failingEnv ["back"]) createInitialFaces
                ["front"; "right"] ["back"; "left"; "top"; "bottom"]) as H.
  assert (Hready : stageReady (failingEnv ["back"]) = true) by reflexivity.
  assert (Hturn : multiple_of 360 (canvasRotation (failingEnv ["back"])))
    by (exists 0%Z; reflexivity).
  assert (Hall : Forall (fun k => is_Some (rasterOf (failingEnv ["back"]) k))
                   ["front"; "right"])
    by (repeat constructor; vm_compute; eauto).
  assert (Hstop : ["back"; "left"; "top"; "bottom"] = [] \/
                  (exists k, head ["back"; "left"; "top"; "bottom"] = Some k /\
                             rasterOf (failingEnv ["back"]) k = None))
    by (right; exists "back"; split; reflexivity).
  specialize (H Hready Hturn eq_refl Hall Hstop).
  split.
  - destruct (H "right" _ eq_refl) as [Hin _].
    apply Hin. apply list_elem_of_In. simpl. auto.
  - destruct (H "left" _ eq_refl) as [_ Hout].
    rewrite Hout; [reflexivity|].
    intros Hin. apply list_elem_of_In in Hin. simpl in Hin.
    destruct Hin as [Hin | [Hin | []]]; discriminate.
Defined.

End SyncViewsFacts.
(** ** More on text metrics *)

Module TextCacheFacts.

Import JsNum TextMetrics.

Local Open Scope Q_scope.

Section Cache.

Variable measureContext :
  option (TextFontWeight -> number -> string -> string -> TextMetricsJs).
Variable curvedExtents :
  string -> string -> number -> TextFontWeight -> number -> number -> number ->
  number * number.

Local Abbreviation repaired := (withUpdatedTextMetrics measureContext curvedExtents).

(** The extents the layout answers for a record. *)
Local Abbreviation extentsOf d :=
  (if isCurved d
   then curvedExtents (text d) (fontFamily d) (fontSize d) (fontWeight d)
          (letterSpacing d) (radius d) (angle d)
   else
     let m := measureStraightText measureContext (text d) (fontFamily d)
                (fontSize d) (fontWeight d) (letterSpacing d) in
     (straight_width m, straight_height m)).

Lemma merge_noUpdates (d : TextNodeData) : merge d noUpdates = d.
Proof. destruct d. reflexivity. Qed.

(** On a record whose layout numbers are sound and whose cached extents are
    those of its own layout, [withUpdatedTextMetrics] without updates
    changes nothing. *)
Lemma repaired_fixed (d : TextNodeData) :
  soundMetrics d ->
  width d = or_else (extentsOf d).1 (max (fontSize d) (Fin 1)) ->
  height d = or_else (extentsOf d).2 (max (fontSize d) (Fin 1)) ->
  repaired d noUpdates = d.
Proof.
  intros (Hfs & Hpos & Hls & Han & Hr & Hr0) Hw Hh.
  unfold withUpdatedTextMetrics. rewrite merge_noUpdates.
  assert (E1 : negb (isFinite (fontSize d)) || le (fontSize d) zero = false).
  { rewrite Hfs. cbn [negb orb].
    destruct (fontSize d) as [| | |q]; try discriminate.
    unfold lt, zero in Hpos. unfold le, zero.
    apply negb_true_iff in Hpos. exact Hpos. }
  cbv zeta. rewrite E1. cbv iota. rewrite Hls. cbn [negb]. cbv iota.
  rewrite Hr, Hr0. cbn [negb orb]. cbv iota. rewrite Han. cbn [negb]. cbv iota.
  destruct d as [t x0 y0 rot ff fs fw fl ls curved rad ang w h op lock].
  cbn [isCurved text fontFamily fontSize fontWeight letterSpacing radius angle
       width height] in *.
  destruct curved; cbv zeta in Hw, Hh; cbn [fst snd] in Hw, Hh;
    unfold set_height, set_width;
    cbn [isCurved text x y rotation fontFamily fontSize fontWeight fill
         letterSpacing radius angle width height opacity lockAspectRatio];
    rewrite <- Hw, <- Hh; reflexivity.
Qed.

Local Arguments max : simpl never.
Local Arguments or_else : simpl never.
Local Arguments le : simpl never.
Local Arguments strict_eq : simpl never.
Local Arguments isFinite : simpl never.
Local Arguments merge : simpl never.
Local Arguments measureStraightText : simpl never.

(** What [withUpdatedTextMetrics] does not repair it takes from the merged
    record, and the extents it caches are those of the layout of its own
    result. *)
Lemma repaired_shape (data : TextNodeData) (updates : TextNodeUpdates) :
  let merged := merge data updates in
  let next := repaired data updates in
  (text next, x next, y next, rotation next, fontFamily next, fontWeight next,
   fill next, isCurved next, opacity next, lockAspectRatio next)
  = (text merged, x merged, y merged, rotation merged, fontFamily merged,
     fontWeight merged, fill merged, isCurved merged, opacity merged,
     lockAspectRatio merged) /\
  width next = or_else (extentsOf next).1 (max (fontSize next) (Fin 1)) /\
  height next = or_else (extentsOf next).2 (max (fontSize next) (Fin 1)).
Proof.
  intros merged next. unfold next, withUpdatedTextMetrics. fold merged.
  clearbody merged.
  destruct (negb (isFinite (fontSize merged)) || le (fontSize merged) zero);
    simpl;
    destruct (negb (isFinite (letterSpacing merged))); simpl;
    destruct (negb (isFinite (radius merged)) || strict_eq (radius merged) zero);
    simpl;
    destruct (negb (isFinite (angle merged))); simpl;
    destruct (isCurved merged) eqn:Hc; simpl; rewrite ?Hc; auto.
Qed.

Lemma repaired_sound (data : TextNodeData) (updates : TextNodeUpdates) :
  soundMetrics data -> soundMetrics (repaired data updates).
Proof.
  intros (Hfs & Hpos & Hls & Han & Hr & Hr0).
  destruct (TextMetricsFacts.repaired_fields measureContext curvedExtents data updates)
    as (Efs & Els & Er & Ean).
  cbv zeta in *. unfold soundMetrics.
  rewrite Efs, Els, Er, Ean. clear Efs Els Er Ean.
  set (merged := merge data updates). clearbody merged.
  rewrite (TextMetricsFacts.or_else_truthy _ (Fin 150) Hr Hr0).
  destruct (TextMetricsFacts.max_12_positive _ Hfs) as [Hmax Hmaxpos].
  unfold badRadius.
  repeat split.
  - destruct (isFinite (fontSize merged)) eqn:E; simpl; [|exact Hmax].
    destruct (le (fontSize merged) zero); [exact Hmax | exact E].
  - destruct (isFinite (fontSize merged)) eqn:E; simpl; [|exact Hmaxpos].
    destruct (le (fontSize merged) zero) eqn:E';
      [exact Hmaxpos | apply TextMetricsFacts.not_le_zero_positive; assumption].
  - destruct (isFinite (letterSpacing merged)) eqn:E; simpl; assumption.
  - destruct (isFinite (angle merged)) eqn:E; simpl; assumption.
  - destruct (isFinite (radius merged)) eqn:E; simpl; [|assumption].
    destruct (strict_eq (radius merged) zero); assumption.
  - destruct (isFinite (radius merged)) eqn:E; simpl; [|assumption].
    destruct (strict_eq (radius merged) zero) eqn:E'; assumption.
Qed.

Lemma fallback_truthy (a size : number) :
  isFinite size = true -> lt zero size = true ->
  truthy (or_else a (max size (Fin 1))) = true.
Proof.
  intros Hfin Hpos. unfold or_else.
  destruct (truthy a) eqn:Ea; [exact Ea|].
  destruct size as [| | |q]; try discriminate.
  unfold max, le. destruct (Qle_bool q 1) eqn:E; [reflexivity|].
  unfold truthy. apply negb_true_iff.
  apply not_true_is_false. intros E0. apply Qeq_bool_iff in E0.
  apply CanvasFacts.Qle_bool_false in E. rewrite E0 in E.
  discriminate E.
Qed.

(** On a record whose layout numbers are sound, the result keeps every
    field that is not a layout number or an extent as the update merged it,
    its cached width and height are never [0] nor [NaN], and running the
    function again on the result, without any update, changes nothing: the
    cache is up to date. *)
Theorem text_cache_up_to_date (data : TextNodeData) (updates : TextNodeUpdates) :
  soundMetrics data ->
  let merged := merge data updates in
  let next := repaired data updates in
  (text next, x next, y next, rotation next, fontFamily next, fontWeight next,
   fill next, isCurved next, opacity next, lockAspectRatio next)
  = (text merged, x merged, y merged, rotation merged, fontFamily merged,
     fontWeight merged, fill merged, isCurved merged, opacity merged,
     lockAspectRatio merged) /\
  truthy (width next) = true /\ truthy (height next) = true /\
  repaired next noUpdates = next.
Proof.
  intros Hsound merged next.
  destruct (repaired_shape data updates) as (Hframe & Hw & Hh).
  pose proof (repaired_sound data updates Hsound) as Hnext.
  fold next in Hframe, Hw, Hh, Hnext.
  split; [exact Hframe|].
  destruct Hnext as (Hfs & Hpos & Hrest).
  split; [rewrite Hw; apply fallback_truthy; assumption|].
  split; [rewrite Hh; apply fallback_truthy; assumption|].
  apply repaired_fixed; [repeat split; tauto | exact Hw | exact Hh].
Qed.

End Cache.

Lemma text_cache_up_to_date_witness :
  let next :=
    withUpdatedTextMetrics None (fun _ _ _ _ _ _ _ => (NaN, Fin 0))
      sampleText brokenUpdate in
  truthy (width next) = true /\
  withUpdatedTextMetrics None (fun _ _ _ _ _ _ _ => (NaN, Fin 0)) next noUpdates = next.
Proof.
  intros next.
  destruct (text_cache_up_to_date None (fun _ _ _ _ _ _ _ => (NaN, Fin 0))
              sampleText brokenUpdate) as (_ & Hw & _ & Hfix).
  - vm_compute. auto 10.
  - split; [exact Hw | exact Hfix].
Defined.

End TextCacheFacts.
(** ** Curved text: the glyphs and the box around them *)

Module CurvedBoxFacts.

Import CurvedText CurvedBox.

Local Open Scope R_scope.

Lemma minBound_fold (f : CurvedGlyph -> R) (gs : list CurvedGlyph) :
  forall seed,
    (forall b, seed = Some b ->
       default 0 (fold_left (fun m g => minBound m (f g)) gs seed) <= b) /\
    (forall g, In g gs ->
       default 0 (fold_left (fun m g => minBound m (f g)) gs seed) <= f g).
Proof.
  induction gs as [|g gs IH]; intros seed.
  - split; [intros b ->; simpl; lra | intros g []].
  - simpl fold_left.
    destruct (IH (minBound seed (f g))) as [Hseed Hin].
    split.
    + intros b ->. simpl in Hseed.
      pose proof (Hseed _ eq_refl) as H. pose proof (Rmin_l b (f g)). lra.
    + intros g' [<- | Hg']; [|apply Hin; exact Hg'].
      destruct seed as [b|]; simpl in Hseed.
      * pose proof (Hseed _ eq_refl) as H. pose proof (Rmin_r b (f g)). lra.
      * apply (Hseed _ eq_refl).
Qed.

Lemma maxBound_fold (f : CurvedGlyph -> R) (gs : list CurvedGlyph) :
  forall seed,
    (forall b, seed = Some b ->
       b <= default 0 (fold_left (fun m g => maxBound m (f g)) gs seed)) /\
    (forall g, In g gs ->
       f g <= default 0 (fold_left (fun m g => maxBound m (f g)) gs seed)).
Proof.
  induction gs as [|g gs IH]; intros seed.
  - split; [intros b ->; simpl; lra | intros g []].
  - simpl fold_left.
    destruct (IH (maxBound seed (f g))) as [Hseed Hin].
    split.
    + intros b ->. simpl in Hseed.
      pose proof (Hseed _ eq_refl) as H. pose proof (Rmax_l b (f g)). lra.
    + intros g' [<- | Hg']; [|apply Hin; exact Hg'].
      destruct seed as [b|]; simpl in Hseed.
      * pose proof (Hseed _ eq_refl) as H. pose proof (Rmax_r b (f g)). lra.
      * apply (Hseed _ eq_refl).
Qed.

Section Box.

Variable context : option (ascii -> GlyphMetrics).
Variables fontSize letterSpacing radius angle : R.

Lemma placeGlyphs_chars pxToAngle startAngle angleRad glyphHeight characters :
  forall index count a,
    let placed :=
      placeGlyphs letterSpacing radius pxToAngle startAngle angleRad glyphHeight
        index count characters
        (measureWidths context fontSize letterSpacing index count characters) a in
    map char placed = characters /\
    map glyph_width placed = map (charWidth context fontSize) characters /\
    Forall (fun g => glyph_height g = glyphHeight) placed.
Proof.
  induction characters as [|c rest IH]; intros index count a; simpl.
  - repeat split; constructor.
  - destruct (IH (S index) count
                (a + (charWidth context fontSize c
                      + (if (index <? count - 1)%nat then letterSpacing else 0))
                     * pxToAngle)) as (Hc & Hw & Hh).
    cbv zeta in Hc, Hw, Hh.
    rewrite Hc, Hw. repeat split.
    + f_equal. lra.
    + constructor; [reflexivity | exact Hh].
Qed.

(** The glyphs of the layout spell the text, one glyph a character and in
    order, each as wide as its character was measured; and the box of every
    glyph lies inside the box of the returned width and height centred on
    the origin, whatever the radius, the angle and the spacing are. *)
Theorem curved_layout_box (text : string) :
  let layout :=
    computeCurvedTextLayout context fontSize letterSpacing radius angle text in
  map char (glyphs layout) = String.list_ascii_of_string text /\
  map glyph_width (glyphs layout)
  = map (charWidth context fontSize) (String.list_ascii_of_string text) /\
  Forall (glyphInBox (layout_width layout / 2) (layout_height layout / 2))
    (glyphs layout).
Proof.
  unfold computeCurvedTextLayout.
  destruct (String.list_ascii_of_string text) as [|c rest] eqn:Hchars.
  - simpl. repeat split; constructor.
  - rewrite <- Hchars. cbv zeta.
    set (raw := glyphsRaw context fontSize letterSpacing radius angle
                  (String.list_ascii_of_string text)).
    cbn [glyphs layout_width layout_height].
    destruct (placeGlyphs_chars
                (pxToAngleOf radius angle
                   (measureWidths context fontSize letterSpacing 0
                      (length (String.list_ascii_of_string text))
                      (String.list_ascii_of_string text)))
                (- angleRadOf radius angle
                     (measureWidths context fontSize letterSpacing 0
                        (length (String.list_ascii_of_string text))
                        (String.list_ascii_of_string text)) / 2)
                (angleRadOf radius angle
                   (measureWidths context fontSize letterSpacing 0
                      (length (String.list_ascii_of_string text))
                      (String.list_ascii_of_string text)))
                (glyphHeightAfter context fontSize (String.list_ascii_of_string text))
                (String.list_ascii_of_string text) 0%nat
                (length (String.list_ascii_of_string text)) 0)
      as (Hc & Hw & _).
    cbv zeta in Hc, Hw. fold (glyphsRaw context fontSize letterSpacing radius angle
                                (String.list_ascii_of_string text)) in Hc, Hw.
    fold raw in Hc, Hw.
    rewrite !map_map. cbn [recentre char glyph_width].
    split; [exact Hc|]. split; [exact Hw|].
    apply Forall_forall. intros g' Hg'.
    apply list_elem_of_In, in_map_iff in Hg'. destruct Hg' as (g & <- & Hg).
    unfold glyphInBox, recentre. cbn [glyph_x glyph_y glyph_width glyph_height].
    pose proof (proj2 (minBound_fold (fun g => glyph_x g - glyph_width g / 2) raw None) g Hg).
    pose proof (proj2 (maxBound_fold (fun g => glyph_x g + glyph_width g / 2) raw None) g Hg).
    pose proof (proj2 (minBound_fold (fun g => glyph_y g - glyph_height g / 2) raw None) g Hg).
    pose proof (proj2 (maxBound_fold (fun g => glyph_y g + glyph_height g / 2) raw None) g Hg).
    cbv beta in *.
    repeat split; lra.
Qed.

End Box.

End CurvedBoxFacts.
(** ** The selection toolbar stays in the window *)

Module ToolbarFacts.

Import JsNum Toolbar.

Import Lqa.

Local Open Scope Q_scope.





End ToolbarFacts.
(** ** The 3D panel shows the latest texture of every face *)

Module Panel3DFacts.

Import Preview Panel3D.

Lemma order_cases (k : string) :
  k ∈ BOX_FACE_ORDER ->
  k = "front" \/ k = "right" \/ k = "back" \/ k = "left" \/ k = "top"
  \/ k = "bottom".
Proof.
  unfold BOX_FACE_ORDER. rewrite !elem_of_cons, elem_of_nil. tauto.
Qed.

Lemma materialIndexOf_lt (k : string) :
  k ∈ BOX_FACE_ORDER -> (materialIndexOf k < 6)%nat.
Proof.
  intros Hk. apply order_cases in Hk.
  destruct Hk as [-> | [-> | [-> | [-> | [-> | ->]]]]]; vm_compute; lia.
Qed.

Lemma materialIndexOf_inj (k k' : string) :
  k ∈ BOX_FACE_ORDER -> k' ∈ BOX_FACE_ORDER ->
  materialIndexOf k = materialIndexOf k' -> k = k'.
Proof.
  intros Hk Hk'. apply order_cases in Hk. apply order_cases in Hk'.
  destruct Hk as [-> | [-> | [-> | [-> | [-> | ->]]]]];
    destruct Hk' as [-> | [-> | [-> | [-> | [-> | ->]]]]];
    vm_compute; congruence.
Qed.

Lemma start_consistent : consistent start.
Proof.
  split; [|split].
  - eexists. split; [reflexivity | reflexivity].
  - intros load Hin. simpl in Hin. apply elem_of_nil in Hin. destruct Hin.
  - intros k Hk. apply order_cases in Hk.
    destruct Hk as [-> | [-> | [-> | [-> | [-> | ->]]]]];
      eexists _, (-1)%Z;
      (split; [vm_compute; reflexivity|]);
      (split; [vm_compute; reflexivity|]);
      (split; [simpl; lia|]);
      (split; [intros load Hin; simpl in Hin; apply elem_of_nil in Hin; destruct Hin|]);
      simpl; lia.
Qed.

Lemma store_consistent (updates : gmap string (option string)) (s : System) :
  consistent s -> consistent (step s (StoreSet updates)).
Proof.
  intros (Hscene & Hkeys & Hall).
  split; [exact Hscene|]. split; [exact Hkeys|].
  intros k Hk. destruct (Hall k Hk) as (face & r & Hf & Hr & Hle & Hloads & Hshow).
  cbn [step faces panel].
  rewrite PreviewFacts.setFaceTextures_lookup. unfold faceAfter. rewrite Hf.
  destruct (updates !! k) as [payload|]; [|exists face, r; auto].
  destruct (sameDataUrl (dataUrl face) payload); [exists face, r; auto|].
  exists (bumped face payload), r. cbn [bumped version dataUrl].
  split; [reflexivity|]. split; [exact Hr|]. split; [lia|].
  split; [|intros ->; lia].
  intros load Hin Hkey. destruct (Hloads load Hin Hkey) as (Hidx & Hv & _).
  split; [exact Hidx|]. split; [exact Hv|]. intros E. lia.
Qed.

Lemma effectFace_consistent (fs : gmap string FaceTextureState) (p : Panel)
    (k : string) :
  k ∈ BOX_FACE_ORDER ->
  consistent {| faces := fs; panel := p |} ->
  consistent {| faces := fs; panel := effectFace fs p k |}.
Proof.
  intros Hk Hcons. pose proof Hcons as (Hscene & Hkeys & Hall).
  cbn [faces panel] in Hscene, Hkeys, Hall.
  destruct Hscene as (materials & Hs & Hlen).
  destruct (Hall k Hk) as (face & r & Hf & Hr & Hle & Hloads & Hshow).
  unfold effectFace. rewrite Hs, Hf.
  case_bool_decide as Hsame; [exact Hcons|].
  assert (Hnew : r <> Z.of_nat (version face)) by congruence.
  pose proof (materialIndexOf_lt k Hk) as Hlt. rewrite <- Hlen in Hlt.
  destruct (lookup_lt_is_Some_2 materials _ Hlt) as [material Hm].
  rewrite Hm. clear Hcons.
  destruct (truthyUrl (dataUrl face)) as [url|] eqn:Hurl.
  - (* a load is started *)
    split; [|split]; cbn [faces panel scene faceVersions pending].
    + exists materials. rewrite <- Hs. auto.
    + intros load Hin. apply elem_of_app in Hin. destruct Hin as [Hin | Hin];
        [apply Hkeys; exact Hin|].
      apply list_elem_of_singleton in Hin. subst load. exact Hk.
    + intros k' Hk'. destruct (decide (k' = k)) as [-> | Hne].
      * exists face, (Z.of_nat (version face)).
        rewrite lookup_insert_eq.
        split; [exact Hf|]. split; [reflexivity|]. split; [lia|].
        split.
        -- intros load Hin Hkey. apply elem_of_app in Hin.
           destruct Hin as [Hin | Hin].
           ++ destruct (Hloads load Hin Hkey) as (Hidx & Hv & Hu).
              split; [exact Hidx|]. split; [lia | intros E; lia].
           ++ apply list_elem_of_singleton in Hin. subst load.
              cbn [load_materialIndex loadVersion load_url].
              split; [reflexivity|]. split; [lia|]. intros _. exact Hurl.
        -- intros _. right. eexists. split; [|split];
             [apply elem_of_app; right; apply list_elem_of_singleton; reflexivity
             | reflexivity | reflexivity].
      * destruct (Hall k' Hk') as (face' & r' & Hf' & Hr' & Hle' & Hloads' & Hshow').
        exists face', r'. rewrite lookup_insert_ne by congruence.
        split; [exact Hf'|]. split; [exact Hr'|]. split; [exact Hle'|].
        split.
        -- intros load Hin Hkey. apply elem_of_app in Hin.
           destruct Hin as [Hin | Hin]; [apply Hloads'; assumption|].
           apply list_elem_of_singleton in Hin. subst load. simpl in Hkey.
           congruence.
        -- intros E. destruct (Hshow' E) as [Hmat | (load & Hin & Hkey & Hv)].
           ++ left. unfold materialOf in *. cbn [scene] in *. rewrite Hs in Hmat.
              exact Hmat.
           ++ right. exists load. split; [apply elem_of_app; left; exact Hin|].
              split; assumption.
  - (* the material is cleared *)
    split; [|split]; cbn [faces panel scene faceVersions pending].
    + eexists. split; [reflexivity|]. rewrite length_insert. exact Hlen.
    + exact Hkeys.
    + intros k' Hk'. destruct (decide (k' = k)) as [-> | Hne].
      * exists face, (Z.of_nat (version face)).
        rewrite lookup_insert_eq.
        split; [exact Hf|]. split; [reflexivity|]. split; [lia|].
        split.
        -- intros load Hin Hkey.
           destruct (Hloads load Hin Hkey) as (Hidx & Hv & Hu).
           split; [exact Hidx|]. split; [lia | intros E; lia].
        -- intros _. left. unfold materialOf. cbn [scene mbind option_bind].
           rewrite list_lookup_insert_eq by exact Hlt.
           unfold expectedMaterial. rewrite Hurl. reflexivity.
      * destruct (Hall k' Hk') as (face' & r' & Hf' & Hr' & Hle' & Hloads' & Hshow').
        exists face', r'. rewrite lookup_insert_ne by congruence.
        split; [exact Hf'|]. split; [exact Hr'|]. split; [exact Hle'|].
        split; [exact Hloads'|].
        intros E. destruct (Hshow' E) as [Hmat | Hload]; [left | right; exact Hload].
        unfold materialOf in *. cbn [scene mbind option_bind] in *.
        rewrite Hs in Hmat. cbn [mbind option_bind] in Hmat.
        rewrite list_lookup_insert_ne; [exact Hmat|].
        intros E'. apply Hne. symmetry.
        apply (materialIndexOf_inj k k' Hk Hk' E').
Qed.

Lemma effectFaces_consistent (fs : gmap string FaceTextureState)
    (keys : list string) :
  forall p,
    (forall k, k ∈ keys -> k ∈ BOX_FACE_ORDER) ->
    consistent {| faces := fs; panel := p |} ->
    consistent {| faces := fs; panel := foldl (effectFace fs) p keys |}.
Proof.
  induction keys as [|k keys IH]; intros p Hsub Hcons; [exact Hcons|].
  simpl. apply IH.
  - intros k' Hk'. apply Hsub. right. exact Hk'.
  - apply effectFace_consistent; [apply Hsub; left | exact Hcons].
Qed.

Lemma effect_consistent (s : System) :
  consistent s -> consistent (step s EffectRan).
Proof.
  destruct s as [fs p]. cbn [step faces panel]. intros Hcons.
  unfold effect. destruct (scene p); [|exact Hcons].
  apply effectFaces_consistent; [auto | exact Hcons].
Qed.

Lemma onLoad_consistent (i : nat) (s : System) :
  consistent s -> consistent (step s (Loaded i)).
Proof.
  destruct s as [fs p]. cbn [step faces panel]. intros Hcons.
  pose proof Hcons as (Hscene & Hkeys & Hall).
  cbn [faces panel] in Hscene, Hkeys, Hall.
  destruct Hscene as (materials & Hs & Hlen).
  unfold onLoad. destruct (pending p !! i) as [load|] eqn:Hi; [|exact Hcons].
  clear Hcons.
  assert (Hload : load ∈ pending p) by (eapply list_elem_of_lookup_2; exact Hi).
  assert (Hrest : forall l, l ∈ delete i (pending p) -> l ∈ pending p)
    by (intros l; apply list_elem_of_delete_inv).
  assert (Hother : forall l, l ∈ pending p -> l <> load -> l ∈ delete i (pending p)).
  { intros l Hin Hne. rewrite delete_take_drop.
    rewrite <- (take_drop_middle _ _ _ Hi) in Hin.
    apply elem_of_app in Hin. apply elem_of_app.
    destruct Hin as [Hin | Hin]; [left; exact Hin|].
    apply elem_of_cons in Hin. destruct Hin as [-> | Hin]; [congruence|].
    right. exact Hin. }
  pose proof (Hkeys load Hload) as Hkload.
  case_bool_decide as Hcur.
  - (* the texture is for the version the panel holds *)
    split; [|split]; cbn [faces panel scene faceVersions pending].
    + rewrite Hs. eexists. split; [reflexivity|]. rewrite length_insert. exact Hlen.
    + intros l Hin. apply Hkeys, Hrest, Hin.
    + intros k Hk.
      destruct (Hall k Hk) as (face & r & Hf & Hr & Hle & Hloads & Hshow).
      exists face, r.
      split; [exact Hf|]. split; [exact Hr|]. split; [exact Hle|].
      split; [intros l Hin; apply Hloads, Hrest, Hin|].
      intros E. destruct (decide (load_faceKey load = k)) as [Hkey | Hkey].
      * left. destruct (Hloads load Hload Hkey) as (Hidx & _ & Hu).
        unfold materialOf. cbn [scene]. rewrite Hs.
        cbn [fmap option_fmap option_map mbind option_bind].
        rewrite Hidx, list_lookup_insert_eq
          by (rewrite Hlen; apply materialIndexOf_lt; exact Hk).
        unfold expectedMaterial. rewrite Hu; [reflexivity|].
        rewrite Hkey, Hr in Hcur. subst r. injection Hcur as Hcur. lia.
      * destruct (Hshow E) as [Hmat | (l & Hin & Hlk & Hlv)].
        -- left. unfold materialOf in *. cbn [scene] in *. rewrite Hs in *.
           cbn [fmap option_fmap option_map mbind option_bind] in *.
           rewrite list_lookup_insert_ne; [exact Hmat|].
           destruct (Hall _ Hkload) as (face0 & r0 & _ & _ & _ & Hloads0 & _).
           destruct (Hloads0 load Hload eq_refl) as (Hidx & _).
           rewrite Hidx. intros E'. apply Hkey.
           apply (materialIndexOf_inj _ _ Hkload Hk E').
        -- right. exists l. split; [|split; assumption].
           apply Hother; [exact Hin | congruence].
  - (* a late texture: disposed of *)
    split; [|split]; cbn [faces panel scene faceVersions pending].
    + exists materials. auto.
    + intros l Hin. apply Hkeys, Hrest, Hin.
    + intros k Hk.
      destruct (Hall k Hk) as (face & r & Hf & Hr & Hle & Hloads & Hshow).
      exists face, r.
      split; [exact Hf|]. split; [exact Hr|]. split; [exact Hle|].
      split; [intros l Hin; apply Hloads, Hrest, Hin|].
      intros E. destruct (Hshow E) as [Hmat | (l & Hin & Hlk & Hlv)];
        [left; exact Hmat|].
      right. exists l. split; [|split; assumption].
      apply Hother; [exact Hin|]. intros ->.
      apply Hcur. rewrite Hlk, Hr, E, Hlv. reflexivity.
Qed.

Lemma run_snoc (events : list Event) (e : Event) :
  run (events ++ [e]) = step (run events) e.
Proof. unfold run. rewrite foldl_app. reflexivity. Qed.

Lemma steady_consistent (events : list Event) :
  steady events = true -> consistent (run events).
Proof.
  induction events as [|e events IH] using rev_ind; intros Hsteady.
  - exact start_consistent.
  - unfold steady in Hsteady. rewrite forallb_app in Hsteady.
    apply andb_true_iff in Hsteady. destruct Hsteady as [Hevents He].
    rewrite run_snoc. specialize (IH Hevents).
    destruct e; simpl in He; try discriminate.
    + apply store_consistent, IH.
    + apply effect_consistent, IH.
    + apply onLoad_consistent, IH.
Qed.

(** As long as the store is not reset and no load fails: once the panel has
    taken up the version the store holds of a face and no load of that face
    is under way, the material of the face carries exactly the texture the
    store holds, white under it, or no texture and the grey of an empty
    face.  A texture that answers late, for a version the panel has left
    behind, is never the one shown. *)
Theorem panel_shows_latest (events : list Event) (k : string)
    (face : FaceTextureState) :
  steady events = true ->
  k ∈ BOX_FACE_ORDER ->
  faces (run events) !! k = Some face ->
  faceVersions (panel (run events)) !! k = Some (Z.of_nat (version face)) ->
  settled (panel (run events)) k ->
  materialOf (panel (run events)) k = Some (expectedMaterial (dataUrl face)).
Proof.
  intros Hsteady Hk Hface Hversion Hsettled.
  destruct (steady_consistent events Hsteady) as (_ & _ & Hall).
  destruct (Hall k Hk) as (face' & r & Hf & Hr & _ & _ & Hshow).
  rewrite Hface in Hf. injection Hf as <-.
  rewrite Hversion in Hr. injection Hr as <-.
  destruct (Hshow eq_refl) as [Hmat | (load & Hin & Hkey & _)]; [exact Hmat|].
  destruct (Hsettled load Hin Hkey).
Qed.

Lemma panel_shows_latest_witness :
  materialOf (panel (run lateAnswer)) "front"
  = Some {| material_map := Some "data:b"; material_color := "#ffffff" |}.
Proof.
  apply (panel_shows_latest lateAnswer "front"
           {| config := faceConfig "front" "Front Panel" 220 260 380 140 4;
              dataUrl := Some "data:b";
              version := 2 |}).
  - reflexivity.
  - apply list_elem_of_here.
  - vm_compute. reflexivity.
  - vm_compute. reflexivity.
  - intros load Hin. vm_compute in Hin. inversion Hin.
Defined.

(** Without the first condition the statement fails: after a reset of the
    store the versions start again at [0], and a load requested before the
    reset passes for one requested after it. *)
Example reset_lets_late_texture_through :
  let s := run aroundReset in
  dataUrlOf (faces s) "front" = Some "data:b" /\
  faceVersions (panel s) !! "front" = Some (Z.of_nat (versionOf (faces s) "front")) /\
  pending (panel s) = [] /\
  materialOf (panel s) "front"
  = Some {| material_map := Some "data:a"; material_color := "#ffffff" |}.
Proof. vm_compute. auto. Qed.

End Panel3DFacts.
(** ** A gesture and the undo history *)

Module GestureFacts.

Import JsNum Store StoreViews.

Lemma holdsNaN_noNaN (d : gmap string jsval) : holdsNaN d = false -> noNaN d.
Proof.
  unfold holdsNaN, noNaN. intros H key Hkey.
  assert (Hex : existsb
            (fun entry : string * jsval =>
               match entry.2 with VNum NaN => true | _ => false end)
            (map_to_list d) = true); [|congruence].
  apply existsb_exists. exists (key, VNum NaN). split; [|reflexivity].
  apply list_elem_of_In, elem_of_map_to_list. exact Hkey.
Qed.

Lemma cleanNodes_noNaN (s : DocumentState) (j : nat) (node : DocumentNode)
    (d : gmap string jsval) :
  cleanNodes s = true -> nodes s !! j = Some node -> node_data node = Some d ->
  noNaN d.
Proof.
  unfold cleanNodes. intros Hall Hj Hd.
  apply holdsNaN_noNaN.
  rewrite forallb_forall in Hall.
  specialize (Hall node). rewrite Hd in Hall. simpl in Hall.
  apply negb_true_iff, Hall.
  apply list_elem_of_In. eapply list_elem_of_lookup_2. exact Hj.
Qed.

(** A record without [NaN] shows no change against an equal copy. *)
Lemma hasShallowChanges_clean (d : gmap string jsval) :
  noNaN d -> hasShallowChanges false (Some d) (Some d) = false.
Proof.
  intros H. unfold hasShallowChanges.
  apply not_true_is_false. intros Hex.
  apply existsb_exists in Hex as (key & _ & Hne).
  apply negb_true_iff in Hne.
  rewrite StoreViewsFacts.val_strict_eq_refl in Hne; [discriminate|].
  unfold prop. intros E. apply (H key).
  destruct (d !! key) as [v|]; simpl in E; [congruence | discriminate].
Qed.

Lemma findIndex_insert {A : Type} (pred : A -> bool) (x : A) (l : list A) :
  forall i,
    findIndex pred l = Some i -> pred x = true ->
    findIndex pred (<[i := x]> l) = Some i.
Proof.
  induction l as [|a l IH]; intros i H Hx; simpl in H; [discriminate|].
  destruct (pred a) eqn:Ea.
  - injection H as <-. simpl. rewrite Hx. reflexivity.
  - destruct (findIndex pred l) as [j|] eqn:Ej; simpl in H; [|discriminate].
    injection H as <-. simpl. rewrite Ea, (IH j eq_refl Hx). reflexivity.
Qed.

Lemma findIndex_true {A : Type} (pred : A -> bool) (l : list A) :
  forall i x, findIndex pred l = Some i -> l !! i = Some x -> pred x = true.
Proof.
  induction l as [|a l IH]; intros i x H Hx; simpl in H; [discriminate|].
  destruct (pred a) eqn:Ea.
  - injection H as <-. simpl in Hx. injection Hx as <-. exact Ea.
  - destruct (findIndex pred l) as [j|] eqn:Ej; simpl in H; [|discriminate].
    injection H as <-. simpl in Hx. apply (IH j x eq_refl Hx).
Qed.

Lemma updateNode_partial (nodeId : string) (fields : gmap string jsval)
    (commitFlag : bool) (s : DocumentState) :
  updateNode nodeId (Partial fields) commitFlag s =
  match findIndex (fun node => String.eqb (node_id node) nodeId) (nodes s) with
  | None => s
  | Some index =>
      match nodes s !! index with
      | None => s
      | Some node =>
          let nextData := Some (fields ∪ default ∅ (node_data node)) in
          if hasShallowChanges false (node_data node) nextData
          then
            let nextNodes :=
              <[index := {| node_id := node_id node;
                            node_type := node_type node;
                            node_data := nextData |}]> (nodes s) in
            if commitFlag then commit nextNodes s else with_nodes nextNodes s
          else s
      end
  end.
Proof.
  unfold updateNode.
  destruct (findIndex _ (nodes s)) as [index|]; [|reflexivity].
  destruct (nodes s !! index) as [node|]; [|reflexivity].
  cbv zeta. destruct (hasShallowChanges _ _ _); cbn [negb]; [|reflexivity].
  rewrite StoreFacts.cloneNodes_same. destruct commitFlag; reflexivity.
Qed.

(** The call a gesture sends on release repeats its last live update: the
    shallow comparison finds nothing new and the state is returned as it
    is. *)
Lemma updateNode_repeat (nodeId : string) (fields : gmap string jsval)
    (s : DocumentState) :
  let dragged := updateNode nodeId (Partial fields) false s in
  cleanNodes dragged = true ->
  updateNode nodeId (Partial fields) true dragged = dragged.
Proof.
  intros dragged. subst dragged.
  rewrite (updateNode_partial nodeId fields false s).
  destruct (findIndex _ (nodes s)) as [index|] eqn:Hfind.
  2:{ intros _. rewrite updateNode_partial, Hfind. reflexivity. }
  destruct (nodes s !! index) as [node|] eqn:Hnode.
  2:{ intros _. rewrite updateNode_partial, Hfind, Hnode. reflexivity. }
  cbv zeta.
  destruct (hasShallowChanges false (node_data node)
              (Some (fields ∪ default ∅ (node_data node)))) eqn:Hch.
  2:{ intros _. rewrite updateNode_partial, Hfind, Hnode. cbv zeta.
      rewrite Hch. reflexivity. }
  set (node' := {| node_id := node_id node; node_type := node_type node;
                   node_data := Some (fields ∪ default ∅ (node_data node)) |}).
  intros Hclean.
  assert (Hlt : (index < length (nodes s))%nat)
    by (eapply lookup_lt_Some; exact Hnode).
  assert (Hnode' : <[index := node']> (nodes s) !! index = Some node')
    by (apply list_lookup_insert_eq; exact Hlt).
  rewrite updateNode_partial. cbn [nodes with_nodes].
  rewrite (findIndex_insert _ node' _ index Hfind)
    by (apply (findIndex_true _ _ _ _ Hfind Hnode)).
  rewrite Hnode'. cbv zeta. cbn [node_data node' default]. unfold Datatypes.id.
  replace (fields ∪ (fields ∪ default ∅ (node_data node)))
    with (fields ∪ default ∅ (node_data node))
    by (rewrite (assoc_L (∪)), (idemp_L (∪)); reflexivity).
  rewrite hasShallowChanges_clean; [reflexivity|].
  apply (cleanNodes_noNaN _ index node' _ Hclean); [|reflexivity].
  cbn [nodes with_nodes]. exact Hnode'.
Qed.

(** C3 fails in the code.  [updateNode] keeps no snapshot from before the
    first live update.  After [k] calls with [commit: false], the last of
    them sending [fields]: whatever the committing call sends, the entry it
    pushes, if it pushes one, is the node collection as the live updates
    left it, so that as soon as they changed a node the history does not
    receive the pre-drag snapshot; and the committing call every gesture of
    the program sends on release, which repeats the last live update, finds
    nothing changed and pushes no entry at all: the state and [past] are as
    they were, and undo cannot take the gesture back. *)
Theorem gesture_snapshot_is_lost
    (nodeId : string) (us : list Updates) (fields : gmap string jsval)
    (u : Updates) (s : DocumentState) :
  let dragged := liveUpdates nodeId (us ++ [Partial fields]) s in
  (nodes dragged <> nodes s ->
   past (updateNode nodeId u true dragged) <> past s ++ [nodes s]) /\
  (cleanNodes dragged = true ->
   updateNode nodeId (Partial fields) true dragged = dragged /\
   past (updateNode nodeId (Partial fields) true dragged) = past s).
Proof.
  intros dragged.
  destruct (StoreFacts.liveUpdates_history nodeId (us ++ [Partial fields]) s)
    as [Hpast _].
  fold dragged in Hpast.
  split.
  - intros Hmoved Hentry.
    destruct (StoreFacts.updateNode_cases nodeId u dragged) as [Hsame | [Hpush _]].
    + rewrite Hsame, Hpast in Hentry. apply (f_equal length) in Hentry.
      rewrite length_app in Hentry. simpl in Hentry. lia.
    + rewrite Hpush, Hpast in Hentry.
      apply app_inj_tail in Hentry as [_ Hentry]. contradiction.
  - intros Hclean.
    assert (Hlast : dragged
                    = updateNode nodeId (Partial fields) false (liveUpdates nodeId us s)).
    { unfold dragged, liveUpdates. rewrite fold_left_app. reflexivity. }
    assert (Hrepeat : updateNode nodeId (Partial fields) true dragged = dragged).
    { rewrite Hlast. apply updateNode_repeat. rewrite <- Hlast. exact Hclean. }
    rewrite Hrepeat. split; [reflexivity | exact Hpast].
Qed.

Lemma gesture_snapshot_is_lost_witness :
  past (updateNode "n1" (dragTo 5) true
          (liveUpdates "n1" [dragTo 3; dragTo 5] oneImage))
  <> past oneImage ++ [nodes oneImage] /\
  updateNode "n1" (dragTo 5) true (liveUpdates "n1" [dragTo 3; dragTo 5] oneImage)
  = liveUpdates "n1" [dragTo 3; dragTo 5] oneImage /\
  past (updateNode "n1" (dragTo 5) true
          (liveUpdates "n1" [dragTo 3; dragTo 5] oneImage))
  = past oneImage.
Proof.
  destruct (gesture_snapshot_is_lost "n1" [dragTo 3] {[ "x" := VNum (Fin 5) ]}
              (dragTo 5) oneImage) as [Hentry Hrepeat].
  split.
  - apply Hentry. intros H. apply (f_equal xs) in H.
    vm_compute in H. discriminate.
  - apply Hrepeat. vm_compute. reflexivity.
Defined.

(** The same on a rotation gesture: the pointer moves send the angle live,
    the release sends the last angle again, and [past] stays empty. *)
Example rotation_gesture_leaves_no_entry :
  let turning := addNode turnedText initialState in
  let released :=
    updateNode "t1" (turnTo 45) true (liveUpdates "t1" [turnTo 20; turnTo 45] turning) in
  past released = past turning /\
  rotationOf <$> nodes released = [Some (Fin 45)] /\
  nodes (undo released) <> nodes turning.
Proof.
  vm_compute. repeat split. intros H. discriminate.
Qed.

End GestureFacts.
